(** * Rapids API-key service: key lifecycle, validation and rate limiting

    A shallow embedding of the [ApiKeyService] object of
    [src/services/rues.service.ts] (together with [generateRandomString],
    [hashKey] and [rowToApiKey]), of the two tables declared in
    [src/db/index.ts] and of the types of [src/types/index.ts]; then of
    [extractApiKey], [requireAuth] and the handler of [PATCH /v1/keys/:id]
    of [src/server/routes.ts], and of the rues, shared-secret and apps
    services.

    Conventions of the embedding.
    - JavaScript numbers that the service handles (lengths, limits, counters,
      millisecond timestamps) are integers and are modelled by [Z]; the
      development does not cover values that are not integers or that leave
      the range in which a [Date] is valid.
    - Strings are modelled by [string] (sequences of 8-bit characters), which
      is exact for ASCII keys; [TextEncoder.encode] is then the identity on
      the characters' codes.
    - The sources of non-determinism ([crypto.getRandomValues],
      [crypto.randomUUID], [Date.now] and [new Date]) are explicit arguments.
    - A thrown exception is the [Err] result; the database is threaded
      explicitly.
    - What [delete] does to the counters depends on the foreign-key setting
      of the connection, and [list] on the order in which the store returns
      rows created at the same instant: both are parameters of their
      embeddings.  Allocation limits of typed arrays and of the random
      source for very large lengths are not modelled.
    - The route table, the parsing of request bodies and of query strings,
      and the [list...] functions of the side tables are not embedded. *)

From Stdlib Require Import ZArith Ascii String.
From stdpp Require Import gmap strings list fin_maps.
From stdpp Require Import sorting.

Open Scope Z_scope.

(** ** SHA-256 ([crypto.subtle.digest('SHA-256', data)]) *)

Module SHA256.

Definition mask32 : Z := 0xffffffff.

Definition add32 (a b : Z) : Z := Z.land (a + b) mask32.

Definition rotr (n x : Z) : Z :=
  Z.lor (Z.shiftr x n) (Z.land (Z.shiftl x (32 - n)) mask32).

Definition not32 (x : Z) : Z := Z.lxor x mask32.

Definition Ch (x y z : Z) : Z := Z.lxor (Z.land x y) (Z.land (not32 x) z).

Definition Maj (x y z : Z) : Z :=
  Z.lxor (Z.lxor (Z.land x y) (Z.land x z)) (Z.land y z).

Definition Sigma0 (x : Z) : Z := Z.lxor (Z.lxor (rotr 2 x) (rotr 13 x)) (rotr 22 x).
Definition Sigma1 (x : Z) : Z := Z.lxor (Z.lxor (rotr 6 x) (rotr 11 x)) (rotr 25 x).
Definition sigma0 (x : Z) : Z := Z.lxor (Z.lxor (rotr 7 x) (rotr 18 x)) (Z.shiftr x 3).
Definition sigma1 (x : Z) : Z := Z.lxor (Z.lxor (rotr 17 x) (rotr 19 x)) (Z.shiftr x 10).

(** The round constants are the first 32 bits of the fractional parts of the
    cube roots of the first 64 primes, and the initial hash value those of
    the square roots of the first 8 primes. *)
Definition is_prime (n : nat) : bool :=
  forallb (fun d => negb (Nat.eqb (Nat.modulo n d) 0)) (seq 2 (n - 2)).

Definition primes (count : nat) : list Z :=
  Z.of_nat <$> take count (List.filter is_prime (seq 2 310)).

(** Integer cube root, one bit at a time from bit 40 down. *)
Definition cube_root (n : Z) : Z :=
  fold_left
    (fun r b =>
       let r' := r + Z.shiftl 1 (Z.of_nat b) in
       if r' * r' * r' <=? n then r' else r)
    (rev (seq 0 41)) 0.

Definition K : list Z :=
  Eval vm_compute in
    (fun p => Z.land (cube_root (Z.shiftl p 96)) mask32) <$> primes 64.

Definition H0 : list Z :=
  Eval vm_compute in
    (fun p => Z.land (Z.sqrt (Z.shiftl p 64)) mask32) <$> primes 8.

(** Big-endian encoding of [x] on [n] bytes. *)
Fixpoint be_bytes (n : nat) (x : Z) : list Z :=
  match n with
  | O => []
  | S n' => Z.land (Z.shiftr x (8 * Z.of_nat n')) 0xff :: be_bytes n' x
  end.

Definition be_word (bs : list Z) : Z :=
  fold_left (fun acc b => Z.lor (Z.shiftl acc 8) b) bs 0.

(** The message followed by the bit 1, zero bits up to 448 modulo 512, and
    the 64-bit length in bits. *)
Definition pad (msg : list Z) : list Z :=
  let len := Z.of_nat (length msg) in
  let zeros := Z.to_nat ((55 - len) mod 64) in
  msg ++ [0x80] ++ replicate zeros 0 ++ be_bytes 8 (8 * len).

Fixpoint chunks (k : nat) (fuel : nat) (l : list Z) : list (list Z) :=
  match fuel with
  | O => []
  | S fuel' =>
      match l with
      | [] => []
      | _ => take k l :: chunks k fuel' (drop k l)
      end
  end.

Definition words_of_block (block : list Z) : list Z :=
  be_word <$> chunks 4 16 block.

(** Message schedule: [rev_w] holds W(t-1), W(t-2), ... most recent first. *)
Fixpoint extend (n : nat) (rev_w : list Z) : list Z :=
  match n with
  | O => rev_w
  | S n' =>
      let w :=
        add32 (add32 (sigma1 (nth 1 rev_w 0)) (nth 6 rev_w 0))
              (add32 (sigma0 (nth 14 rev_w 0)) (nth 15 rev_w 0)) in
      extend n' (w :: rev_w)
  end.

Definition schedule (block : list Z) : list Z :=
  rev (extend 48 (rev (words_of_block block))).

Record regs : Type :=
  Regs { ra : Z; rb : Z; rc : Z; rd : Z; re : Z; rf : Z; rg : Z; rh : Z }.

Definition round (s : regs) (kw : Z * Z) : regs :=
  let t1 :=
    add32 (add32 (add32 (rh s) (Sigma1 (re s))) (Ch (re s) (rf s) (rg s)))
          (add32 (fst kw) (snd kw)) in
  let t2 := add32 (Sigma0 (ra s)) (Maj (ra s) (rb s) (rc s)) in
  Regs (add32 t1 t2) (ra s) (rb s) (rc s) (add32 (rd s) t1) (re s) (rf s) (rg s).

Definition regs_of (h : list Z) : regs :=
  Regs (nth 0 h 0) (nth 1 h 0) (nth 2 h 0) (nth 3 h 0)
       (nth 4 h 0) (nth 5 h 0) (nth 6 h 0) (nth 7 h 0).

Definition list_of (s : regs) : list Z :=
  [ra s; rb s; rc s; rd s; re s; rf s; rg s; rh s].

Definition compress (h : list Z) (block : list Z) : list Z :=
  let s := fold_left round (combine K (schedule block)) (regs_of h) in
  zip_with add32 h (list_of s).

Definition digest (msg : list Z) : list Z :=
  let padded := pad msg in
  let blocks := chunks 64 (length padded) padded in
  concat (be_bytes 4 <$> fold_left compress blocks H0).

End SHA256.

(** ** Strings *)

Definition hex_digit (n : Z) : ascii :=
  match String.get (Z.to_nat n) "0123456789abcdef" with
  | Some c => c
  | None => "0"%char
  end.

(** [b.toString(16).padStart(2, '0')] for a byte [b]. *)
Definition hex_byte (b : Z) : string :=
  String (hex_digit (b / 16)) (String (hex_digit (b mod 16)) EmptyString).

Definition utf8_encode (s : string) : list Z :=
  (fun c => Z.of_N (N_of_ascii c)) <$> list_ascii_of_string s.

(** [hashKey]: the lower-case hexadecimal SHA-256 digest of the key. *)
Definition hashKey (key : string) : string :=
  String.concat EmptyString (hex_byte <$> SHA256.digest (utf8_encode key)).

(** [rawKey.slice(-4)]: the last four characters, or the whole string when it
    has fewer. *)
Definition slice_last4 (s : string) : string :=
  substring (String.length s - 4)%nat 4 s.

(** Truthiness of a [number | null] value: [null] and [0] are falsy. *)
Definition truthy (o : option Z) : bool :=
  match o with
  | Some n => negb (n =? 0)
  | None => false
  end.

(** ** Types ([src/types/index.ts]) *)

Inductive ApiKeyCharset : Type :=
  | alphanumeric
  | alphanumeric_lower
  | alphanumeric_upper
  | hex
  | base64url.

(** An absent property is [None]; for [expiresIn] and [rateLimit], [null] is
    [None] as well (the default of both is [null]).  [metadata] is carried as
    its JSON text and [scopes] as the list itself: [JSON.stringify] and
    [JSON.parse] are not modelled. *)
Module ApiKeyConfig.
Record t : Type := mk {
  prefix : option string;
  length : option Z;
  charset : option ApiKeyCharset;
  expiresIn : option Z;
  metadata : option string;
  scopes : option (list string);
  name : option string;
  rateLimit : option Z }.
End ApiKeyConfig.

(** The type of [{ ...DEFAULT_CONFIG, ...config }]. *)
Module MergedConfig.
Record t : Type := mk {
  prefix : string;
  length : Z;
  charset : ApiKeyCharset;
  expiresIn : option Z;
  metadata : string;
  scopes : list string;
  name : option string;
  rateLimit : option Z }.
End MergedConfig.

Module ApiKey.
Record t : Type := mk {
  id : string;
  keyHash : string;
  prefix : string;
  suffix : string;
  name : option string;
  createdAt : Z;
  expiresAt : option Z;
  lastUsedAt : option Z;
  isActive : bool;
  metadata : string;
  scopes : list string;
  rateLimit : option Z }.
End ApiKey.

Module ApiKeyRow.
Record t : Type := mk {
  id : string;
  key_hash : string;
  prefix : string;
  suffix : string;
  name : option string;
  created_at : Z;
  expires_at : option Z;
  last_used_at : option Z;
  is_active : Z;
  metadata : string;
  scopes : list string;
  rate_limit : option Z }.
End ApiKeyRow.

Module ApiKeyCreateResult.
Record t : Type := mk {
  key : string;
  record : ApiKey.t }.
End ApiKeyCreateResult.

Inductive Reason : Type := not_found | expired | revoked | rate_limited.

Module ApiKeyValidationResult.
Record t : Type := mk {
  valid : bool;
  reason : option Reason;
  key : option ApiKey.t }.
End ApiKeyValidationResult.

(** The [options] argument of [validate]; an absent property is [None]. *)
Module ValidateOptions.
Record t : Type := mk {
  updateLastUsed : option bool;
  checkRateLimit : option bool }.
End ValidateOptions.

(** The object returned by [getStats]. *)
Module Stats.
Record t : Type := mk {
  total : Z;
  active : Z;
  expired : Z;
  revoked : Z }.
End Stats.

(** ** The store ([src/db/index.ts])

    [api_keys] keeps its rows in insertion order; [id] is its primary key and
    [key_hash] is [UNIQUE].  [rate_limit_records] has the primary key
    [(key_id, window_start)] and is a finite map to [request_count]. *)

Record Database : Type := {
  api_keys : list ApiKeyRow.t;
  rate_limit_records : gmap (string * Z) Z }.

(** ** Exceptions *)

Inductive Error : Type :=
  | RangeError          (* [new Uint8Array(length)] with a negative length *)
  | ConstraintError.    (* a [PRIMARY KEY] or [UNIQUE] constraint failed *)

Inductive result (A : Type) : Type :=
  | Ok (a : A)
  | Err (e : Error).
Arguments Ok {A} a.
Arguments Err {A} e.

(** A computation on the store that may throw: the store reached when the
    exception is thrown is kept. *)
Definition M (A : Type) : Type := Database -> Database * result A.

Definition ret {A} (a : A) : M A := fun db => (db, Ok a).
Definition bind {A B} (m : M A) (k : A -> M B) : M B :=
  fun db =>
    match m db with
    | (db', Ok a) => k a db'
    | (db', Err e) => (db', Err e)
    end.
Definition lift {A} (r : result A) : M A := fun db => (db, r).

Notation "'let*' x ':=' m 'in' k" := (bind m (fun x => k))
  (at level 10, x name, m at level 100, k at level 200).

(** ** Key generation *)

Definition CHARSETS (c : ApiKeyCharset) : string :=
  match c with
  | alphanumeric => "abcdefghijklmnopqrstuvwxyzABCDEFGHIJKLMNOPQRSTUVWXYZ0123456789"
  | alphanumeric_lower => "abcdefghijklmnopqrstuvwxyz0123456789"
  | alphanumeric_upper => "ABCDEFGHIJKLMNOPQRSTUVWXYZ0123456789"
  | hex => "0123456789abcdef"
  | base64url => "abcdefghijklmnopqrstuvwxyzABCDEFGHIJKLMNOPQRSTUVWXYZ0123456789-_"
  end.

Definition DEFAULT_CONFIG : MergedConfig.t :=
  {| MergedConfig.prefix := "rapids_";
     MergedConfig.length := 32;
     MergedConfig.charset := base64url;
     MergedConfig.expiresIn := None;
     MergedConfig.metadata := "{}";
     MergedConfig.scopes := [];
     MergedConfig.name := None;
     MergedConfig.rateLimit := None |}.

(** [{ ...DEFAULT_CONFIG, ...config }] *)
Definition mergeConfig (config : ApiKeyConfig.t) : MergedConfig.t :=
  {| MergedConfig.prefix :=
       default (MergedConfig.prefix DEFAULT_CONFIG) (ApiKeyConfig.prefix config);
     MergedConfig.length :=
       default (MergedConfig.length DEFAULT_CONFIG) (ApiKeyConfig.length config);
     MergedConfig.charset :=
       default (MergedConfig.charset DEFAULT_CONFIG) (ApiKeyConfig.charset config);
     MergedConfig.expiresIn :=
       match ApiKeyConfig.expiresIn config with
       | Some e => Some e
       | None => MergedConfig.expiresIn DEFAULT_CONFIG
       end;
     MergedConfig.metadata :=
       default (MergedConfig.metadata DEFAULT_CONFIG) (ApiKeyConfig.metadata config);
     MergedConfig.scopes :=
       default (MergedConfig.scopes DEFAULT_CONFIG) (ApiKeyConfig.scopes config);
     MergedConfig.name :=
       match ApiKeyConfig.name config with
       | Some n => Some n
       | None => MergedConfig.name DEFAULT_CONFIG
       end;
     MergedConfig.rateLimit :=
       match ApiKeyConfig.rateLimit config with
       | Some n => Some n
       | None => MergedConfig.rateLimit DEFAULT_CONFIG
       end |}.

(** The random source: [rnd i] is the value that [crypto.getRandomValues]
    writes at index [i]; a [Uint8Array] keeps it modulo 256. *)
Definition RandomSource : Type := nat -> Z.

(** [charset[k]] appended to a string: an index out of range reads
    [undefined], which [+=] appends as the text "undefined". *)
Definition char_at (charset : string) (k : Z) : string :=
  match String.get (Z.to_nat k) charset with
  | Some c => String c EmptyString
  | None => "undefined"
  end.

Definition generateRandomString (length : Z) (charset : string)
    (rnd : RandomSource) : result string :=
  if length <? 0 then Err RangeError
  else
    Ok (fold_left
          (fun result i =>
             let value := rnd i mod 256 in
             result +:+ char_at charset (value mod Z.of_nat (String.length charset)))
          (seq 0 (Z.to_nat length)) EmptyString).

(** ** Rows *)

Definition rowToApiKey (row : ApiKeyRow.t) : ApiKey.t :=
  {| ApiKey.id := ApiKeyRow.id row;
     ApiKey.keyHash := ApiKeyRow.key_hash row;
     ApiKey.prefix := ApiKeyRow.prefix row;
     ApiKey.suffix := ApiKeyRow.suffix row;
     ApiKey.name := ApiKeyRow.name row;
     ApiKey.createdAt := ApiKeyRow.created_at row;
     ApiKey.expiresAt :=
       if truthy (ApiKeyRow.expires_at row) then ApiKeyRow.expires_at row else None;
     ApiKey.lastUsedAt :=
       if truthy (ApiKeyRow.last_used_at row) then ApiKeyRow.last_used_at row else None;
     ApiKey.isActive := ApiKeyRow.is_active row =? 1;
     ApiKey.metadata := ApiKeyRow.metadata row;
     ApiKey.scopes := ApiKeyRow.scopes row;
     ApiKey.rateLimit := ApiKeyRow.rate_limit row |}.

(** [SELECT * FROM api_keys WHERE key_hash = ?] and [... WHERE id = ?],
    first row. *)
Definition selectByHash (keyHash : string) (db : Database) : option ApiKeyRow.t :=
  List.find (fun r => bool_decide (ApiKeyRow.key_hash r = keyHash)) (api_keys db).

Definition selectById (keyId : string) (db : Database) : option ApiKeyRow.t :=
  List.find (fun r => bool_decide (ApiKeyRow.id r = keyId)) (api_keys db).

(** [INSERT INTO api_keys ...]: refused when the [id] or the [key_hash] is
    already present. *)
Definition insertApiKey (row : ApiKeyRow.t) : M unit :=
  fun db =>
    if existsb
         (fun r =>
            bool_decide (ApiKeyRow.id r = ApiKeyRow.id row)
            || bool_decide (ApiKeyRow.key_hash r = ApiKeyRow.key_hash row))
         (api_keys db)
    then (db, Err ConstraintError)
    else ({| api_keys := api_keys db ++ [row];
             rate_limit_records := rate_limit_records db |}, Ok tt).

(** [UPDATE api_keys SET ... WHERE id = ?]: the new table and the number of
    rows changed. *)
Definition updateWhereId (keyId : string) (f : ApiKeyRow.t -> ApiKeyRow.t)
    (db : Database) : Database * Z :=
  ({| api_keys :=
        (fun r => if bool_decide (ApiKeyRow.id r = keyId) then f r else r)
          <$> api_keys db;
      rate_limit_records := rate_limit_records db |},
   Z.of_nat
     (List.length
        (List.filter (fun r => bool_decide (ApiKeyRow.id r = keyId)) (api_keys db)))).

(** [SELECT COUNT( * ) FROM api_keys WHERE ...] *)
Definition countWhere (p : ApiKeyRow.t -> bool) (db : Database) : Z :=
  Z.of_nat (List.length (List.filter p (api_keys db))).

(** ** [ApiKeyService] *)

(** The values read from the environment by one call of [create]. *)
Record CreateEnv : Type := {
  env_rnd : RandomSource;      (* [crypto.getRandomValues] *)
  env_now : Z;                 (* [Date.now()] *)
  env_uuid : string }.         (* [crypto.randomUUID()] *)

Definition create (config : ApiKeyConfig.t) (env : CreateEnv)
  : M ApiKeyCreateResult.t :=
  let mergedConfig := mergeConfig config in
  let charset := CHARSETS (MergedConfig.charset mergedConfig) in
  let* randomPart :=
    lift (generateRandomString (MergedConfig.length mergedConfig) charset
            (env_rnd env)) in
  let rawKey := MergedConfig.prefix mergedConfig +:+ randomPart in
  let keyHash := hashKey rawKey in
  let now := env_now env in
  let expiresAt :=
    if truthy (MergedConfig.expiresIn mergedConfig)
    then (fun e => now + e * 1000) <$> MergedConfig.expiresIn mergedConfig
    else None in
  let id := env_uuid env in
  let suffix := slice_last4 rawKey in
  let* _ :=
    insertApiKey
      {| ApiKeyRow.id := id;
         ApiKeyRow.key_hash := keyHash;
         ApiKeyRow.prefix := MergedConfig.prefix mergedConfig;
         ApiKeyRow.suffix := suffix;
         ApiKeyRow.name := MergedConfig.name mergedConfig;
         ApiKeyRow.created_at := now;
         ApiKeyRow.expires_at := expiresAt;
         ApiKeyRow.last_used_at := None;
         ApiKeyRow.is_active := 1;
         ApiKeyRow.metadata := MergedConfig.metadata mergedConfig;
         ApiKeyRow.scopes := MergedConfig.scopes mergedConfig;
         ApiKeyRow.rate_limit := MergedConfig.rateLimit mergedConfig |} in
  ret {| ApiKeyCreateResult.key := rawKey;
         ApiKeyCreateResult.record :=
           {| ApiKey.id := id;
              ApiKey.keyHash := keyHash;
              ApiKey.prefix := MergedConfig.prefix mergedConfig;
              ApiKey.suffix := suffix;
              ApiKey.name := MergedConfig.name mergedConfig;
              ApiKey.createdAt := now;
              ApiKey.expiresAt := if truthy expiresAt then expiresAt else None;
              ApiKey.lastUsedAt := None;
              ApiKey.isActive := true;
              ApiKey.metadata := MergedConfig.metadata mergedConfig;
              ApiKey.scopes := MergedConfig.scopes mergedConfig;
              ApiKey.rateLimit := MergedConfig.rateLimit mergedConfig |} |}.

(** [Math.floor(now / 60000) * 60000] *)
Definition windowStartOf (now : Z) : Z := now / 60000 * 60000.

(** The three statements that [checkRateLimit] sends to the store. *)

(** [DELETE FROM rate_limit_records WHERE window_start < ?] *)
Definition purgeBefore (threshold : Z) (rl : gmap (string * Z) Z)
  : gmap (string * Z) Z :=
  filter (fun kv => ¬ (snd (fst kv) < threshold)) rl.

(** [SELECT request_count ... WHERE key_id = ? AND window_start = ?] *)
Definition selectCount (keyId : string) (windowStart : Z)
    (rl : gmap (string * Z) Z) : option Z :=
  rl !! (keyId, windowStart).

(** [INSERT ... VALUES (?, ?, 1) ON CONFLICT (key_id, window_start)
    DO UPDATE SET request_count = request_count + 1] *)
Definition upsertIncrement (keyId : string) (windowStart : Z)
    (rl : gmap (string * Z) Z) : gmap (string * Z) Z :=
  match rl !! (keyId, windowStart) with
  | Some c => <[(keyId, windowStart) := c + 1]> rl
  | None => <[(keyId, windowStart) := 1]> rl
  end.

(** [row && row.request_count >= limit] *)
Definition overLimit (row : option Z) (limit : Z) : bool :=
  match row with
  | Some c => limit <=? c
  | None => false
  end.

(** Returns [true] when the request is rate limited. *)
Definition checkRateLimit (keyId : string) (limit : Z) (now : Z)
    (db : Database) : Database * bool :=
  let windowStart := windowStartOf now in
  let rl1 := purgeBefore (windowStart - 60000) (rate_limit_records db) in
  let row := selectCount keyId windowStart rl1 in
  if overLimit row limit
  then ({| api_keys := api_keys db; rate_limit_records := rl1 |}, true)
  else ({| api_keys := api_keys db;
           rate_limit_records := upsertIncrement keyId windowStart rl1 |}, false).

(** The clock readings of one call of [validate], in program order. *)
Record ValidateClock : Type := {
  clk_expiry : Z;       (* [new Date()] of the expiration check *)
  clk_rate : Z;         (* [Date.now()] inside [checkRateLimit] *)
  clk_update : Z;       (* [Date.now()] written to [last_used_at] *)
  clk_stamp : Z }.      (* [new Date()] assigned to [apiKey.lastUsedAt] *)

(** [apiKey.expiresAt && apiKey.expiresAt < new Date()] *)
Definition isExpired (apiKey : ApiKey.t) (now : Z) : bool :=
  match ApiKey.expiresAt apiKey with
  | Some e => e <? now
  | None => false
  end.

Definition setLastUsed (t : Z) (r : ApiKeyRow.t) : ApiKeyRow.t :=
  {| ApiKeyRow.id := ApiKeyRow.id r;
     ApiKeyRow.key_hash := ApiKeyRow.key_hash r;
     ApiKeyRow.prefix := ApiKeyRow.prefix r;
     ApiKeyRow.suffix := ApiKeyRow.suffix r;
     ApiKeyRow.name := ApiKeyRow.name r;
     ApiKeyRow.created_at := ApiKeyRow.created_at r;
     ApiKeyRow.expires_at := ApiKeyRow.expires_at r;
     ApiKeyRow.last_used_at := Some t;
     ApiKeyRow.is_active := ApiKeyRow.is_active r;
     ApiKeyRow.metadata := ApiKeyRow.metadata r;
     ApiKeyRow.scopes := ApiKeyRow.scopes r;
     ApiKeyRow.rate_limit := ApiKeyRow.rate_limit r |}.

Definition withLastUsedAt (t : Z) (k : ApiKey.t) : ApiKey.t :=
  {| ApiKey.id := ApiKey.id k;
     ApiKey.keyHash := ApiKey.keyHash k;
     ApiKey.prefix := ApiKey.prefix k;
     ApiKey.suffix := ApiKey.suffix k;
     ApiKey.name := ApiKey.name k;
     ApiKey.createdAt := ApiKey.createdAt k;
     ApiKey.expiresAt := ApiKey.expiresAt k;
     ApiKey.lastUsedAt := Some t;
     ApiKey.isActive := ApiKey.isActive k;
     ApiKey.metadata := ApiKey.metadata k;
     ApiKey.scopes := ApiKey.scopes k;
     ApiKey.rateLimit := ApiKey.rateLimit k |}.

Definition invalid (why : Reason) (k : option ApiKey.t)
  : ApiKeyValidationResult.t :=
  ApiKeyValidationResult.mk false (Some why) k.

Definition success (k : ApiKey.t) : ApiKeyValidationResult.t :=
  ApiKeyValidationResult.mk true None (Some k).

(** The part of [validate] that runs after [await hashKey(key)]: it contains
    no further [await]. *)
Definition validateHashed (keyHash : string) (options : ValidateOptions.t)
    (clk : ValidateClock) (db : Database)
  : Database * ApiKeyValidationResult.t :=
  let updateLastUsed := default true (ValidateOptions.updateLastUsed options) in
  let checkRL := default true (ValidateOptions.checkRateLimit options) in
  match selectByHash keyHash db with
  | None => (db, invalid not_found None)
  | Some row =>
      let apiKey := rowToApiKey row in
      if negb (ApiKey.isActive apiKey) then (db, invalid revoked (Some apiKey))
      else if isExpired apiKey (clk_expiry clk)
      then (db, invalid expired (Some apiKey))
      else
        let '(db1, isRateLimited) :=
          if checkRL && truthy (ApiKey.rateLimit apiKey)
          then checkRateLimit (ApiKey.id apiKey)
                 (default 0 (ApiKey.rateLimit apiKey)) (clk_rate clk) db
          else (db, false) in
        if isRateLimited then (db1, invalid rate_limited (Some apiKey))
        else if updateLastUsed
        then (fst (updateWhereId (ApiKey.id apiKey)
                     (setLastUsed (clk_update clk)) db1),
              success (withLastUsedAt (clk_stamp clk) apiKey))
        else (db1, success apiKey)
  end.

Definition validate (key : string) (options : ValidateOptions.t)
    (clk : ValidateClock) (db : Database)
  : Database * ApiKeyValidationResult.t :=
  let keyHash := hashKey key in
  validateHashed keyHash options clk db.

Definition setInactive (r : ApiKeyRow.t) : ApiKeyRow.t :=
  {| ApiKeyRow.id := ApiKeyRow.id r;
     ApiKeyRow.key_hash := ApiKeyRow.key_hash r;
     ApiKeyRow.prefix := ApiKeyRow.prefix r;
     ApiKeyRow.suffix := ApiKeyRow.suffix r;
     ApiKeyRow.name := ApiKeyRow.name r;
     ApiKeyRow.created_at := ApiKeyRow.created_at r;
     ApiKeyRow.expires_at := ApiKeyRow.expires_at r;
     ApiKeyRow.last_used_at := ApiKeyRow.last_used_at r;
     ApiKeyRow.is_active := 0;
     ApiKeyRow.metadata := ApiKeyRow.metadata r;
     ApiKeyRow.scopes := ApiKeyRow.scopes r;
     ApiKeyRow.rate_limit := ApiKeyRow.rate_limit r |}.

(** [result.changes > 0] of [UPDATE api_keys SET is_active = 0 WHERE id = ?] *)
Definition revoke (keyId : string) (db : Database) : Database * bool :=
  let '(db', changes) := updateWhereId keyId setInactive db in
  (db', 0 <? changes).

Definition getById (keyId : string) (db : Database) : option ApiKey.t :=
  rowToApiKey <$> selectById keyId db.

Definition setMetadata (metadata : string) (r : ApiKeyRow.t) : ApiKeyRow.t :=
  {| ApiKeyRow.id := ApiKeyRow.id r;
     ApiKeyRow.key_hash := ApiKeyRow.key_hash r;
     ApiKeyRow.prefix := ApiKeyRow.prefix r;
     ApiKeyRow.suffix := ApiKeyRow.suffix r;
     ApiKeyRow.name := ApiKeyRow.name r;
     ApiKeyRow.created_at := ApiKeyRow.created_at r;
     ApiKeyRow.expires_at := ApiKeyRow.expires_at r;
     ApiKeyRow.last_used_at := ApiKeyRow.last_used_at r;
     ApiKeyRow.is_active := ApiKeyRow.is_active r;
     ApiKeyRow.metadata := metadata;
     ApiKeyRow.scopes := ApiKeyRow.scopes r;
     ApiKeyRow.rate_limit := ApiKeyRow.rate_limit r |}.

Definition setScopes (scopes : list string) (r : ApiKeyRow.t) : ApiKeyRow.t :=
  {| ApiKeyRow.id := ApiKeyRow.id r;
     ApiKeyRow.key_hash := ApiKeyRow.key_hash r;
     ApiKeyRow.prefix := ApiKeyRow.prefix r;
     ApiKeyRow.suffix := ApiKeyRow.suffix r;
     ApiKeyRow.name := ApiKeyRow.name r;
     ApiKeyRow.created_at := ApiKeyRow.created_at r;
     ApiKeyRow.expires_at := ApiKeyRow.expires_at r;
     ApiKeyRow.last_used_at := ApiKeyRow.last_used_at r;
     ApiKeyRow.is_active := ApiKeyRow.is_active r;
     ApiKeyRow.metadata := ApiKeyRow.metadata r;
     ApiKeyRow.scopes := scopes;
     ApiKeyRow.rate_limit := ApiKeyRow.rate_limit r |}.

Definition setName (name : string) (r : ApiKeyRow.t) : ApiKeyRow.t :=
  {| ApiKeyRow.id := ApiKeyRow.id r;
     ApiKeyRow.key_hash := ApiKeyRow.key_hash r;
     ApiKeyRow.prefix := ApiKeyRow.prefix r;
     ApiKeyRow.suffix := ApiKeyRow.suffix r;
     ApiKeyRow.name := Some name;
     ApiKeyRow.created_at := ApiKeyRow.created_at r;
     ApiKeyRow.expires_at := ApiKeyRow.expires_at r;
     ApiKeyRow.last_used_at := ApiKeyRow.last_used_at r;
     ApiKeyRow.is_active := ApiKeyRow.is_active r;
     ApiKeyRow.metadata := ApiKeyRow.metadata r;
     ApiKeyRow.scopes := ApiKeyRow.scopes r;
     ApiKeyRow.rate_limit := ApiKeyRow.rate_limit r |}.

(** [updateMetadata], [updateScopes] and [rename]: the new value replaces the
    old one; the answer is [result.changes > 0]. *)
Definition updateMetadata (keyId : string) (metadata : string) (db : Database)
  : Database * bool :=
  let '(db', changes) := updateWhereId keyId (setMetadata metadata) db in
  (db', 0 <? changes).

Definition updateScopes (keyId : string) (scopes : list string) (db : Database)
  : Database * bool :=
  let '(db', changes) := updateWhereId keyId (setScopes scopes) db in
  (db', 0 <? changes).

Definition rename (keyId : string) (name : string) (db : Database)
  : Database * bool :=
  let '(db', changes) := updateWhereId keyId (setName name) db in
  (db', 0 <? changes).

Definition getStats (now : Z) (db : Database) : Stats.t :=
  {| Stats.total := countWhere (fun _ => true) db;
     Stats.active :=
       countWhere
         (fun r =>
            (ApiKeyRow.is_active r =? 1)
            && match ApiKeyRow.expires_at r with
               | None => true
               | Some e => now <? e
               end) db;
     Stats.expired :=
       countWhere
         (fun r =>
            match ApiKeyRow.expires_at r with
            | None => false
            | Some e => e <=? now
            end) db;
     Stats.revoked := countWhere (fun r => ApiKeyRow.is_active r =? 0) db |}.

(** ** Concurrent calls

    Two models of two calls in flight at once.  [EventLoop] is the
    interleaving that one JavaScript event loop allows: a call of [validate]
    can be suspended only at its [await], so it runs in two atomic segments.
    [Statements] interleaves the calls of [checkRateLimit] at the granularity
    of the statements they send to the store, as callers that share the
    store but not the event loop would. *)

Inductive Turn : Type := First | Second.

Module Statements.

Record Call : Type := {
  keyId : string;
  limit : Z;
  now : Z }.

(** Program counter of one call of [checkRateLimit]. *)
Inductive Pc : Type :=
  | AtPurge
  | AtSelect
  | AtUpsert
  | Returned (limited : bool).

Definition step (c : Call) (pc : Pc) (rl : gmap (string * Z) Z)
  : Pc * gmap (string * Z) Z :=
  let windowStart := windowStartOf (now c) in
  match pc with
  | AtPurge => (AtSelect, purgeBefore (windowStart - 60000) rl)
  | AtSelect =>
      (if overLimit (selectCount (keyId c) windowStart rl) (limit c)
       then Returned true else AtUpsert, rl)
  | AtUpsert => (Returned false, upsertIncrement (keyId c) windowStart rl)
  | Returned b => (Returned b, rl)
  end.

Record State : Type := {
  pc1 : Pc;
  pc2 : Pc;
  store : gmap (string * Z) Z }.

Definition turn (c1 c2 : Call) (st : State) (t : Turn) : State :=
  match t with
  | First =>
      let '(pc, rl) := step c1 (pc1 st) (store st) in
      {| pc1 := pc; pc2 := pc2 st; store := rl |}
  | Second =>
      let '(pc, rl) := step c2 (pc2 st) (store st) in
      {| pc1 := pc1 st; pc2 := pc; store := rl |}
  end.

Definition run (c1 c2 : Call) (schedule : list Turn) (st : State) : State :=
  fold_left (turn c1 c2) schedule st.

Definition start (rl : gmap (string * Z) Z) : State :=
  {| pc1 := AtPurge; pc2 := AtPurge; store := rl |}.

(** Number of permits that the calls which have returned were granted. *)
Definition granted (pc : Pc) : Z :=
  match pc with
  | Returned false => 1
  | _ => 0
  end.

End Statements.

Module EventLoop.

Record Call : Type := {
  key : string;
  options : ValidateOptions.t;
  clock : ValidateClock }.

Inductive Pc : Type :=
  | Called
  | Awaiting (keyHash : string)
  | Resolved (r : ApiKeyValidationResult.t).

Definition step (c : Call) (pc : Pc) (db : Database) : Pc * Database :=
  match pc with
  | Called => (Awaiting (hashKey (key c)), db)
  | Awaiting keyHash =>
      let '(db', r) := validateHashed keyHash (options c) (clock c) db in
      (Resolved r, db')
  | Resolved r => (Resolved r, db)
  end.

Record State : Type := {
  pc1 : Pc;
  pc2 : Pc;
  store : Database }.

Definition turn (c1 c2 : Call) (st : State) (t : Turn) : State :=
  match t with
  | First =>
      let '(pc, db) := step c1 (pc1 st) (store st) in
      {| pc1 := pc; pc2 := pc2 st; store := db |}
  | Second =>
      let '(pc, db) := step c2 (pc2 st) (store st) in
      {| pc1 := pc1 st; pc2 := pc; store := db |}
  end.

Definition run (c1 c2 : Call) (schedule : list Turn) (st : State) : State :=
  fold_left (turn c1 c2) schedule st.

Definition start (db : Database) : State :=
  {| pc1 := Called; pc2 := Called; store := db |}.

Definition outcome (pc : Pc) : option ApiKeyValidationResult.t :=
  match pc with
  | Resolved r => Some r
  | _ => None
  end.

(** Number of permits that a call has been granted so far. *)
Definition granted (pc : Pc) : Z :=
  match pc with
  | Resolved r => if ApiKeyValidationResult.valid r then 1 else 0
  | _ => 0
  end.

End EventLoop.

(** ** Sequences of calls *)

(** Successive calls of [checkRateLimit] for one key, at the given instants;
    the answers are listed in call order. *)
Fixpoint checkRateLimitAll (keyId : string) (limit : Z) (nows : list Z)
    (db : Database) : Database * list bool :=
  match nows with
  | [] => (db, [])
  | now :: rest =>
      let '(db1, b) := checkRateLimit keyId limit now db in
      let '(db2, bs) := checkRateLimitAll keyId limit rest db1 in
      (db2, b :: bs)
  end.

Fixpoint validateAll (key : string) (options : ValidateOptions.t)
    (clks : list ValidateClock) (db : Database)
  : Database * list ApiKeyValidationResult.t :=
  match clks with
  | [] => (db, [])
  | clk :: rest =>
      let '(db1, r) := validate key options clk db in
      let '(db2, rs) := validateAll key options rest db1 in
      (db2, r :: rs)
  end.

(** ** Store invariants and observations *)

(** Every [is_active] column holds 0 or 1 (the only values written). *)
Definition flags_ok (db : Database) : Prop :=
  Forall (fun r => ApiKeyRow.is_active r = 0 \/ ApiKeyRow.is_active r = 1)
         (api_keys db).

(** The text columns of a row, and the texts held by the whole store. *)
Definition row_texts (r : ApiKeyRow.t) : list string :=
  [ApiKeyRow.id r; ApiKeyRow.key_hash r; ApiKeyRow.prefix r; ApiKeyRow.suffix r;
   ApiKeyRow.metadata r]
  ++ option_list (ApiKeyRow.name r) ++ ApiKeyRow.scopes r.


Definition key_texts (k : ApiKey.t) : list string :=
  [ApiKey.id k; ApiKey.keyHash k; ApiKey.prefix k; ApiKey.suffix k;
   ApiKey.metadata k]
  ++ option_list (ApiKey.name k) ++ ApiKey.scopes k.

(** The raw key that [create] assembles, when the random body can be drawn. *)
Definition rawKeyOf (config : ApiKeyConfig.t) (env : CreateEnv) : result string :=
  let m := mergeConfig config in
  match generateRandomString (MergedConfig.length m)
          (CHARSETS (MergedConfig.charset m)) (env_rnd env) with
  | Ok body => Ok (MergedConfig.prefix m +:+ body)
  | Err e => Err e
  end.

(** [id] and [key_hash] are both free in the table. *)
Definition fresh (keyId keyHash : string) (db : Database) : Prop :=
  forall r, r ∈ api_keys db ->
    ApiKeyRow.id r <> keyId /\ ApiKeyRow.key_hash r <> keyHash.

(** The rate-limit step of [validate] rejects exactly when the check is
    enabled, the key has a non-zero limit, and the counter of the current
    window has reached it. *)
Definition rateLimited (row : ApiKeyRow.t) (options : ValidateOptions.t)
    (now : Z) (db : Database) : bool :=
  default true (ValidateOptions.checkRateLimit options)
  && truthy (ApiKeyRow.rate_limit row)
  && overLimit (rate_limit_records db !! (ApiKeyRow.id row, windowStartOf now))
       (default 0 (ApiKeyRow.rate_limit row)).

(** A row whose expiry is set and not after [now]. *)
Definition expiredAt (now : Z) (r : ApiKeyRow.t) : bool :=
  match ApiKeyRow.expires_at r with
  | Some e => e <=? now
  | None => false
  end.

Definition counterOf (rl : gmap (string * Z) Z) (keyId : string) (w : Z) : Z :=
  default 0 (rl !! (keyId, w)).

(** The row of a key as far as [validate] depends on it. *)
Definition keyState (keyHash keyId : string) (N : Z) (exp : option Z)
    (db : Database) : Prop :=
  exists row,
    selectByHash keyHash db = Some row
    /\ ApiKeyRow.id row = keyId
    /\ ApiKeyRow.is_active row = 1
    /\ ApiKeyRow.expires_at row = exp
    /\ ApiKeyRow.rate_limit row = Some N.

Definition notExpiredAt (exp : option Z) (now : Z) : Prop :=
  forall e, exp = Some e -> e <> 0 -> now <= e.

(** A call that presents [key] with the rate-limit check enabled, at an
    instant of the window [w] at which the key has not expired. *)
Definition presents (key : string) (exp : option Z) (w : Z)
    (c : EventLoop.Call) : Prop :=
  EventLoop.key c = key
  /\ default true (ValidateOptions.checkRateLimit (EventLoop.options c)) = true
  /\ notExpiredAt exp (clk_expiry (EventLoop.clock c))
  /\ windowStartOf (clk_rate (EventLoop.clock c)) = w.

(** What a call in flight may have reached: a rejected call has seen the
    counter at the limit [N]. *)
Definition pcGood (key keyId : string) (N w : Z) (pc : EventLoop.Pc)
    (db : Database) : Prop :=
  match pc with
  | EventLoop.Called => True
  | EventLoop.Awaiting h => h = hashKey key
  | EventLoop.Resolved r =>
      (ApiKeyValidationResult.valid r = true
       /\ ApiKeyValidationResult.reason r = None)
      \/ (ApiKeyValidationResult.valid r = false
          /\ ApiKeyValidationResult.reason r = Some rate_limited
          /\ counterOf (rate_limit_records db) keyId w = N)
  end.

(** The invariant of two calls in flight on a key with one permit left. *)
Definition loopInv (key keyId : string) (N w : Z) (exp : option Z)
    (st : EventLoop.State) : Prop :=
  keyState (hashKey key) keyId N exp (EventLoop.store st)
  /\ counterOf (rate_limit_records (EventLoop.store st)) keyId w <= N
  /\ pcGood key keyId N w (EventLoop.pc1 st) (EventLoop.store st)
  /\ pcGood key keyId N w (EventLoop.pc2 st) (EventLoop.store st)
  /\ counterOf (rate_limit_records (EventLoop.store st)) keyId w
     = N - 1 + EventLoop.granted (EventLoop.pc1 st)
       + EventLoop.granted (EventLoop.pc2 st).

(** Progress of a call: 0 when called, 1 while awaiting the hash, 2 once
    resolved. *)
Definition progress (pc : EventLoop.Pc) : nat :=
  match pc with
  | EventLoop.Called => 0
  | EventLoop.Awaiting _ => 1
  | EventLoop.Resolved _ => 2
  end.

Definition turnsOf (t : Turn) (schedule : list Turn) : nat :=
  length (List.filter
            (fun t' => match t, t' with
                       | First, First | Second, Second => true
                       | _, _ => false
                       end) schedule).

Definition emptyDb : Database :=
  {| api_keys := []; rate_limit_records := ∅ |}.

Definition noOptions : ValidateOptions.t := ValidateOptions.mk None None.

Definition noConfig : ApiKeyConfig.t :=
  ApiKeyConfig.mk None None None None None None None None.

Definition clockAt (t : Z) : ValidateClock :=
  {| clk_expiry := t; clk_rate := t; clk_update := t; clk_stamp := t |}.

(** ** Sample data *)

Module Sample.

(** A random source that writes 3, 10, 17, ... *)
Definition rnd : RandomSource := fun i => 7 * Z.of_nat i + 3.

Definition env : CreateEnv :=
  {| env_rnd := rnd;
     env_now := 1700000000000;
     env_uuid := "0b7e4a52-5c1d-4e0a-9f3b-2d6c8a1e4f70" |}.


Definition withRateLimit (n : Z) : ApiKeyConfig.t :=
  ApiKeyConfig.mk None None None None None None None (Some n).

Definition withExpiresIn (e : Z) : ApiKeyConfig.t :=
  ApiKeyConfig.mk None None None (Some e) None None None None.

(** [{ prefix: 'k', length: 3 }] *)
Definition shortKey : ApiKeyConfig.t :=
  ApiKeyConfig.mk (Some "k") (Some 3) None None None None None None.

Definition row (id keyHash : string) (isActive : Z) (expiresAt : option Z)
  : ApiKeyRow.t :=
  {| ApiKeyRow.id := id;
     ApiKeyRow.key_hash := keyHash;
     ApiKeyRow.prefix := "rapids_";
     ApiKeyRow.suffix := "0000";
     ApiKeyRow.name := None;
     ApiKeyRow.created_at := 1000;
     ApiKeyRow.expires_at := expiresAt;
     ApiKeyRow.last_used_at := None;
     ApiKeyRow.is_active := isActive;
     ApiKeyRow.metadata := "{}";
     ApiKeyRow.scopes := [];
     ApiKeyRow.rate_limit := None |}.

(** Two active keys, one revoked key that never expires, and one key that
    expired at 2000 and was never revoked. *)
Definition fourKeys : Database :=
  {| api_keys :=
       [ row "a" (hashKey "rapids_a") 1 None;
         row "b" (hashKey "rapids_b") 1 (Some 9000);
         row "c" (hashKey "rapids_c") 0 None;
         row "d" (hashKey "rapids_d") 1 (Some 2000) ];
     rate_limit_records := ∅ |}.

(** The same with a fifth key, revoked and expired. *)
Definition fiveKeys : Database :=
  {| api_keys := api_keys fourKeys ++ [row "e" (hashKey "rapids_e") 0 (Some 2000)];
     rate_limit_records := ∅ |}.

(** One key limited to one request per minute. *)
Definition limitedKey : Database :=
  {| api_keys :=
       [ {| ApiKeyRow.id := "a";
            ApiKeyRow.key_hash := hashKey "rapids_a";
            ApiKeyRow.prefix := "rapids_";
            ApiKeyRow.suffix := "ds_a";
            ApiKeyRow.name := None;
            ApiKeyRow.created_at := 1000;
            ApiKeyRow.expires_at := None;
            ApiKeyRow.last_used_at := None;
            ApiKeyRow.is_active := 1;
            ApiKeyRow.metadata := "{}";
            ApiKeyRow.scopes := [];
            ApiKeyRow.rate_limit := Some 1 |} ];
     rate_limit_records := ∅ |}.

(** Two calls of [checkRateLimit] for a key limited to one request. *)
Definition oneLeft : Statements.Call :=
  {| Statements.keyId := "a"; Statements.limit := 1; Statements.now := 5000 |}.

Definition call (key : string) (t : Z) : EventLoop.Call :=
  {| EventLoop.key := key; EventLoop.options := noOptions;
     EventLoop.clock := clockAt t |}.

Definition verdict (r : ApiKeyValidationResult.t) : bool * option Reason :=
  (ApiKeyValidationResult.valid r, ApiKeyValidationResult.reason r).

(** Create a key on the empty store, apply [after] to the store, then
    validate the returned key at each of the instants [nows]. *)
Definition verdicts (config : ApiKeyConfig.t) (after : Database -> Database)
    (nows : list Z) : list (bool * option Reason) :=
  match create config env emptyDb with
  | (db, Ok res) =>
      verdict
        <$> snd (validateAll (ApiKeyCreateResult.key res) noOptions
                   (clockAt <$> nows) (after db))
  | (_, Err _) => []
  end.

End Sample.

(** ** [ApiKeyService.delete] and [ApiKeyService.list]

    They are named [deleteApiKey] and [listApiKeys] here, [delete] and [list]
    being taken.  Two facts about the store that the source leaves open are
    parameters: whether the connection enforces the [ON DELETE CASCADE] of
    [rate_limit_records] ([db/index.ts] sets no [foreign_keys] pragma), and
    the order in which [ORDER BY created_at DESC] returns its rows. *)

Definition deleteApiKey (cascade : bool) (keyId : string) (db : Database)
  : Database * bool :=
  let changes :=
    Z.of_nat
      (List.length
         (List.filter (fun r => bool_decide (ApiKeyRow.id r = keyId))
            (api_keys db))) in
  ({| api_keys :=
        List.filter (fun r => negb (bool_decide (ApiKeyRow.id r = keyId)))
          (api_keys db);
      rate_limit_records :=
        if cascade && (0 <? changes)
        then filter (fun kv => fst (fst kv) <> keyId) (rate_limit_records db)
        else rate_limit_records db |},
   0 <? changes).

Module ApiKeyListOptions.
Record t : Type := mk {
  isActive : option bool;
  prefix : option string;
  includeExpired : option bool;
  offset : option Z;
  limit : option Z }.
End ApiKeyListOptions.

(** [LIMIT ? OFFSET ?]: a negative limit means no limit, a negative offset
    none. *)
Definition sqlLimitOffset {A : Type} (limit offset : Z) (rows : list A)
  : list A :=
  let rest := drop (Z.to_nat offset) rows in
  if limit <? 0 then rest else take (Z.to_nat limit) rest.

(** The [WHERE] clause that [list] assembles. *)
Definition listWhere (options : ApiKeyListOptions.t) (now : Z)
    (r : ApiKeyRow.t) : bool :=
  match ApiKeyListOptions.isActive options with
  | Some isActive => ApiKeyRow.is_active r =? (if isActive then 1 else 0)
  | None => true
  end
  && match ApiKeyListOptions.prefix options with
     | Some EmptyString | None => true
     | Some prefix => bool_decide (ApiKeyRow.prefix r = prefix)
     end
  && (if default false (ApiKeyListOptions.includeExpired options) then true
      else match ApiKeyRow.expires_at r with
           | None => true
           | Some e => now <? e
           end).

Section Listing.

Variable orderByCreatedAtDesc : list ApiKeyRow.t -> list ApiKeyRow.t.

Definition listApiKeys (options : ApiKeyListOptions.t) (now : Z)
    (db : Database) : list ApiKey.t :=
  rowToApiKey
    <$> sqlLimitOffset
          (default 50 (ApiKeyListOptions.limit options))
          (default 0 (ApiKeyListOptions.offset options))
          (orderByCreatedAtDesc
             (List.filter (listWhere options now) (api_keys db))).

End Listing.

(** The options [options] with the given [offset] and [limit]. *)
Definition withPage (options : ApiKeyListOptions.t) (offset limit : Z)
  : ApiKeyListOptions.t :=
  {| ApiKeyListOptions.isActive := ApiKeyListOptions.isActive options;
     ApiKeyListOptions.prefix := ApiKeyListOptions.prefix options;
     ApiKeyListOptions.includeExpired := ApiKeyListOptions.includeExpired options;
     ApiKeyListOptions.offset := Some offset;
     ApiKeyListOptions.limit := Some limit |}.

(** One admissible order: a merge sort on [created_at], latest first. *)
Definition createdNotBefore (r1 r2 : ApiKeyRow.t) : Prop :=
  ApiKeyRow.created_at r2 <= ApiKeyRow.created_at r1.

#[global] Instance createdNotBefore_dec : RelDecision createdNotBefore :=
  fun r1 r2 => decide (ApiKeyRow.created_at r2 <= ApiKeyRow.created_at r1).

Definition latestFirst (rows : list ApiKeyRow.t) : list ApiKeyRow.t :=
  merge_sort createdNotBefore rows.

(** ** Authentication of a request ([src/server/routes.ts])

    The value of the [Authorization] header is a string of 8-bit characters
    or is missing. *)

Record ErrorResponse : Type := {
  status : Z;
  error : string }.

(** [\s] on 8-bit characters: tab, line feed, vertical tab, form feed,
    carriage return, space and no-break space. *)
Definition isWhitespace (c : ascii) : bool :=
  let n := nat_of_ascii c in
  ((9 <=? n) && (n <=? 13))%nat || (n =? 32)%nat || (n =? 160)%nat.

(** The characters that [.] does not match. *)
Definition isLineTerminator (c : ascii) : bool :=
  let n := nat_of_ascii c in
  ((n =? 10) || (n =? 13))%nat.

Definition toLower (c : ascii) : ascii :=
  let n := nat_of_ascii c in
  if ((65 <=? n) && (n <=? 90))%nat then ascii_of_nat (n + 32) else c.

(** The rest of [s] after the literal [p], matched without regard to case. *)
Fixpoint afterLiteral (p s : string) : option string :=
  match p, s with
  | EmptyString, _ => Some s
  | String a p', String b s' =>
      if Ascii.eqb (toLower a) (toLower b) then afterLiteral p' s' else None
  | String _ _, EmptyString => None
  end.

(** The longest run of white space at the start of [s], and what follows. *)
Fixpoint spanWhitespace (s : string) : string * string :=
  match s with
  | String c s' =>
      if isWhitespace c
      then let '(ws, rest) := spanWhitespace s' in (String c ws, rest)
      else (EmptyString, s)
  | EmptyString => (EmptyString, EmptyString)
  end.

Fixpoint allWhitespace (s : string) : bool :=
  match s with
  | String c s' => isWhitespace c && allWhitespace s'
  | EmptyString => true
  end.

Definition startsWithWhitespace (s : string) : bool :=
  match s with
  | String c _ => isWhitespace c
  | EmptyString => false
  end.

Fixpoint hasLineTerminator (s : string) : bool :=
  match s with
  | String c s' => isLineTerminator c || hasLineTerminator s'
  | EmptyString => false
  end.

Fixpoint lastChar (s : string) : option ascii :=
  match s with
  | EmptyString => None
  | String c EmptyString => Some c
  | String _ s' => lastChar s'
  end.

(** The group of [/^(?:Bearer|ApiKey)\s+(.+)$/i]: [\s+] takes the longest
    run of white space that leaves [(.+)] at least one character up to the
    end of the string, none of them a line terminator. *)
Definition captureKey (afterScheme : string) : option string :=
  let '(ws, rest) := spanWhitespace afterScheme in
  match ws, rest with
  | EmptyString, _ => None
  | _, String _ _ => if hasLineTerminator rest then None else Some rest
  | String _ EmptyString, EmptyString => None
  | _, EmptyString =>
      match lastChar ws with
      | Some c =>
          if isLineTerminator c then None else Some (String c EmptyString)
      | None => None
      end
  end.

Definition extractApiKey (auth : option string) : option string :=
  match auth with
  | None | Some EmptyString => None
  | Some auth =>
      match afterLiteral "Bearer" auth with
      | Some afterScheme => captureKey afterScheme
      | None =>
          match afterLiteral "ApiKey" auth with
          | Some afterScheme => captureKey afterScheme
          | None => None
          end
      end
  end.

(** [messages[result.reason ?? 'not_found'] ?? 'Unauthorized'] *)
Definition authMessage (reason : option Reason) : string :=
  match reason with
  | Some not_found | None => "Invalid API key"
  | Some expired => "API key has expired"
  | Some revoked => "API key has been revoked"
  | Some rate_limited => "Rate limit exceeded"
  end.

(** [requireAuth]: [None] when the request may proceed. *)
Definition requireAuth (auth : option string) (clk : ValidateClock)
    (db : Database) : Database * option ErrorResponse :=
  match extractApiKey auth with
  | None | Some EmptyString =>
      (db, Some {| status := 401;
                   error := "Missing API key in Authorization header" |})
  | Some key =>
      let '(db', result) := validate key noOptions clk db in
      if negb (ApiKeyValidationResult.valid result)
      then
        let status :=
          match ApiKeyValidationResult.reason result with
          | Some rate_limited => 429
          | _ => 401
          end in
        (db', Some {| status := status;
                      error := authMessage (ApiKeyValidationResult.reason result) |})
      else (db', None)
  end.

(** ** [PATCH /v1/keys/:id]

    The body as its type declares it; [metadata] holds the JSON text. *)

Module PatchBody.
Record t : Type := mk {
  name : option string;
  scopes : option (list string);
  metadata : option string }.
End PatchBody.

(** The [key] object of the answer. *)
Module PatchedKey.
Record t : Type := mk {
  id : string;
  name : option string;
  scopes : list string;
  metadata : string }.
End PatchedKey.

Definition patchedKeyOf (k : ApiKey.t) : PatchedKey.t :=
  {| PatchedKey.id := ApiKey.id k;
     PatchedKey.name := ApiKey.name k;
     PatchedKey.scopes := ApiKey.scopes k;
     PatchedKey.metadata := ApiKey.metadata k |}.

Definition errorResponse (message : string) : ErrorResponse :=
  {| status := 400; error := message |}.

(** The handler up to [await parseBody(req)]: [Some] is the answer 404. *)
Definition patchKeyLookup (keyId : string) (db : Database)
  : option ErrorResponse :=
  match getById keyId db with
  | None => Some {| status := 404; error := "API key not found" |}
  | Some _ => None
  end.

(** The handler after [await parseBody(req)], which gave [body] ([None] for
    [null]); [inr] is the answer 200. *)
Definition patchKeyApply (keyId : string) (body : option PatchBody.t)
    (db : Database) : Database * (ErrorResponse + option PatchedKey.t) :=
  match body with
  | None => (db, inl (errorResponse "Invalid request body"))
  | Some body =>
      let updated := false in
      let '(db, updated) :=
        match PatchBody.name body with
        | Some name =>
            let '(db', ok) := rename keyId name db in (db', ok || updated)
        | None => (db, updated)
        end in
      let '(db, updated) :=
        match PatchBody.scopes body with
        | Some scopes =>
            let '(db', ok) := updateScopes keyId scopes db in (db', ok || updated)
        | None => (db, updated)
        end in
      let '(db, updated) :=
        match PatchBody.metadata body with
        | Some metadata =>
            let '(db', ok) := updateMetadata keyId metadata db in
            (db', ok || updated)
        | None => (db, updated)
        end in
      if negb updated
      then (db, inl (errorResponse "No fields to update"))
      else (db, inr (patchedKeyOf <$> getById keyId db))
  end.

(** The handler when nothing else runs during its [await]. *)
Definition patchKey (keyId : string) (body : option PatchBody.t)
    (db : Database) : Database * (ErrorResponse + option PatchedKey.t) :=
  match patchKeyLookup keyId db with
  | Some notFound => (db, inl notFound)
  | None => patchKeyApply keyId body db
  end.

Definition patchRowWith (body : PatchBody.t) (r : ApiKeyRow.t) : ApiKeyRow.t :=
  let r := match PatchBody.name body with Some n => setName n r | None => r end in
  let r := match PatchBody.scopes body with Some s => setScopes s r | None => r end in
  match PatchBody.metadata body with Some m => setMetadata m r | None => r end.

Definition hasFields (body : PatchBody.t) : bool :=
  match PatchBody.name body, PatchBody.scopes body, PatchBody.metadata body with
  | None, None, None => false
  | _, _, _ => true
  end.

(** ** The side tables: rues, shared secrets and apps

    Each table has a text primary key and is a finite map from it.
    [new Date(ms).toISOString()] is a parameter. *)

Module Rues.
Record t : Type := mk {
  app_id : string;
  public_key : string;
  created_at : string }.
End Rues.

Module SharedSecret.
Record t : Type := mk {
  private_key : string;
  public_key : string;
  created_at : string }.
End SharedSecret.

Module App.
Record t : Type := mk {
  app_id : string;
  name : string;
  public_key : string;
  private_key : string;
  created_at : string }.
End App.

(** [AppInput], and [Partial<AppInput>] with [name], [public_key] and
    [private_key] absent as [None]. *)
Module AppInput.
Record t : Type := mk {
  app_id : option string;
  name : string;
  public_key : string;
  private_key : string }.
End AppInput.

Module PartialAppInput.
Record t : Type := mk {
  app_id : option string;
  name : option string;
  public_key : option string;
  private_key : option string }.
End PartialAppInput.

(** A row of [apps] without its key. *)
Module AppRow.
Record t : Type := mk {
  name : string;
  public_key : string;
  private_key : string;
  created_at : Z }.
End AppRow.

Section SideTables.

Variable toISOString : Z -> string.

(** [INSERT ... ON CONFLICT (app_id) DO UPDATE SET public_key = ?,
    created_at = ?] *)
Definition createRues (appId publicKey : string) (now : Z)
    (rues : gmap string (string * Z)) : gmap string (string * Z) * Rues.t :=
  (<[appId := (publicKey, now)]> rues,
   {| Rues.app_id := appId;
      Rues.public_key := publicKey;
      Rues.created_at := toISOString now |}).

Definition getRues (appId : string) (rues : gmap string (string * Z))
  : option Rues.t :=
  match rues !! appId with
  | None => None
  | Some (publicKey, createdAt) =>
      Some {| Rues.app_id := appId;
              Rues.public_key := publicKey;
              Rues.created_at := toISOString createdAt |}
  end.

Definition deleteRues (appId : string) (rues : gmap string (string * Z))
  : gmap string (string * Z) * bool :=
  (base.delete appId rues, bool_decide (is_Some (rues !! appId))).

Definition createSharedSecret (privateKey publicKey : string) (now : Z)
    (secrets : gmap string (string * Z))
  : gmap string (string * Z) * SharedSecret.t :=
  (<[privateKey := (publicKey, now)]> secrets,
   {| SharedSecret.private_key := privateKey;
      SharedSecret.public_key := publicKey;
      SharedSecret.created_at := toISOString now |}).

Definition getSharedSecret (privateKey : string)
    (secrets : gmap string (string * Z)) : option SharedSecret.t :=
  match secrets !! privateKey with
  | None => None
  | Some (publicKey, createdAt) =>
      Some {| SharedSecret.private_key := privateKey;
              SharedSecret.public_key := publicKey;
              SharedSecret.created_at := toISOString createdAt |}
  end.

Definition deleteSharedSecret (privateKey : string)
    (secrets : gmap string (string * Z)) : gmap string (string * Z) * bool :=
  (base.delete privateKey secrets, bool_decide (is_Some (secrets !! privateKey))).

Definition appOfRow (appId : string) (row : AppRow.t) : App.t :=
  {| App.app_id := appId;
     App.name := AppRow.name row;
     App.public_key := AppRow.public_key row;
     App.private_key := AppRow.private_key row;
     App.created_at := toISOString (AppRow.created_at row) |}.

(** [createApp]: a plain [INSERT], which throws when the [app_id] is taken.
    [uuid] is the value of [crypto.randomUUID()]. *)
Definition createApp (input : AppInput.t) (now : Z) (uuid : string)
    (apps : gmap string AppRow.t) : gmap string AppRow.t * result App.t :=
  let appId := default uuid (AppInput.app_id input) in
  let row :=
    {| AppRow.name := AppInput.name input;
       AppRow.public_key := AppInput.public_key input;
       AppRow.private_key := AppInput.private_key input;
       AppRow.created_at := now |} in
  match apps !! appId with
  | Some _ => (apps, Err ConstraintError)
  | None => (<[appId := row]> apps, Ok (appOfRow appId row))
  end.

Definition getApp (appId : string) (apps : gmap string AppRow.t)
  : option App.t :=
  appOfRow appId <$> apps !! appId.

Definition patchRow (input : PartialAppInput.t) (row : AppRow.t) : AppRow.t :=
  {| AppRow.name := default (AppRow.name row) (PartialAppInput.name input);
     AppRow.public_key :=
       default (AppRow.public_key row) (PartialAppInput.public_key input);
     AppRow.private_key :=
       default (AppRow.private_key row) (PartialAppInput.private_key input);
     AppRow.created_at := AppRow.created_at row |}.

Definition updateApp (appId : string) (input : PartialAppInput.t)
    (apps : gmap string AppRow.t) : gmap string AppRow.t * option App.t :=
  match getApp appId apps with
  | None => (apps, None)
  | Some existing =>
      match PartialAppInput.name input, PartialAppInput.public_key input,
            PartialAppInput.private_key input with
      | None, None, None => (apps, Some existing)
      | _, _, _ =>
          let apps' := alter (patchRow input) appId apps in
          (apps', getApp appId apps')
      end
  end.

Definition deleteApp (appId : string) (apps : gmap string AppRow.t)
  : gmap string AppRow.t * bool :=
  (base.delete appId apps, bool_decide (is_Some (apps !! appId))).

End SideTables.

(** ** Sequences of operations on the key store *)

Inductive Op : Type :=
  | OpCreate (config : ApiKeyConfig.t) (env : CreateEnv)
  | OpValidate (key : string) (options : ValidateOptions.t) (clk : ValidateClock)
  | OpRevoke (keyId : string)
  | OpDelete (keyId : string)
  | OpRename (keyId name : string)
  | OpUpdateMetadata (keyId metadata : string)
  | OpUpdateScopes (keyId : string) (scopes : list string).

(** The store after one operation. *)
Definition applyOp (cascade : bool) (db : Database) (op : Op) : Database :=
  match op with
  | OpCreate config env => fst (create config env db)
  | OpValidate key options clk => fst (validate key options clk db)
  | OpRevoke keyId => fst (revoke keyId db)
  | OpDelete keyId => fst (deleteApiKey cascade keyId db)
  | OpRename keyId name => fst (rename keyId name db)
  | OpUpdateMetadata keyId metadata => fst (updateMetadata keyId metadata db)
  | OpUpdateScopes keyId scopes => fst (updateScopes keyId scopes db)
  end.

Definition applyOps (cascade : bool) (ops : list Op) (db : Database) : Database :=
  fold_left (applyOp cascade) ops db.

Definition deletes (keyId : string) (op : Op) : Prop :=
  match op with
  | OpDelete keyId' => keyId' = keyId
  | _ => False
  end.

(** The columns that no operation rewrites. *)
Definition sameIdentity (r r' : ApiKeyRow.t) : Prop :=
  ApiKeyRow.id r' = ApiKeyRow.id r
  /\ ApiKeyRow.key_hash r' = ApiKeyRow.key_hash r
  /\ ApiKeyRow.prefix r' = ApiKeyRow.prefix r
  /\ ApiKeyRow.suffix r' = ApiKeyRow.suffix r
  /\ ApiKeyRow.created_at r' = ApiKeyRow.created_at r
  /\ ApiKeyRow.expires_at r' = ApiKeyRow.expires_at r
  /\ ApiKeyRow.rate_limit r' = ApiKeyRow.rate_limit r.

(** The constraints of [api_keys]: no two rows share an [id] or a
    [key_hash]. *)
Definition keys_unique (db : Database) : Prop :=
  NoDup (ApiKeyRow.id <$> api_keys db)
  /\ NoDup (ApiKeyRow.key_hash <$> api_keys db).

(** The counters that a call at [now] can find: their windows start on a
    minute and not after the current one. *)
Definition windows_ok (now : Z) (rl : gmap (string * Z) Z) : Prop :=
  forall keyId w c, rl !! (keyId, w) = Some c ->
    w mod 60000 = 0 /\ w <= windowStartOf now.

Definition isHexDigit (c : ascii) : bool :=
  let n := nat_of_ascii c in
  (((48 <=? n) && (n <=? 57)) || ((97 <=? n) && (n <=? 102)))%nat.

(** ** More sample data *)

Module Fixture.

(** A store whose only counter belongs to the minute that starts at 0. *)
Definition staleCounter : Database :=
  {| api_keys := []; rate_limit_records := {[ ("a", 0) := 2 ]} |}.

(** [{ isActive: true }] *)
Definition activeOnly : ApiKeyListOptions.t :=
  ApiKeyListOptions.mk (Some true) None None None None.

(** [{ name: 'renamed' }] *)
Definition renameOnly : PatchBody.t :=
  PatchBody.mk (Some "renamed") None None.

Definition keyC : ApiKeyRow.t := Sample.row "c" (hashKey "rapids_c") 0 None.

Definition keyA : ApiKeyRow.t := Sample.row "a" (hashKey "rapids_a") 1 None.

Definition busyDay : list Op :=
  [ OpRevoke "a";
    OpDelete "b";
    OpCreate noConfig Sample.env;
    OpRename "c" "renamed";
    OpValidate "rapids_c" noOptions (clockAt 5000) ].

End Fixture.

(** ** Proof support *)

(** The digest is never unfolded by simplification. *)
Arguments hashKey : simpl never.

(** Case analysis on the integer comparisons of the goal. *)
Ltac leb_lia :=
  repeat match goal with
    | |- context [?a <=? ?b] => destruct (Z.leb_spec a b)
    | |- context [?a <? ?b] => destruct (Z.ltb_spec a b)
    | |- context [?a =? ?b] => destruct (Z.eqb_spec a b)
    end; first [done | lia].

(** * Properties *)

(** ** Strings *)

Lemma append_cons (c : ascii) (s t : string) :
  String c s +:+ t = String c (s +:+ t).
Proof. reflexivity. Qed.

Lemma append_empty_r (s : string) : s +:+ EmptyString = s.
Proof. induction s as [|c s IH]; [done|]. by rewrite append_cons, IH. Qed.

Lemma length_append (s1 s2 : string) :
  String.length (s1 +:+ s2) = (String.length s1 + String.length s2)%nat.
Proof.
  induction s1 as [|c s1 IH]; [done|]. rewrite append_cons. simpl. by rewrite IH.
Qed.

Lemma get_in_range (s : string) (n : nat) :
  (n < String.length s)%nat -> exists c, String.get n s = Some c.
Proof.
  revert n. induction s as [|c s IH]; intros n Hn; simpl in *; [lia|].
  destruct n as [|n]; [eauto|]. apply IH. lia.
Qed.



(** ** Rate-limit table *)

Lemma purgeBefore_lookup (threshold : Z) (rl : gmap (string * Z) Z)
    (keyId : string) (w : Z) :
  purgeBefore threshold rl !! (keyId, w)
  = if decide (w < threshold) then None else rl !! (keyId, w).
Proof.
  unfold purgeBefore. rewrite map_lookup_filter.
  destruct (rl !! (keyId, w)) as [c|] eqn:E; simpl.
  - case_decide; simpl.
    + rewrite option_guard_False; [done | simpl; lia].
    + rewrite option_guard_True; [done | simpl; lia].
  - by case_decide.
Qed.

Lemma purgeBefore_current (now : Z) (rl : gmap (string * Z) Z) (keyId : string) :
  purgeBefore (windowStartOf now - 60000) rl !! (keyId, windowStartOf now)
  = rl !! (keyId, windowStartOf now).
Proof. rewrite purgeBefore_lookup. case_decide; [lia | done]. Qed.

Lemma upsertIncrement_lookup (keyId : string) (w : Z) (rl : gmap (string * Z) Z) :
  upsertIncrement keyId w rl !! (keyId, w)
  = Some (match rl !! (keyId, w) with Some c => c + 1 | None => 1 end).
Proof.
  unfold upsertIncrement. destruct (rl !! (keyId, w)); by rewrite lookup_insert_eq.
Qed.

Lemma upsertIncrement_lookup_ne (keyId : string) (w : Z) (k' : string * Z)
    (rl : gmap (string * Z) Z) :
  k' ≠ (keyId, w) -> upsertIncrement keyId w rl !! k' = rl !! k'.
Proof.
  intros Hne. unfold upsertIncrement.
  destruct (rl !! (keyId, w)); by rewrite lookup_insert_ne.
Qed.

(** What one call of [checkRateLimit] answers and leaves in the counter of
    its own window. *)
Lemma checkRateLimit_counter (keyId : string) (limit now : Z) (db : Database) :
  let w := windowStartOf now in
  let before := rate_limit_records db !! (keyId, w) in
  snd (checkRateLimit keyId limit now db) = overLimit before limit
  /\ rate_limit_records (fst (checkRateLimit keyId limit now db)) !! (keyId, w)
     = (if overLimit before limit then before
        else Some (match before with Some c => c + 1 | None => 1 end))
  /\ api_keys (fst (checkRateLimit keyId limit now db)) = api_keys db.
Proof.
  simpl. unfold checkRateLimit, selectCount.
  rewrite purgeBefore_current.
  destruct (overLimit _ limit) eqn:E; simpl.
  - by rewrite purgeBefore_current.
  - by rewrite upsertIncrement_lookup, purgeBefore_current.
Qed.

(** Successive calls in one window, starting from a counter that holds [c]. *)
Lemma checkRateLimitAll_from (keyId : string) (N w : Z) (nows : list Z) :
  Forall (fun t => windowStartOf t = w) nows ->
  forall (db : Database) (c : Z),
    rate_limit_records db !! (keyId, w) = Some c ->
    1 <= c <= N ->
    snd (checkRateLimitAll keyId N nows db)
    = (fun i => N <=? c + Z.of_nat i) <$> seq 0 (length nows)
    /\ rate_limit_records (fst (checkRateLimitAll keyId N nows db)) !! (keyId, w)
       = Some (Z.min (c + Z.of_nat (length nows)) N).
Proof.
  induction 1 as [|t nows Ht _ IH]; intros db c Hc Hcn.
  - simpl. split; [done|]. rewrite Hc. f_equal. lia.
  - cbn [checkRateLimitAll].
    destruct (checkRateLimit_counter keyId N t db) as (Hans & Hcnt & _).
    rewrite Ht, Hc in Hans, Hcnt.
    destruct (checkRateLimit keyId N t db) as [db1 b]. simpl in Hans, Hcnt.
    destruct (checkRateLimitAll keyId N nows db1) as [db2 bs] eqn:Eall.
    simpl. rewrite <- fmap_S_seq, <- list_fmap_compose.
    destruct (N <=? c) eqn:Ecmp.
    + assert (c = N) as -> by lia.
      destruct (IH db1 N Hcnt ltac:(lia)) as [IHa IHc].
      rewrite Eall in IHa, IHc. simpl in IHa, IHc.
      split.
      * rewrite Hans, IHa. f_equal; [leb_lia|].
        apply list_fmap_ext. intros i x _. simpl. leb_lia.
      * rewrite IHc. f_equal. lia.
    + destruct (IH db1 (c + 1) Hcnt ltac:(lia)) as [IHa IHc].
      rewrite Eall in IHa, IHc. simpl in IHa, IHc.
      split.
      * rewrite Hans, IHa. f_equal; [leb_lia|].
        apply list_fmap_ext. intros i x _. simpl. leb_lia.
      * rewrite IHc. f_equal. lia.
Qed.

(** C2. For a positive limit [N] and calls that all fall in the window that
    starts at [w], with no counter yet for [(keyId, w)]: the call number [i]
    (counting from 0) is permitted exactly when [i < N]; after [k] calls the
    counter holds [min k N] (it is created with 1 by the first call, grows by
    one on each permitted call and is left alone by a rejected one), so it
    never exceeds [N]. *)
Theorem checkRateLimit_window (keyId : string) (N w : Z) (nows : list Z)
    (db : Database) :
  0 < N ->
  Forall (fun t => windowStartOf t = w) nows ->
  rate_limit_records db !! (keyId, w) = None ->
  forall k : nat, (k <= length nows)%nat ->
    snd (checkRateLimitAll keyId N (take k nows) db)
    = (fun i => N <=? Z.of_nat i) <$> seq 0 k
    /\ rate_limit_records (fst (checkRateLimitAll keyId N (take k nows) db))
         !! (keyId, w)
       = (if k is O then None else Some (Z.min (Z.of_nat k) N))
    /\ (forall c, rate_limit_records (fst (checkRateLimitAll keyId N (take k nows) db))
                    !! (keyId, w) = Some c -> c <= N).
Proof.
  intros HN Hw Hnone k Hk.
  assert (Forall (fun t => windowStartOf t = w) (take k nows)) as Hw'
    by (by apply Forall_take).
  assert (length (take k nows) = k) as Hlen by (rewrite length_take; lia).
  revert Hw' Hlen. generalize (take k nows) as l. clear Hk Hw nows.
  intros l Hw Hlen.
  assert (snd (checkRateLimitAll keyId N l db)
          = (fun i => N <=? Z.of_nat i) <$> seq 0 k
          /\ rate_limit_records (fst (checkRateLimitAll keyId N l db)) !! (keyId, w)
             = (if k is O then None else Some (Z.min (Z.of_nat k) N))) as [H1 H2].
  { destruct l as [|t l]; simpl in Hlen; subst k.
    - simpl. done.
    - apply Forall_cons in Hw as [Ht Hw].
      cbn [checkRateLimitAll].
      destruct (checkRateLimit_counter keyId N t db) as (Hans & Hcnt & _).
      rewrite Ht, Hnone in Hans, Hcnt. simpl in Hans, Hcnt.
      destruct (checkRateLimit keyId N t db) as [db1 b]. simpl in Hans, Hcnt.
      destruct (checkRateLimitAll_from keyId N w l Hw db1 1 Hcnt ltac:(lia))
        as [IHa IHc].
      destruct (checkRateLimitAll keyId N l db1) as [db2 bs]. simpl in *.
      rewrite <- fmap_S_seq, <- list_fmap_compose.
      split.
      + rewrite Hans, IHa. f_equal; [leb_lia|].
        apply list_fmap_ext. intros i x _. simpl. leb_lia.
      + rewrite IHc. f_equal. lia. }
  split; [done|]. split; [done|].
  intros c Hc. rewrite H2 in Hc. destruct k; [done|]. inversion Hc. lia.
Qed.

(** ** Row updates *)

Lemma find_fmap_key {A B : Type} (p : A -> bool) (q : B -> bool) (g : B -> A)
    (l : list B) :
  (forall x, p (g x) = q x) ->
  List.find p (g <$> l) = g <$> List.find q l.
Proof.
  intros Hpq. induction l as [|x l IH]; [done|].
  simpl. rewrite Hpq. destruct (q x); [done | exact IH].
Qed.

Lemma find_Some_elem {A : Type} (p : A -> bool) (l : list A) (x : A) :
  List.find p l = Some x -> x ∈ l /\ p x = true.
Proof.
  intros H. apply List.find_some in H as [Hin Hp].
  split; [by apply list_elem_of_In | done].
Qed.

Lemma find_None_elem {A : Type} (p : A -> bool) (l : list A) :
  List.find p l = None <-> forall x, x ∈ l -> p x = false.
Proof.
  split.
  - intros H x Hx. apply list_elem_of_In in Hx.
    exact (List.find_none p l H x Hx).
  - intros H. induction l as [|y l IH]; [done|].
    simpl. rewrite (H y) by left. apply IH. intros x Hx. apply H. by right.
Qed.

Lemma filter_length_pos {A : Type} (p : A -> bool) (l : list A) :
  0 < Z.of_nat (List.length (List.filter p l))
  <-> exists x, x ∈ l /\ p x = true.
Proof.
  split.
  - destruct (List.filter p l) as [|x l'] eqn:E; [simpl; lia|].
    intros _. exists x.
    assert (List.In x (List.filter p l)) as Hin by (rewrite E; by left).
    apply List.filter_In in Hin as [Hin Hp].
    split; [by apply list_elem_of_In | done].
  - intros (x & Hx & Hp).
    assert (List.In x (List.filter p l)) as Hin.
    { apply List.filter_In. split; [by apply list_elem_of_In | done]. }
    destruct (List.filter p l); [destruct Hin | simpl; lia].
Qed.

Lemma updateWhereId_lookup (keyId : string) (f : ApiKeyRow.t -> ApiKeyRow.t)
    (db : Database) (i : nat) :
  api_keys (fst (updateWhereId keyId f db)) !! i
  = (fun r => if bool_decide (ApiKeyRow.id r = keyId) then f r else r)
      <$> api_keys db !! i.
Proof. unfold updateWhereId. simpl. apply list_lookup_fmap. Qed.

(** C7. [revoke id] answers [true] exactly when a row with that [id] exists,
    whatever its [is_active] was; afterwards every row with that [id] has
    [is_active = 0], the other rows and the rate-limit table are unchanged,
    and revoking again gives the same answer. *)
Theorem revoke_true_iff_exists (keyId : string) (db : Database) :
  (snd (revoke keyId db) = true
   <-> exists r, r ∈ api_keys db /\ ApiKeyRow.id r = keyId)
  /\ (forall r, r ∈ api_keys (fst (revoke keyId db)) ->
        ApiKeyRow.id r = keyId -> ApiKeyRow.is_active r = 0)
  /\ (forall i r, api_keys db !! i = Some r ->
        exists r', api_keys (fst (revoke keyId db)) !! i = Some r'
                   /\ ApiKeyRow.id r' = ApiKeyRow.id r
                   /\ (ApiKeyRow.id r <> keyId -> r' = r))
  /\ rate_limit_records (fst (revoke keyId db)) = rate_limit_records db
  /\ snd (revoke keyId (fst (revoke keyId db))) = snd (revoke keyId db).
Proof.
  assert (forall d, snd (revoke keyId d) = true
                    <-> exists r, r ∈ api_keys d /\ ApiKeyRow.id r = keyId) as Hiff.
  { intros d. unfold revoke, updateWhereId. simpl.
    rewrite Z.ltb_lt, filter_length_pos.
    split; intros (r & Hr & Hid); exists r; split; try done.
    - by apply bool_decide_eq_true in Hid.
    - by apply bool_decide_eq_true. }
  assert (forall i r, api_keys db !! i = Some r ->
            exists r', api_keys (fst (revoke keyId db)) !! i = Some r'
                       /\ ApiKeyRow.id r' = ApiKeyRow.id r
                       /\ (ApiKeyRow.id r <> keyId -> r' = r)) as Hrows.
  { intros i r Hi. unfold revoke.
    pose proof (updateWhereId_lookup keyId setInactive db i) as Hl.
    destruct (updateWhereId keyId setInactive db) as [db' n]. simpl in *.
    rewrite Hl, Hi. simpl. eexists. split; [done|].
    case_bool_decide; simpl; split; try done. }
  repeat split.
  - apply Hiff.
  - apply Hiff.
  - intros r Hr Hid. unfold revoke, updateWhereId in Hr. simpl in Hr.
    apply list_elem_of_fmap in Hr as (r0 & -> & _).
    case_bool_decide as Hd; [done|]. by destruct Hd.
  - exact Hrows.
  - apply eq_true_iff_eq. rewrite !Hiff. split.
    + intros (r' & Hr' & Hid). unfold revoke, updateWhereId in Hr'. simpl in Hr'.
      apply list_elem_of_fmap in Hr' as (r0 & -> & Hr0).
      exists r0. split; [done|]. by case_bool_decide.
    + intros (r & Hr & Hid). apply list_elem_of_lookup in Hr as [i Hi].
      destruct (Hrows i r Hi) as (r' & Hi' & Hid' & _).
      exists r'. split; [by eapply list_elem_of_lookup_2 | congruence].
Qed.

(** ** [create] *)

Lemma existsb_false_fresh (keyId keyHash : string) (db : Database) :
  existsb
    (fun r => bool_decide (ApiKeyRow.id r = keyId)
              || bool_decide (ApiKeyRow.key_hash r = keyHash)) (api_keys db)
  = false <-> fresh keyId keyHash db.
Proof.
  unfold fresh. split.
  - intros H r Hr.
    assert (bool_decide (ApiKeyRow.id r = keyId)
            || bool_decide (ApiKeyRow.key_hash r = keyHash) = false) as Hf.
    { destruct (_ || _) eqn:E; [|done].
      rewrite <- H. symmetry. apply List.existsb_exists.
      exists r. split; [by apply list_elem_of_In | done]. }
    apply orb_false_iff in Hf as [H1 H2].
    apply bool_decide_eq_false in H1, H2. done.
  - intros H. destruct (existsb _ _) eqn:E; [|done].
    apply List.existsb_exists in E as (r & Hr & Hd).
    apply list_elem_of_In in Hr. destruct (H r Hr) as [H1 H2].
    apply orb_true_iff in Hd as [Hd|Hd]; by apply bool_decide_eq_true in Hd.
Qed.

(** A successful [create]: what it returns and what it writes. *)
Lemma create_Ok_inv (config : ApiKeyConfig.t) (env : CreateEnv)
    (db db' : Database) (res : ApiKeyCreateResult.t) :
  create config env db = (db', Ok res) ->
  let m := mergeConfig config in
  exists row,
    rawKeyOf config env = Ok (ApiKeyCreateResult.key res)
    /\ 0 <= MergedConfig.length m
    /\ fresh (env_uuid env) (hashKey (ApiKeyCreateResult.key res)) db
    /\ api_keys db' = api_keys db ++ [row]
    /\ rate_limit_records db' = rate_limit_records db
    /\ ApiKeyCreateResult.record res = rowToApiKey row
    /\ row = {| ApiKeyRow.id := env_uuid env;
                ApiKeyRow.key_hash := hashKey (ApiKeyCreateResult.key res);
                ApiKeyRow.prefix := MergedConfig.prefix m;
                ApiKeyRow.suffix := slice_last4 (ApiKeyCreateResult.key res);
                ApiKeyRow.name := MergedConfig.name m;
                ApiKeyRow.created_at := env_now env;
                ApiKeyRow.expires_at :=
                  if truthy (MergedConfig.expiresIn m)
                  then (fun e => env_now env + e * 1000) <$> MergedConfig.expiresIn m
                  else None;
                ApiKeyRow.last_used_at := None;
                ApiKeyRow.is_active := 1;
                ApiKeyRow.metadata := MergedConfig.metadata m;
                ApiKeyRow.scopes := MergedConfig.scopes m;
                ApiKeyRow.rate_limit := MergedConfig.rateLimit m |}.
Proof.
  unfold create, rawKeyOf, bind, lift, ret, generateRandomString.
  destruct (MergedConfig.length (mergeConfig config) <? 0) eqn:Elen; [done|].
  apply Z.ltb_ge in Elen. cbv beta iota zeta.
  unfold insertApiKey. cbn [ApiKeyRow.id ApiKeyRow.key_hash].
  destruct (existsb _ (api_keys db)) eqn:Edup; [done|].
  apply existsb_false_fresh in Edup.
  intros [= <- <-]. simpl. eexists. repeat split; try done; by apply Edup.
Qed.


(** C10. Whenever [create] succeeds it appends one row, created at the
    instant read from the clock: with [expiresIn = 0] (as with an absent or
    [null] one) the row's [expires_at] is [NULL]; with any other [expiresIn]
    it is the creation instant plus [expiresIn] seconds, in milliseconds. *)
Theorem create_expiresIn_zero_never_expires (config : ApiKeyConfig.t)
    (env : CreateEnv) (db db' : Database) (res : ApiKeyCreateResult.t) :
  create config env db = (db', Ok res) ->
  exists row,
    api_keys db' = api_keys db ++ [row]
    /\ ApiKeyRow.id row = ApiKey.id (ApiKeyCreateResult.record res)
    /\ ApiKeyRow.created_at row = env_now env
    /\ (ApiKeyConfig.expiresIn config = Some 0 ->
        ApiKeyRow.expires_at row = None
        /\ ApiKey.expiresAt (ApiKeyCreateResult.record res) = None)
    /\ (ApiKeyConfig.expiresIn config = None -> ApiKeyRow.expires_at row = None)
    /\ (forall e, ApiKeyConfig.expiresIn config = Some e -> e <> 0 ->
        ApiKeyRow.expires_at row = Some (ApiKeyRow.created_at row + e * 1000)).
Proof.
  intros Hc. destruct (create_Ok_inv _ _ _ _ _ Hc)
    as (row & _ & _ & _ & Hrows & _ & Hrec & Hrow).
  exists row. split; [done|]. rewrite Hrec. subst row. simpl.
  split; [done|]. split; [done|].
  destruct (ApiKeyConfig.expiresIn config) as [e|]; simpl.
  - split; [by intros [= ->]|]. split; [done|].
    intros e' [= <-] Hne. by destruct (Z.eqb_spec e 0).
  - done.
Qed.

(** ** [validate] *)

Lemma selectByHash_None (keyHash : string) (db : Database) :
  selectByHash keyHash db = None
  <-> forall r, r ∈ api_keys db -> ApiKeyRow.key_hash r <> keyHash.
Proof.
  unfold selectByHash. rewrite find_None_elem.
  split; intros H r Hr; specialize (H r Hr).
  - by apply bool_decide_eq_false in H.
  - by apply bool_decide_eq_false.
Qed.

Lemma selectByHash_Some (keyHash : string) (db : Database) (row : ApiKeyRow.t) :
  selectByHash keyHash db = Some row ->
  row ∈ api_keys db /\ ApiKeyRow.key_hash row = keyHash.
Proof.
  intros H. apply find_Some_elem in H as [Hin Hp].
  split; [done | by apply bool_decide_eq_true in Hp].
Qed.

(** The expiration check of [validate], read on the row. *)
Lemma isExpired_row (row : ApiKeyRow.t) (now : Z) :
  isExpired (rowToApiKey row) now = true
  <-> exists e, ApiKeyRow.expires_at row = Some e /\ e <> 0 /\ e < now.
Proof.
  unfold isExpired, rowToApiKey, truthy. simpl.
  destruct (ApiKeyRow.expires_at row) as [e|]; simpl.
  - destruct (Z.eqb_spec e 0); simpl.
    + split; [done|]. intros (e' & [= <-] & Hne & _). done.
    + rewrite Z.ltb_lt. split; [eauto|]. by intros (e' & [= <-] & _ & Hlt).
  - split; [done|]. by intros (e' & Hn & _).
Qed.

Lemma validate_found (key : string) (options : ValidateOptions.t)
    (clk : ValidateClock) (db : Database) (row : ApiKeyRow.t) :
  selectByHash (hashKey key) db = Some row ->
  let res := snd (validate key options clk db) in
  let k := rowToApiKey row in
  let expiredNow := isExpired k (clk_expiry clk) in
  let limitedNow := rateLimited row options (clk_rate clk) db in
  (ApiKeyRow.is_active row <> 1 -> res = invalid revoked (Some k))
  /\ (ApiKeyRow.is_active row = 1 -> expiredNow = true ->
      res = invalid expired (Some k))
  /\ (ApiKeyRow.is_active row = 1 -> expiredNow = false ->
      limitedNow = true -> res = invalid rate_limited (Some k))
  /\ (ApiKeyRow.is_active row = 1 -> expiredNow = false ->
      limitedNow = false ->
      res = success (if default true (ValidateOptions.updateLastUsed options)
                     then withLastUsedAt (clk_stamp clk) k else k)).
Proof.
  unfold validate, validateHashed. intros ->. cbv zeta.
  assert (ApiKey.isActive (rowToApiKey row) = bool_decide (ApiKeyRow.is_active row = 1))
    as -> by (simpl; by destruct (Z.eqb_spec (ApiKeyRow.is_active row) 1);
              [rewrite bool_decide_eq_true_2 | rewrite bool_decide_eq_false_2]).
  unfold rateLimited.
  pose proof (checkRateLimit_counter (ApiKeyRow.id row)
                (default 0 (ApiKeyRow.rate_limit row)) (clk_rate clk) db)
    as (Hans & _). simpl in Hans.
  change (ApiKey.id (rowToApiKey row)) with (ApiKeyRow.id row).
  change (ApiKey.rateLimit (rowToApiKey row)) with (ApiKeyRow.rate_limit row).
  destruct (checkRateLimit _ _ _ db) as [db1 b]. simpl in Hans. subst b.
  case_bool_decide as Hact; simpl.
  - split; [done|].
    destruct (isExpired (rowToApiKey row) (clk_expiry clk)).
    { split; [done|]. split; [done|]. done. }
    split; [done|].
    destruct (default true (ValidateOptions.checkRateLimit options)
              && truthy (ApiKeyRow.rate_limit row)) eqn:Eon; simpl.
    + destruct (overLimit _ _); simpl.
      { split; [done|]. done. }
      split; [done|]. intros _ _ _.
      by destruct (default true (ValidateOptions.updateLastUsed options)).
    + split; [done|]. intros _ _ _.
      by destruct (default true (ValidateOptions.updateLastUsed options)).
  - split; [done|]. repeat split; done.
Qed.


(** ** [create] followed by [validate] *)



(** ** The [is_active] flags *)

Lemma flags_ok_updateWhereId (keyId : string) (f : ApiKeyRow.t -> ApiKeyRow.t)
    (db : Database) :
  (forall r, ApiKeyRow.is_active r = 0 \/ ApiKeyRow.is_active r = 1 ->
             ApiKeyRow.is_active (f r) = 0 \/ ApiKeyRow.is_active (f r) = 1) ->
  flags_ok db -> flags_ok (fst (updateWhereId keyId f db)).
Proof.
  intros Hf Hdb. unfold flags_ok, updateWhereId in *. simpl.
  apply Forall_fmap. eapply Forall_impl; [exact Hdb|].
  intros r Hr. simpl. case_bool_decide; [by apply Hf | done].
Qed.

Lemma flags_ok_checkRateLimit (keyId : string) (limit now : Z) (db : Database) :
  flags_ok db -> flags_ok (fst (checkRateLimit keyId limit now db)).
Proof. intros Hdb. unfold checkRateLimit. by destruct (overLimit _ _). Qed.

(** The flags stay 0 or 1 under [create], [revoke] and [validate]. *)
Lemma flags_ok_preserved (db : Database) :
  flags_ok db ->
  (forall config env, flags_ok (fst (create config env db)))
  /\ (forall keyId, flags_ok (fst (revoke keyId db)))
  /\ (forall key options clk, flags_ok (fst (validate key options clk db))).
Proof.
  intros Hdb. split; [|split].
  - intros config env. unfold create, bind, lift, ret, generateRandomString.
    destruct (_ <? 0); [done|]. cbv beta iota zeta. unfold insertApiKey.
    destruct (existsb _ _); [done|]. simpl.
    unfold flags_ok. simpl. apply Forall_app. split; [done|].
    apply Forall_cons_2; [by right | apply Forall_nil_2].
  - intros keyId. unfold revoke.
    pose proof (flags_ok_updateWhereId keyId setInactive db) as H.
    destruct (updateWhereId keyId setInactive db). simpl in *.
    apply H; [|done]. intros r _. by left.
  - intros key options clk. unfold validate, validateHashed.
    destruct (selectByHash _ _) as [row|]; [|done].
    destruct (negb _); [done|]. destruct (isExpired _ _); [done|].
    pose proof (flags_ok_checkRateLimit (ApiKey.id (rowToApiKey row))
                  (default 0 (ApiKey.rateLimit (rowToApiKey row)))
                  (clk_rate clk) db Hdb) as Hcrl.
    destruct (_ && _).
    + destruct (checkRateLimit _ _ _ db) as [db1 b]. simpl in Hcrl.
      destruct b; [done|]. destruct (default true _); [|done].
      by apply flags_ok_updateWhereId.
    + destruct (default true _); [|done]. by apply flags_ok_updateWhereId.
Qed.

Lemma flags_ok_emptyDb : flags_ok emptyDb.
Proof. apply Forall_nil_2. Qed.

(** ** [getStats] *)

Lemma countWhere_cons (p : ApiKeyRow.t -> bool) (r : ApiKeyRow.t)
    (l : list ApiKeyRow.t) (rl : gmap (string * Z) Z) :
  countWhere p {| api_keys := r :: l; rate_limit_records := rl |}
  = (if p r then 1 else 0)
    + countWhere p {| api_keys := l; rate_limit_records := rl |}.
Proof. unfold countWhere. simpl. destruct (p r); simpl; lia. Qed.

Lemma countWhere_ext (p q : ApiKeyRow.t -> bool) (db : Database) :
  (forall r, r ∈ api_keys db -> p r = q r) ->
  countWhere p db = countWhere q db.
Proof.
  intros H. unfold countWhere. do 2 f_equal.
  apply List.filter_ext_in. intros r Hr. apply H. by apply list_elem_of_In.
Qed.

Lemma countWhere_nonneg (p : ApiKeyRow.t -> bool) (db : Database) :
  0 <= countWhere p db.
Proof. unfold countWhere. lia. Qed.

(** C8. On a store whose [is_active] flags are 0 or 1, [getStats] returns
    four counts taken independently: all rows; rows that are active and not
    expired; rows whose expiry is set and not after [now], active or not;
    rows that are not active, expired or not.  A row that is both revoked and
    expired is counted in [expired] and in [revoked]: the three buckets add
    up to [total] plus the number of such rows, hence to more than [total]
    as soon as there is one. *)
Theorem getStats_counts (now : Z) (db : Database) :
  flags_ok db ->
  let s := getStats now db in
  let isActive := fun r => ApiKey.isActive (rowToApiKey r) in
  Stats.total s = Z.of_nat (length (api_keys db))
  /\ Stats.active s = countWhere (fun r => isActive r && negb (expiredAt now r)) db
  /\ Stats.expired s = countWhere (expiredAt now) db
  /\ Stats.revoked s = countWhere (fun r => negb (isActive r)) db
  /\ Stats.active s + Stats.expired s + Stats.revoked s
     = Stats.total s
       + countWhere (fun r => negb (isActive r) && expiredAt now r) db
  /\ ((exists r, r ∈ api_keys db /\ isActive r = false /\ expiredAt now r = true) ->
      Stats.total s < Stats.active s + Stats.expired s + Stats.revoked s).
Proof.
  intros Hflags s isActive.
  assert (Stats.total s = Z.of_nat (length (api_keys db))) as Htot.
  { subst s. unfold getStats, countWhere. simpl. do 2 f_equal.
    induction (api_keys db) as [|r l IH]; simpl; congruence. }
  assert (Stats.active s
          = countWhere (fun r => isActive r && negb (expiredAt now r)) db) as Hact.
  { subst s. simpl. apply countWhere_ext. intros r _. subst isActive. simpl.
    f_equal. unfold expiredAt. destruct (ApiKeyRow.expires_at r); [|done].
    leb_lia. }
  assert (Stats.expired s = countWhere (expiredAt now) db) as Hexp by done.
  assert (Stats.revoked s = countWhere (fun r => negb (isActive r)) db) as Hrev.
  { subst s. simpl. apply countWhere_ext. intros r Hr. subst isActive. simpl.
    unfold flags_ok in Hflags. rewrite Forall_forall in Hflags.
    destruct (Hflags r Hr) as [-> | ->]; done. }
  assert (Stats.active s + Stats.expired s + Stats.revoked s
          = Stats.total s
            + countWhere (fun r => negb (isActive r) && expiredAt now r) db) as Hsum.
  { rewrite Hact, Hexp, Hrev, Htot. clear. destruct db as [rows rl].
    induction rows as [|r rows IH]; [done|].
    rewrite !countWhere_cons. simpl in *.
    destruct (isActive r), (expiredAt now r); simpl; lia. }
  repeat (split; [done|]).
  intros (r & Hr & Hra & Hre). rewrite Hsum.
  assert (0 < countWhere (fun r => negb (isActive r) && expiredAt now r) db);
    [|lia].
  unfold countWhere. apply filter_length_pos. exists r.
  by rewrite Hra, Hre.
Qed.

(** ** Expiry at the boundary instant *)

(** C5. At the very instant of its expiry ([now = expires_at]) an active key
    that is found passes the expiration check of [validate]: the answer is
    not [expired], although the same row is already counted as expired by
    [getStats] at that instant. *)
Theorem validate_at_expiry_instant_not_expired (key : string)
    (options : ValidateOptions.t) (clk : ValidateClock) (db : Database)
    (row : ApiKeyRow.t) (e : Z) :
  selectByHash (hashKey key) db = Some row ->
  ApiKeyRow.is_active row = 1 ->
  ApiKeyRow.expires_at row = Some e ->
  clk_expiry clk = e ->
  ApiKeyValidationResult.reason (snd (validate key options clk db)) <> Some expired
  /\ expiredAt (clk_expiry clk) row = true
  /\ 1 <= Stats.expired (getStats (clk_expiry clk) db).
Proof.
  intros Hsel Hact He Hclk.
  assert (isExpired (rowToApiKey row) (clk_expiry clk) = false) as Hne.
  { apply not_true_iff_false. rewrite isExpired_row.
    intros (e' & He' & _ & Hlt). rewrite He in He'. inversion He'. lia. }
  assert (expiredAt (clk_expiry clk) row = true) as Hexp.
  { unfold expiredAt. rewrite He. apply Z.leb_le. lia. }
  split; [|split; [done|]].
  - destruct (validate_found key options clk db row Hsel) as (_ & _ & Hrl & Hok).
    destruct (rateLimited row options (clk_rate clk) db) eqn:Erl.
    + by rewrite (Hrl Hact Hne eq_refl).
    + by rewrite (Hok Hact Hne eq_refl).
  - assert (0 < Stats.expired (getStats (clk_expiry clk) db)); [|lia].
    unfold getStats, countWhere. simpl. apply filter_length_pos.
    exists row. split; [by apply selectByHash_Some in Hsel as [? _]|].
    exact Hexp.
Qed.

(** ** Configuration checks of [create] *)


(** ** What the store holds of a raw key *)

Lemma char_at_length (charset : string) (k : Z) :
  0 <= k < Z.of_nat (String.length charset) ->
  String.length (char_at charset k) = 1%nat.
Proof.
  intros Hk. unfold char_at.
  destruct (get_in_range charset (Z.to_nat k)) as [c ->]; [lia | done].
Qed.

Lemma CHARSETS_nonempty (c : ApiKeyCharset) :
  0 < Z.of_nat (String.length (CHARSETS c)).
Proof. destruct c; simpl; lia. Qed.

Lemma generateRandomString_length (len : Z) (c : ApiKeyCharset)
    (rnd : RandomSource) (body : string) :
  generateRandomString len (CHARSETS c) rnd = Ok body ->
  String.length body = Z.to_nat len.
Proof.
  unfold generateRandomString. destruct (len <? 0); [done|].
  intros [= <-].
  assert (forall l acc,
            String.length
              (fold_left
                 (fun result i =>
                    result +:+ char_at (CHARSETS c)
                      ((rnd i mod 256) mod Z.of_nat (String.length (CHARSETS c))))
                 l acc)
            = (String.length acc + length l)%nat) as Hfold.
  { induction l as [|i l IH]; intros acc; simpl; [lia|].
    rewrite IH, length_append, char_at_length; [lia|].
    apply Z.mod_pos_bound, CHARSETS_nonempty. }
  rewrite Hfold, length_seq. simpl. done.
Qed.


Lemma row_texts_setLastUsed (t : Z) (r : ApiKeyRow.t) :
  row_texts (setLastUsed t r) = row_texts r.
Proof. reflexivity. Qed.

Lemma key_texts_rowToApiKey (r : ApiKeyRow.t) :
  key_texts (rowToApiKey r) = row_texts r.
Proof. reflexivity. Qed.










(** ** Interleaved calls of [checkRateLimit] *)

Lemma statements_run_alone (c c' : Statements.Call) (rl : gmap (string * Z) Z)
    (api : list ApiKeyRow.t) :
  let db := {| api_keys := api; rate_limit_records := rl |} in
  let st := Statements.run c c' [First; First; First] (Statements.start rl) in
  let r := checkRateLimit (Statements.keyId c) (Statements.limit c)
             (Statements.now c) db in
  Statements.pc1 st = Statements.Returned (snd r)
  /\ Statements.store st = rate_limit_records (fst r).
Proof.
  simpl. unfold checkRateLimit. simpl.
  destruct (overLimit _ _); done.
Qed.

Lemma statements_step_counter (c : Statements.Call) (pc pc' : Statements.Pc)
    (rl rl' : gmap (string * Z) Z) :
  Statements.step c pc rl = (pc', rl') ->
  counterOf rl' (Statements.keyId c) (windowStartOf (Statements.now c))
  + Statements.granted pc
  = counterOf rl (Statements.keyId c) (windowStartOf (Statements.now c))
    + Statements.granted pc'.
Proof.
  unfold Statements.step, counterOf. destruct pc as [| | |b]; intros [= <- <-].
  - by rewrite purgeBefore_current.
  - by destruct (overLimit _ _).
  - rewrite upsertIncrement_lookup. simpl.
    destruct (rl !! _); simpl; lia.
  - done.
Qed.

(** No interleaving of the statements of two calls for the same key and
    window loses an increment. *)
Lemma statements_no_lost_increment (c1 c2 : Statements.Call)
    (schedule : list Turn) :
  Statements.keyId c1 = Statements.keyId c2 ->
  windowStartOf (Statements.now c1) = windowStartOf (Statements.now c2) ->
  forall st : Statements.State,
    let st' := Statements.run c1 c2 schedule st in
    let keyId := Statements.keyId c1 in
    let w := windowStartOf (Statements.now c1) in
    counterOf (Statements.store st') keyId w
    + Statements.granted (Statements.pc1 st) + Statements.granted (Statements.pc2 st)
    = counterOf (Statements.store st) keyId w
      + Statements.granted (Statements.pc1 st')
      + Statements.granted (Statements.pc2 st').
Proof.
  intros Hk Hw. induction schedule as [|t schedule IH]; intros st; [simpl; lia|].
  simpl. specialize (IH (Statements.turn c1 c2 st t)). simpl in IH.
  unfold Statements.run in *.
  destruct t; unfold Statements.turn in *.
  - destruct (Statements.step c1 _ _) as [pc rl] eqn:E.
    apply statements_step_counter in E. simpl in *. lia.
  - destruct (Statements.step c2 _ _) as [pc rl] eqn:E.
    apply statements_step_counter in E. rewrite <- Hk, <- Hw in E.
    simpl in *. lia.
Qed.

(** ** Calls of [validate] in flight on one event loop *)

Lemma selectByHash_updateWhereId (keyHash keyId : string) (t : Z) (db : Database) :
  selectByHash keyHash (fst (updateWhereId keyId (setLastUsed t) db))
  = (fun r => if bool_decide (ApiKeyRow.id r = keyId) then setLastUsed t r else r)
      <$> selectByHash keyHash db.
Proof.
  unfold selectByHash, updateWhereId. simpl.
  apply find_fmap_key. intros r.
  by destruct (bool_decide (ApiKeyRow.id r = keyId)).
Qed.

Lemma keyState_updateWhereId (keyHash keyId keyId' : string) (N t : Z)
    (exp : option Z) (db : Database) :
  keyState keyHash keyId N exp db ->
  keyState keyHash keyId N exp (fst (updateWhereId keyId' (setLastUsed t) db)).
Proof.
  intros (row & Hsel & Hid & Hact & Hexp & Hrl). unfold keyState.
  rewrite selectByHash_updateWhereId, Hsel. simpl.
  eexists. split; [done|]. by case_bool_decide.
Qed.

Lemma keyState_same_rows (keyHash keyId : string) (N : Z) (exp : option Z)
    (db db' : Database) :
  api_keys db' = api_keys db ->
  keyState keyHash keyId N exp db -> keyState keyHash keyId N exp db'.
Proof. unfold keyState, selectByHash. by intros ->. Qed.

(** One resumed call on a key that is found, active, not expired and limited
    to [N <> 0] requests, with the check enabled: it is granted when the
    counter of its window is below [N] and counts one more, and it is rejected
    when the counter has reached [N] and leaves the counter alone. *)
Lemma validateHashed_limited_key (keyHash keyId : string) (N : Z)
    (exp : option Z) (options : ValidateOptions.t) (clk : ValidateClock)
    (db : Database) :
  keyState keyHash keyId N exp db ->
  0 < N ->
  default true (ValidateOptions.checkRateLimit options) = true ->
  notExpiredAt exp (clk_expiry clk) ->
  let w := windowStartOf (clk_rate clk) in
  let r := validateHashed keyHash options clk db in
  keyState keyHash keyId N exp (fst r)
  /\ (counterOf (rate_limit_records db) keyId w < N ->
      ApiKeyValidationResult.valid (snd r) = true
      /\ ApiKeyValidationResult.reason (snd r) = None
      /\ counterOf (rate_limit_records (fst r)) keyId w
         = counterOf (rate_limit_records db) keyId w + 1)
  /\ (N <= counterOf (rate_limit_records db) keyId w ->
      ApiKeyValidationResult.valid (snd r) = false
      /\ ApiKeyValidationResult.reason (snd r) = Some rate_limited
      /\ counterOf (rate_limit_records (fst r)) keyId w
         = counterOf (rate_limit_records db) keyId w).
Proof.
  intros Hks HN Hon Hexp. pose proof Hks as (row & Hsel & Hid & Hact & He & Hrl).
  simpl. unfold validateHashed. rewrite Hsel, Hon.
  change (ApiKey.isActive (rowToApiKey row)) with (ApiKeyRow.is_active row =? 1).
  rewrite Hact. simpl negb. cbv iota.
  assert (isExpired (rowToApiKey row) (clk_expiry clk) = false) as ->.
  { apply not_true_iff_false. rewrite isExpired_row.
    intros (e & He' & Hne & Hlt). rewrite He in He'.
    pose proof (Hexp e He' Hne). lia. }
  change (ApiKey.rateLimit (rowToApiKey row)) with (ApiKeyRow.rate_limit row).
  change (ApiKey.id (rowToApiKey row)) with (ApiKeyRow.id row).
  rewrite Hrl, Hid. simpl truthy.
  replace (negb (N =? 0)) with true by (symmetry; apply negb_true_iff, Z.eqb_neq; lia).
  simpl andb. cbv iota. simpl default.
  destruct (checkRateLimit_counter keyId N (clk_rate clk) db) as (Hans & Hcnt & Hrows).
  simpl in Hans, Hcnt.
  destruct (checkRateLimit keyId N (clk_rate clk) db) as [db1 b].
  simpl in Hans, Hcnt, Hrows.
  assert (keyState keyHash keyId N exp db1) as Hks1
    by (by apply (keyState_same_rows _ _ _ _ db)).
  unfold counterOf. subst b.
  destruct (rate_limit_records db !! (keyId, windowStartOf (clk_rate clk)))
    as [c|] eqn:Ec; simpl in *.
  - destruct (Z.leb_spec N c); simpl.
    + split; [done|]. split; [lia|]. intros _. by rewrite Hcnt.
    + destruct (default true (ValidateOptions.updateLastUsed options)); simpl.
      * split; [by apply keyState_updateWhereId|].
        split; [|lia]. intros _. by rewrite Hcnt.
      * split; [done|]. split; [|lia]. intros _. by rewrite Hcnt.
  - destruct (default true (ValidateOptions.updateLastUsed options)); simpl.
    + split; [by apply keyState_updateWhereId|].
      split; [|lia]. intros _. by rewrite Hcnt.
    + split; [done|]. split; [|lia]. intros _. by rewrite Hcnt.
Qed.

Section TwoCalls.

Variables (key keyId : string) (N w : Z) (exp : option Z).
Hypothesis HN : 0 < N.

Local Abbreviation presents := (presents key exp w).
Local Abbreviation pcGood := (pcGood key keyId N w).
Local Abbreviation loopInv := (loopInv key keyId N w exp).

Lemma eventloop_step_inv (c : EventLoop.Call) (pc pc' : EventLoop.Pc)
    (db db' : Database) :
  presents c ->
  keyState (hashKey key) keyId N exp db ->
  counterOf (rate_limit_records db) keyId w <= N ->
  pcGood pc db ->
  EventLoop.step c pc db = (pc', db') ->
  keyState (hashKey key) keyId N exp db'
  /\ counterOf (rate_limit_records db') keyId w <= N
  /\ pcGood pc' db'
  /\ counterOf (rate_limit_records db') keyId w + EventLoop.granted pc
     = counterOf (rate_limit_records db) keyId w + EventLoop.granted pc'
  /\ counterOf (rate_limit_records db) keyId w
     <= counterOf (rate_limit_records db') keyId w.
Proof.
  intros (Hkey & Hon & Hexp & Hw) Hks Hle Hgood.
  destruct pc as [|h|r]; simpl.
  - intros [= <- <-]. simpl. rewrite Hkey. repeat split; (done || lia).
  - simpl in Hgood. subst h.
    pose proof (validateHashed_limited_key (hashKey key) keyId N exp
                  (EventLoop.options c) (EventLoop.clock c) db
                  Hks HN Hon Hexp) as (Hks' & Hgrant & Hlimit).
    simpl in Hks', Hgrant, Hlimit. rewrite Hw in Hgrant, Hlimit.
    destruct (validateHashed _ _ _ db) as [db1 r]. simpl in *.
    intros [= <- <-]. split; [done|].
    destruct (Z.lt_ge_cases (counterOf (rate_limit_records db) keyId w) N)
      as [Hlt|Hge].
    + destruct (Hgrant Hlt) as (Hv & Hr & Hc). simpl.
      rewrite Hv. repeat split; try lia. by left.
    + destruct (Hlimit Hge) as (Hv & Hr & Hc). simpl.
      rewrite Hv. repeat split; try lia. right. repeat split; [done..|lia].
  - intros [= <- <-]. simpl. repeat split; (done || lia).
Qed.

Lemma pcGood_mono (pc : EventLoop.Pc) (db db' : Database) :
  counterOf (rate_limit_records db) keyId w
  <= counterOf (rate_limit_records db') keyId w ->
  counterOf (rate_limit_records db') keyId w <= N ->
  pcGood pc db -> pcGood pc db'.
Proof.
  intros Hle HleN. destruct pc as [|h|r]; simpl; try done.
  intros [H|(Hv & Hr & Hc)]; [by left|]. right. repeat split; [done..|lia].
Qed.

Lemma loopInv_run (c1 c2 : EventLoop.Call) (schedule : list Turn) :
  presents c1 -> presents c2 ->
  forall st, loopInv st -> loopInv (EventLoop.run c1 c2 schedule st).
Proof.
  intros Hc1 Hc2. induction schedule as [|t schedule IH]; intros st Hinv;
    [done|].
  simpl. apply IH. clear IH.
  destruct Hinv as (Hks & Hle & Hg1 & Hg2 & Hcnt).
  destruct t; unfold EventLoop.turn.
  - destruct (EventLoop.step c1 _ _) as [pc db'] eqn:E.
    destruct (eventloop_step_inv _ _ _ _ _ Hc1 Hks Hle Hg1 E)
      as (Hks' & Hle' & Hg' & Hcnt' & Hmono).
    unfold loopInv. simpl. repeat split; try done.
    + by apply (pcGood_mono _ (EventLoop.store st)).
    + lia.
  - destruct (EventLoop.step c2 _ _) as [pc db'] eqn:E.
    destruct (eventloop_step_inv _ _ _ _ _ Hc2 Hks Hle Hg2 E)
      as (Hks' & Hle' & Hg' & Hcnt' & Hmono).
    unfold loopInv. simpl. repeat split; try done.
    + by apply (pcGood_mono _ (EventLoop.store st)).
    + lia.
Qed.

End TwoCalls.

Lemma eventloop_progress1 (c1 c2 : EventLoop.Call) (schedule : list Turn) :
  forall st,
    (Nat.min 2 (progress (EventLoop.pc1 st) + turnsOf First schedule)
     <= progress (EventLoop.pc1 (EventLoop.run c1 c2 schedule st)))%nat.
Proof.
  induction schedule as [|t schedule IH]; intros st.
  - unfold turnsOf. simpl. destruct (EventLoop.pc1 st); simpl; lia.
  - simpl. specialize (IH (EventLoop.turn c1 c2 st t)).
    etrans; [|exact IH]. clear IH. unfold turnsOf.
    destruct t; unfold EventLoop.turn; simpl.
    + destruct (EventLoop.pc1 st); simpl.
      * lia.
      * destruct (validateHashed _ _ _ _). simpl. lia.
      * lia.
    + destruct (EventLoop.step c2 _ _). simpl. lia.
Qed.

Lemma eventloop_progress2 (c1 c2 : EventLoop.Call) (schedule : list Turn) :
  forall st,
    (Nat.min 2 (progress (EventLoop.pc2 st) + turnsOf Second schedule)
     <= progress (EventLoop.pc2 (EventLoop.run c1 c2 schedule st)))%nat.
Proof.
  induction schedule as [|t schedule IH]; intros st.
  - unfold turnsOf. simpl. destruct (EventLoop.pc2 st); simpl; lia.
  - simpl. specialize (IH (EventLoop.turn c1 c2 st t)).
    etrans; [|exact IH]. clear IH. unfold turnsOf.
    destruct t; unfold EventLoop.turn; simpl.
    + destruct (EventLoop.step c1 _ _). simpl. lia.
    + destruct (EventLoop.pc2 st); simpl.
      * lia.
      * destruct (validateHashed _ _ _ _). simpl. lia.
      * lia.
Qed.

Lemma progress_resolved (pc : EventLoop.Pc) :
  (2 <= progress pc)%nat -> exists r, EventLoop.outcome pc = Some r.
Proof. destruct pc; simpl; [lia | lia | eauto]. Qed.

(** C9. The rate-limit check is two statements, a [SELECT] of
    the counter followed by an upsert that increments it.  (1) The upsert is
    atomic: whatever way the statements of two calls of [checkRateLimit] for
    one key and window interleave, the counter ends at its initial value plus
    the number of calls that were granted, so no increment is lost.  (2) On
    one event loop a call of [validate] can only be suspended at its [await],
    before it reads the store: two calls that present the same limited key in
    the same window when one permit is left both resolve once each has had two
    turns, and whatever the schedule exactly one of them is granted, the
    other is answered [rate_limited], and the counter ends at the limit. *)
Theorem rate_limit_two_calls :
  (forall (c1 c2 : Statements.Call) (schedule : list Turn)
          (rl : gmap (string * Z) Z),
     Statements.keyId c1 = Statements.keyId c2 ->
     windowStartOf (Statements.now c1) = windowStartOf (Statements.now c2) ->
     let st := Statements.run c1 c2 schedule (Statements.start rl) in
     let keyId := Statements.keyId c1 in
     let w := windowStartOf (Statements.now c1) in
     counterOf (Statements.store st) keyId w
     = counterOf rl keyId w
       + Statements.granted (Statements.pc1 st)
       + Statements.granted (Statements.pc2 st))
  /\ (forall (key keyId : string) (N w : Z) (exp : option Z)
             (c1 c2 : EventLoop.Call) (schedule : list Turn) (db : Database),
        0 < N ->
        presents key exp w c1 ->
        presents key exp w c2 ->
        keyState (hashKey key) keyId N exp db ->
        counterOf (rate_limit_records db) keyId w = N - 1 ->
        let st := EventLoop.run c1 c2 schedule (EventLoop.start db) in
        ((2 <= turnsOf First schedule)%nat -> (2 <= turnsOf Second schedule)%nat ->
         exists r1 r2,
           EventLoop.outcome (EventLoop.pc1 st) = Some r1
           /\ EventLoop.outcome (EventLoop.pc2 st) = Some r2)
        /\ (forall r1 r2,
              EventLoop.outcome (EventLoop.pc1 st) = Some r1 ->
              EventLoop.outcome (EventLoop.pc2 st) = Some r2 ->
              ((ApiKeyValidationResult.valid r1 = true
                /\ ApiKeyValidationResult.valid r2 = false
                /\ ApiKeyValidationResult.reason r2 = Some rate_limited)
               \/ (ApiKeyValidationResult.valid r2 = true
                   /\ ApiKeyValidationResult.valid r1 = false
                   /\ ApiKeyValidationResult.reason r1 = Some rate_limited))
              /\ counterOf (rate_limit_records (EventLoop.store st)) keyId w = N)).
Proof.
  split.
  - intros c1 c2 schedule rl Hk Hw.
    pose proof (statements_no_lost_increment c1 c2 schedule Hk Hw
                  (Statements.start rl)) as H.
    simpl in *. lia.
  - intros key keyId N w exp c1 c2 schedule db HN Hc1 Hc2 Hks Hcnt st. split.
    + intros H1 H2.
      pose proof (eventloop_progress1 c1 c2 schedule (EventLoop.start db)) as P1.
      pose proof (eventloop_progress2 c1 c2 schedule (EventLoop.start db)) as P2.
      change (progress (EventLoop.pc1 (EventLoop.start db))) with 0%nat in P1.
      change (progress (EventLoop.pc2 (EventLoop.start db))) with 0%nat in P2.
      fold st in P1, P2.
      destruct (progress_resolved (EventLoop.pc1 st)) as [r1 Hr1]; [lia|].
      destruct (progress_resolved (EventLoop.pc2 st)) as [r2 Hr2]; [lia|].
      eauto.
    + assert (loopInv key keyId N w exp st) as (_ & Hle & Hg1 & Hg2 & Hsum).
      { apply (loopInv_run key keyId N w exp HN); [done..|].
        unfold loopInv. simpl. repeat split; (done || lia). }
      intros r1 r2 Hr1 Hr2.
      destruct (EventLoop.pc1 st) as [| |r1']; try done.
      destruct (EventLoop.pc2 st) as [| |r2']; try done.
      simpl in *. injection Hr1 as ->. injection Hr2 as ->.
      destruct Hg1 as [[Hv1 Hn1]|(Hv1 & Hl1 & Hc1')];
        destruct Hg2 as [[Hv2 Hn2]|(Hv2 & Hl2 & Hc2')];
        rewrite Hv1, Hv2 in Hsum.
      * lia.
      * split; [by left | lia].
      * split; [by right | lia].
      * lia.
Qed.


(** ** Worked examples *)

Example hashKey_abc :
  hashKey "abc" = "ba7816bf8f01cfea414140de5dae2223b00361a396177a9cb410ff61f20015ad".
Proof. vm_compute. reflexivity. Qed.

Example hashKey_empty :
  hashKey EmptyString = "e3b0c44298fc1c149afbf4c8996fb92427ae41e4649b934ca495991b7852b855".
Proof. vm_compute. reflexivity. Qed.

Example hashKey_two_blocks :
  hashKey "abcdbcdecdefdefgefghfghighijhijkijkljklmklmnlmnomnopnopq"
  = "248d6a61d20638b8e5c026930c3e6039a33ce45964ff2167f6ecedd419db06c1".
Proof. vm_compute. reflexivity. Qed.

(** The default configuration gives the prefix followed by 32 characters of
    the base64url alphabet, and the last four as suffix. *)
Example create_default_key :
  exists db res,
    create noConfig Sample.env emptyDb = (db, Ok res)
    /\ ApiKeyCreateResult.key res = "rapids_dkryFMT07cjqxELSZ6bipwDKRY5ahovC"
    /\ ApiKey.suffix (ApiKeyCreateResult.record res) = "hovC".
Proof. eexists _, _. split; [vm_compute; reflexivity|]. split; reflexivity. Qed.

(** With [rateLimit = 3], four validations in one window: three granted, the
    fourth rate limited; the next window starts afresh. *)
Example validate_four_times_limit_three :
  Sample.verdicts (Sample.withRateLimit 3) id
    [1700000000001; 1700000000002; 1700000000003; 1700000000004; 1700000040000]
  = [(true, None); (true, None); (true, None); (false, Some rate_limited);
     (true, None)].
Proof. vm_compute. reflexivity. Qed.

Example validate_expired_key :
  Sample.verdicts (Sample.withExpiresIn (-1)) id [1700000000001]
  = [(false, Some expired)].
Proof. vm_compute. reflexivity. Qed.

Example validate_revoked_key :
  Sample.verdicts noConfig (fun db => fst (revoke (env_uuid Sample.env) db))
    [1700000000001]
  = [(false, Some revoked)].
Proof. vm_compute. reflexivity. Qed.

Example validate_unknown_key :
  snd (validate "rapids_unknown" noOptions (clockAt 5000) Sample.fourKeys)
  = invalid not_found None.
Proof. vm_compute. reflexivity. Qed.

Example getStats_four_keys :
  getStats 5000 Sample.fourKeys = Stats.mk 4 2 1 1.
Proof. vm_compute. reflexivity. Qed.

Example getStats_five_keys :
  getStats 5000 Sample.fiveKeys = Stats.mk 5 2 2 2.
Proof. vm_compute. reflexivity. Qed.

(** A key created with [expiresIn = 60] is still valid at the instant of its
    expiry, at which [getStats] reports it expired and not active. *)
Example validate_and_stats_at_expiry :
  Sample.verdicts (Sample.withExpiresIn 60) id [1700000060000; 1700000060001]
  = [(true, None); (false, Some expired)]
  /\ getStats 1700000060000 (fst (create (Sample.withExpiresIn 60) Sample.env emptyDb))
     = Stats.mk 1 0 1 0.
Proof. split; vm_compute; reflexivity. Qed.

(** ** Counterexamples *)



(** C9. Two calls of [checkRateLimit] for a key limited to one request, with
    no request counted yet: when both read the counter before either
    increments it, both are granted and the counter ends at 2. *)
Lemma statements_race_grants_both :
  let st :=
    Statements.run Sample.oneLeft Sample.oneLeft
      [First; First; Second; Second; First; Second] (Statements.start ∅) in
  Statements.pc1 st = Statements.Returned false
  /\ Statements.pc2 st = Statements.Returned false
  /\ Statements.store st !! ("a", 0) = Some 2
  /\ Statements.limit Sample.oneLeft < counterOf (Statements.store st) "a" 0.
Proof. vm_compute. repeat split; reflexivity. Qed.

(** ** Instances of the theorems on the sample data *)


(** C2 with the limit 3 and four calls in the window that starts at
    1699999980000. *)
Lemma checkRateLimit_window_witness :
  snd (checkRateLimitAll "a" 3
         (take 4 [1700000000001; 1700000000002; 1700000000003; 1700000000004])
         emptyDb)
  = (fun i => 3 <=? Z.of_nat i) <$> seq 0 4
  /\ rate_limit_records
       (fst (checkRateLimitAll "a" 3
               (take 4 [1700000000001; 1700000000002; 1700000000003;
                        1700000000004]) emptyDb))
       !! ("a", 1699999980000)
     = Some (Z.min (Z.of_nat 4) 3)
  /\ (forall c,
        rate_limit_records
          (fst (checkRateLimitAll "a" 3
                  (take 4 [1700000000001; 1700000000002; 1700000000003;
                           1700000000004]) emptyDb))
          !! ("a", 1699999980000) = Some c -> c <= 3).
Proof.
  apply (checkRateLimit_window "a" 3 1699999980000
           [1700000000001; 1700000000002; 1700000000003; 1700000000004]
           emptyDb).
  - lia.
  - repeat constructor.
  - reflexivity.
  - simpl. lia.
Defined.


(** C5 on the sample key "d", which expires at 2000, validated at 2000. *)
Lemma validate_at_expiry_instant_witness :
  ApiKeyValidationResult.reason
    (snd (validate "rapids_d" noOptions (clockAt 2000) Sample.fourKeys))
  <> Some expired
  /\ expiredAt 2000 (Sample.row "d" (hashKey "rapids_d") 1 (Some 2000)) = true
  /\ 1 <= Stats.expired (getStats 2000 Sample.fourKeys).
Proof.
  apply (validate_at_expiry_instant_not_expired "rapids_d" noOptions
           (clockAt 2000) Sample.fourKeys
           (Sample.row "d" (hashKey "rapids_d") 1 (Some 2000)) 2000).
  - vm_compute. reflexivity.
  - reflexivity.
  - reflexivity.
  - reflexivity.
Defined.


(** C7 on the sample key "c", which is already revoked. *)
Lemma revoke_true_iff_exists_witness :
  snd (revoke "c" Sample.fourKeys) = true.
Proof.
  apply (proj2 (proj1 (revoke_true_iff_exists "c" Sample.fourKeys))).
  exists (Sample.row "c" (hashKey "rapids_c") 0 None).
  split; [|reflexivity].
  apply list_elem_of_In. simpl. tauto.
Defined.

(** C8 on the five sample keys, one of which is revoked and expired. *)
Lemma getStats_counts_witness :
  flags_ok Sample.fiveKeys
  /\ Stats.total (getStats 5000 Sample.fiveKeys)
     < Stats.active (getStats 5000 Sample.fiveKeys)
       + Stats.expired (getStats 5000 Sample.fiveKeys)
       + Stats.revoked (getStats 5000 Sample.fiveKeys).
Proof.
  assert (flags_ok Sample.fiveKeys) as Hflags.
  { unfold flags_ok. simpl.
    repeat (constructor; [simpl; lia|]). constructor. }
  split; [exact Hflags|].
  apply (getStats_counts 5000 Sample.fiveKeys Hflags).
  exists (Sample.row "e" (hashKey "rapids_e") 0 (Some 2000)).
  split; [|split; reflexivity].
  apply list_elem_of_In. simpl. tauto.
Defined.

(** C9 for two calls that present the sample key limited to one request,
    the second resuming first. *)
Lemma rate_limit_two_calls_witness :
  let st :=
    EventLoop.run (Sample.call "rapids_a" 5000) (Sample.call "rapids_a" 5001)
      [First; Second; Second; First] (EventLoop.start Sample.limitedKey) in
  exists r1 r2,
    EventLoop.outcome (EventLoop.pc1 st) = Some r1
    /\ EventLoop.outcome (EventLoop.pc2 st) = Some r2
    /\ ((ApiKeyValidationResult.valid r1 = true
         /\ ApiKeyValidationResult.valid r2 = false
         /\ ApiKeyValidationResult.reason r2 = Some rate_limited)
        \/ (ApiKeyValidationResult.valid r2 = true
            /\ ApiKeyValidationResult.valid r1 = false
            /\ ApiKeyValidationResult.reason r1 = Some rate_limited))
    /\ counterOf (rate_limit_records (EventLoop.store st)) "a" 0 = 1.
Proof.
  intros st.
  destruct rate_limit_two_calls as [_ H].
  destruct (H "rapids_a" "a" 1 0 None
              (Sample.call "rapids_a" 5000) (Sample.call "rapids_a" 5001)
              [First; Second; Second; First] Sample.limitedKey)
    as [Hresolve Hone].
  - lia.
  - repeat split. intros e He. discriminate He.
  - repeat split. intros e He. discriminate He.
  - eexists. split; [vm_compute; reflexivity|]. repeat split.
  - reflexivity.
  - destruct Hresolve as (r1 & r2 & Hr1 & Hr2); [unfold turnsOf; simpl; lia..|].
    exists r1, r2. split; [exact Hr1|]. split; [exact Hr2|].
    exact (Hone r1 r2 Hr1 Hr2).
Defined.

(** C10 with [expiresIn = 0] on the empty store. *)
Lemma create_expiresIn_zero_witness :
  exists db' res row,
    create (Sample.withExpiresIn 0) Sample.env emptyDb = (db', Ok res)
    /\ api_keys db' = [row]
    /\ ApiKeyRow.expires_at row = None
    /\ ApiKey.expiresAt (ApiKeyCreateResult.record res) = None.
Proof.
  destruct (create (Sample.withExpiresIn 0) Sample.env emptyDb)
    as [db' [res|e]] eqn:Hcreate.
  - destruct (create_expiresIn_zero_never_expires (Sample.withExpiresIn 0)
                Sample.env emptyDb db' res Hcreate)
      as (row & Hrows & _ & _ & Hzero & _).
    destruct (Hzero eq_refl) as [Hrow Hrec].
    exists db', res, row. repeat split; assumption.
  - vm_compute in Hcreate. discriminate Hcreate.
Defined.


(** * Further properties *)

(** ** Shape of generated keys and hashes *)

Lemma get_elem (s : string) (n : nat) (c : ascii) :
  String.get n s = Some c -> c ∈ list_ascii_of_string s.
Proof.
  revert n. induction s as [|a s IH]; intros n; simpl; [done|].
  destruct n as [|n].
  - intros [= ->]. left.
  - intros H. right. by eapply IH.
Qed.

Lemma list_ascii_append (s1 s2 : string) :
  list_ascii_of_string (s1 +:+ s2)
  = list_ascii_of_string s1 ++ list_ascii_of_string s2.
Proof.
  induction s1 as [|c s1 IH]; [done|]. rewrite append_cons. simpl.
  by rewrite IH.
Qed.

Lemma generateRandomString_alphabet (len : Z) (c : ApiKeyCharset)
    (rnd : RandomSource) (body : string) :
  generateRandomString len (CHARSETS c) rnd = Ok body ->
  Forall (fun ch => ch ∈ list_ascii_of_string (CHARSETS c))
         (list_ascii_of_string body).
Proof.
  unfold generateRandomString. destruct (len <? 0); [done|].
  intros [= <-].
  assert (forall l acc,
            Forall (fun ch => ch ∈ list_ascii_of_string (CHARSETS c))
                   (list_ascii_of_string acc) ->
            Forall (fun ch => ch ∈ list_ascii_of_string (CHARSETS c))
              (list_ascii_of_string
                 (fold_left
                    (fun result i =>
                       result +:+ char_at (CHARSETS c)
                         ((rnd i mod 256) mod Z.of_nat (String.length (CHARSETS c))))
                    l acc))) as Hfold.
  { induction l as [|i l IH]; intros acc Hacc; simpl; [done|].
    apply IH. rewrite list_ascii_append. apply Forall_app. split; [done|].
    unfold char_at.
    destruct (get_in_range (CHARSETS c)
                (Z.to_nat ((rnd i mod 256) mod Z.of_nat (String.length (CHARSETS c)))))
      as [ch Hch].
    { pose proof (CHARSETS_nonempty c).
      pose proof (Z.mod_pos_bound (rnd i mod 256)
                    (Z.of_nat (String.length (CHARSETS c))) ltac:(lia)).
      lia. }
    rewrite Hch. simpl. apply Forall_cons_2; [|apply Forall_nil_2].
    by eapply get_elem. }
  apply Hfold. simpl. apply Forall_nil_2.
Qed.

(** X1. The key of a successful [create] is the configured prefix followed by
    exactly [length] characters, each of them a character of the configured
    alphabet; the suffix of the record is its last four characters. *)
Theorem create_key_shape (config : ApiKeyConfig.t) (env : CreateEnv)
    (db db' : Database) (res : ApiKeyCreateResult.t) :
  create config env db = (db', Ok res) ->
  let m := mergeConfig config in
  exists body,
    ApiKeyCreateResult.key res = MergedConfig.prefix m +:+ body
    /\ Z.of_nat (String.length body) = MergedConfig.length m
    /\ Forall (fun ch => ch ∈ list_ascii_of_string (CHARSETS (MergedConfig.charset m)))
              (list_ascii_of_string body)
    /\ ApiKey.prefix (ApiKeyCreateResult.record res) = MergedConfig.prefix m
    /\ ApiKey.suffix (ApiKeyCreateResult.record res)
       = slice_last4 (ApiKeyCreateResult.key res).
Proof.
  intros Hc m.
  destruct (create_Ok_inv _ _ _ _ _ Hc)
    as (row & Hraw & Hlen & _ & _ & _ & Hrec & Hrow).
  fold m in Hlen, Hrow. unfold rawKeyOf in Hraw. fold m in Hraw.
  destruct (generateRandomString _ _ _) as [body|] eqn:Hbody; [|done].
  injection Hraw as Hraw. exists body. split; [done|].
  split; [rewrite (generateRandomString_length _ _ _ _ Hbody); lia|].
  split; [by eapply generateRandomString_alphabet|].
  rewrite Hrec. by subst row.
Qed.

Lemma compress_length (h block : list Z) :
  length h = 8%nat -> length (SHA256.compress h block) = 8%nat.
Proof.
  intros Hh. unfold SHA256.compress. rewrite length_zip_with, Hh. done.
Qed.

Lemma digest_bytes (msg : list Z) :
  length (SHA256.digest msg) = 32%nat
  /\ Forall (fun b => 0 <= b < 256) (SHA256.digest msg).
Proof.
  unfold SHA256.digest.
  assert (forall blocks h, length h = 8%nat ->
            length (fold_left SHA256.compress blocks h) = 8%nat) as Hlen.
  { induction blocks as [|b blocks IH]; intros h Hh; simpl; [done|].
    apply IH. by apply compress_length. }
  specialize (Hlen (SHA256.chunks 64 (length (SHA256.pad msg)) (SHA256.pad msg))
                SHA256.H0 eq_refl).
  destruct (fold_left SHA256.compress _ SHA256.H0)
    as [|h0 [|h1 [|h2 [|h3 [|h4 [|h5 [|h6 [|h7 [|? ?]]]]]]]]]; try done.
  split; [done|].
  simpl. repeat (apply Forall_cons_2; [change 255 with (Z.ones 8);
    rewrite Z.land_ones by lia; apply Z.mod_pos_bound; lia|]).
  apply Forall_nil_2.
Qed.

Lemma hex_digit_is_hex (n : Z) :
  0 <= n < 16 -> isHexDigit (hex_digit n) = true.
Proof.
  intros Hn. replace n with (Z.of_nat (Z.to_nat n)) by lia.
  assert (Z.to_nat n < 16)%nat as Hlt by lia.
  revert Hlt. generalize (Z.to_nat n) as m. intros m Hlt.
  do 16 (destruct m as [|m]; [reflexivity|]). lia.
Qed.

Lemma concat_hex_bytes (bytes : list Z) :
  Forall (fun b => 0 <= b < 256) bytes ->
  String.length (String.concat EmptyString (hex_byte <$> bytes))
  = (2 * length bytes)%nat
  /\ Forall (fun ch => isHexDigit ch = true)
       (list_ascii_of_string (String.concat EmptyString (hex_byte <$> bytes))).
Proof.
  assert (forall b, 0 <= b < 256 ->
            Forall (fun ch => isHexDigit ch = true)
                   (list_ascii_of_string (hex_byte b))) as Hbyte.
  { intros b Hb. unfold hex_byte. simpl.
    apply Forall_cons_2; [apply hex_digit_is_hex;
                          split; [apply Z.div_pos; lia
                                 |apply Z.div_lt_upper_bound; lia]|].
    apply Forall_cons_2; [apply hex_digit_is_hex, Z.mod_pos_bound; lia|].
    apply Forall_nil_2. }
  induction 1 as [|b bytes Hb Hbs [IHl IHf]]; [split; [done | apply Forall_nil_2]|].
  destruct bytes as [|b' bytes].
  - simpl. split; [done | by apply Hbyte].
  - change (String.concat EmptyString (hex_byte <$> b :: b' :: bytes))
      with (hex_byte b +:+ EmptyString
            +:+ String.concat EmptyString (hex_byte <$> b' :: bytes)).
    change (EmptyString +:+ ?s) with s.
    rewrite length_append, list_ascii_append, IHl. split.
    + simpl. lia.
    + apply Forall_app. split; [by apply Hbyte | done].
Qed.

(** X2. Whatever the key, its hash is a string of 64 characters, all of them
    digits or letters from a to f. *)
Theorem hashKey_format (key : string) :
  String.length (hashKey key) = 64%nat
  /\ Forall (fun ch => isHexDigit ch = true) (list_ascii_of_string (hashKey key)).
Proof.
  unfold hashKey.
  destruct (digest_bytes (utf8_encode key)) as [Hlen Hbytes].
  destruct (concat_hex_bytes _ Hbytes) as [Hl Hf].
  rewrite Hl, Hlen. done.
Qed.

(** ** What [validate] changes in the store *)

Lemma purgeBefore_subset (threshold : Z) (rl : gmap (string * Z) Z)
    (k : string * Z) (c : Z) :
  purgeBefore threshold rl !! k = Some c -> rl !! k = Some c.
Proof.
  unfold purgeBefore. intros H. by apply map_lookup_filter_Some in H as [H _].
Qed.

(** X3. A validation that is refused leaves the table of keys as it was.
    Refused as [not_found], [revoked] or [expired] it leaves the whole store
    as it was; refused as [rate_limited] it creates no counter and increments
    none (it can only purge old ones). *)
Theorem validate_refusal_effects (key : string) (options : ValidateOptions.t)
    (clk : ValidateClock) (db : Database) :
  let db' := fst (validate key options clk db) in
  let res := snd (validate key options clk db) in
  (ApiKeyValidationResult.valid res = false -> api_keys db' = api_keys db)
  /\ (ApiKeyValidationResult.reason res = Some not_found
      \/ ApiKeyValidationResult.reason res = Some revoked
      \/ ApiKeyValidationResult.reason res = Some expired -> db' = db)
  /\ (ApiKeyValidationResult.reason res = Some rate_limited ->
      forall k c, rate_limit_records db' !! k = Some c ->
                  rate_limit_records db !! k = Some c).
Proof.
  unfold validate, validateHashed.
  destruct (selectByHash (hashKey key) db) as [row|];
    [|simpl; split; [done|]; split; [done|]; intros H; discriminate H].
  destruct (negb _);
    [simpl; split; [done|]; split; [done|]; intros H; discriminate H|].
  destruct (isExpired _ _);
    [simpl; split; [done|]; split; [done|]; intros H; discriminate H|].
  destruct (_ && _).
  - unfold checkRateLimit.
    destruct (overLimit _ _); simpl.
    + split; [done|]. split; [intros [H|[H|H]]; discriminate H|].
      intros _ k c. apply purgeBefore_subset.
    + destruct (default true _); simpl;
        (split; [intros H; discriminate H|]);
        (split; [intros [H|[H|H]]; discriminate H | intros H; discriminate H]).
  - destruct (default true _); simpl;
      (split; [intros H; discriminate H|]);
      (split; [intros [H|[H|H]]; discriminate H | intros H; discriminate H]).
Qed.

Lemma selectById_updateWhereId (keyId keyId' : string)
    (f : ApiKeyRow.t -> ApiKeyRow.t) (db : Database) :
  (forall r, ApiKeyRow.id (f r) = ApiKeyRow.id r) ->
  selectById keyId (fst (updateWhereId keyId' f db))
  = (fun r => if bool_decide (ApiKeyRow.id r = keyId') then f r else r)
      <$> selectById keyId db.
Proof.
  intros Hf. unfold selectById, updateWhereId. simpl.
  apply find_fmap_key. intros r.
  destruct (bool_decide (ApiKeyRow.id r = keyId')); [by rewrite Hf | done].
Qed.

(** X4. With [updateLastUsed: false], as the validation endpoint calls it,
    [validate] never changes the table of keys.  With the default, a
    successful validation stamps the key: [getById] then shows the instant
    written to [last_used_at] (or [null] when that instant is 0), every other
    field of the key being as before, and the keys with another identifier
    are untouched. *)
Theorem validate_last_used (key : string) (options : ValidateOptions.t)
    (clk : ValidateClock) (db : Database) :
  let db' := fst (validate key options clk db) in
  let res := snd (validate key options clk db) in
  (ApiKeyValidationResult.valid res = false
   \/ ValidateOptions.updateLastUsed options = Some false ->
   api_keys db' = api_keys db)
  /\ (ApiKeyValidationResult.valid res = true ->
      default true (ValidateOptions.updateLastUsed options) = true ->
      exists row k,
        selectByHash (hashKey key) db = Some row
        /\ getById (ApiKeyRow.id row) db = Some k
        /\ getById (ApiKeyRow.id row) db'
           = Some (if clk_update clk =? 0
                   then {| ApiKey.id := ApiKey.id k;
                           ApiKey.keyHash := ApiKey.keyHash k;
                           ApiKey.prefix := ApiKey.prefix k;
                           ApiKey.suffix := ApiKey.suffix k;
                           ApiKey.name := ApiKey.name k;
                           ApiKey.createdAt := ApiKey.createdAt k;
                           ApiKey.expiresAt := ApiKey.expiresAt k;
                           ApiKey.lastUsedAt := None;
                           ApiKey.isActive := ApiKey.isActive k;
                           ApiKey.metadata := ApiKey.metadata k;
                           ApiKey.scopes := ApiKey.scopes k;
                           ApiKey.rateLimit := ApiKey.rateLimit k |}
                   else withLastUsedAt (clk_update clk) k)
        /\ (forall keyId, keyId <> ApiKeyRow.id row ->
              getById keyId db' = getById keyId db)).
Proof.
  unfold validate, validateHashed.
  destruct (selectByHash (hashKey key) db) as [row|] eqn:Hsel;
    [|simpl; split; [done | intros H; discriminate H]].
  destruct (negb _); [simpl; split; [done | intros H; discriminate H]|].
  destruct (isExpired _ _); [simpl; split; [done | intros H; discriminate H]|].
  change (ApiKey.id (rowToApiKey row)) with (ApiKeyRow.id row).
  assert (exists r0, selectById (ApiKeyRow.id row) db = Some r0
                     /\ ApiKeyRow.id r0 = ApiKeyRow.id row) as (r0 & Hr0 & Hid0).
  { apply selectByHash_Some in Hsel as [Hin _].
    unfold selectById.
    destruct (List.find _ (api_keys db)) as [r0|] eqn:Hf.
    - exists r0. split; [done|]. apply find_Some_elem in Hf as [_ Hp].
      by apply bool_decide_eq_true in Hp.
    - rewrite find_None_elem in Hf. specialize (Hf row Hin).
      by apply bool_decide_eq_false in Hf. }
  assert (forall d : Database, api_keys d = api_keys db ->
            let d' := fst (updateWhereId (ApiKeyRow.id row)
                             (setLastUsed (clk_update clk)) d) in
            exists k,
              getById (ApiKeyRow.id row) db = Some k
              /\ getById (ApiKeyRow.id row) d'
                 = Some (if clk_update clk =? 0
                   then {| ApiKey.id := ApiKey.id k;
                           ApiKey.keyHash := ApiKey.keyHash k;
                           ApiKey.prefix := ApiKey.prefix k;
                           ApiKey.suffix := ApiKey.suffix k;
                           ApiKey.name := ApiKey.name k;
                           ApiKey.createdAt := ApiKey.createdAt k;
                           ApiKey.expiresAt := ApiKey.expiresAt k;
                           ApiKey.lastUsedAt := None;
                           ApiKey.isActive := ApiKey.isActive k;
                           ApiKey.metadata := ApiKey.metadata k;
                           ApiKey.scopes := ApiKey.scopes k;
                           ApiKey.rateLimit := ApiKey.rateLimit k |}
                   else withLastUsedAt (clk_update clk) k)
              /\ (forall keyId, keyId <> ApiKeyRow.id row ->
                    getById keyId d' = getById keyId db)) as Hstamp.
  { intros d Hd d'. subst d'. exists (rowToApiKey r0).
    assert (forall keyId, selectById keyId d = selectById keyId db) as Hsame
      by (intros keyId; unfold selectById; by rewrite Hd).
    unfold getById. rewrite Hr0. split; [done|]. split.
    - rewrite selectById_updateWhereId, Hsame, Hr0 by done. simpl.
      destruct (bool_decide _) eqn:Hb;
        [|by apply bool_decide_eq_false in Hb].
      unfold rowToApiKey, withLastUsedAt. simpl.
      by destruct (clk_update clk =? 0).
    - intros keyId Hne. rewrite selectById_updateWhereId, Hsame by done.
      destruct (selectById keyId db) as [r1|] eqn:Hf1; [|done].
      simpl. apply find_Some_elem in Hf1 as [_ Hp].
      apply bool_decide_eq_true in Hp.
      destruct (bool_decide _) eqn:Hb; [|done].
      apply bool_decide_eq_true in Hb. congruence. }
  destruct (_ && _).
  - unfold checkRateLimit.
    destruct (overLimit _ _); simpl; [split; [done | intros H; discriminate H]|].
    destruct (ValidateOptions.updateLastUsed options) as [[]|]; simpl.
    + split; [intros [H|H]; discriminate H|]. intros _ _.
      destruct (Hstamp {| api_keys := api_keys db;
                          rate_limit_records :=
                            upsertIncrement (ApiKeyRow.id row)
                              (windowStartOf (clk_rate clk))
                              (purgeBefore (windowStartOf (clk_rate clk) - 60000)
                                 (rate_limit_records db)) |} eq_refl)
        as (k & Hk & Hk' & Hother).
      exists row, k. done.
    + split; [done | intros _ H; discriminate H].
    + split; [intros [H|H]; discriminate H|]. intros _ _.
      destruct (Hstamp {| api_keys := api_keys db;
                          rate_limit_records :=
                            upsertIncrement (ApiKeyRow.id row)
                              (windowStartOf (clk_rate clk))
                              (purgeBefore (windowStartOf (clk_rate clk) - 60000)
                                 (rate_limit_records db)) |} eq_refl)
        as (k & Hk & Hk' & Hother).
      exists row, k. done.
  - destruct (ValidateOptions.updateLastUsed options) as [[]|]; simpl.
    + split; [intros [H|H]; discriminate H|]. intros _ _.
      destruct (Hstamp db eq_refl) as (k & Hk & Hk' & Hother).
      exists row, k. done.
    + split; [done | intros _ H; discriminate H].
    + split; [intros [H|H]; discriminate H|]. intros _ _.
      destruct (Hstamp db eq_refl) as (k & Hk & Hk' & Hother).
      exists row, k. done.
Qed.

Lemma validate_rows_cases (key : string) (options : ValidateOptions.t)
    (clk : ValidateClock) (db : Database) :
  api_keys (fst (validate key options clk db)) = api_keys db
  \/ exists keyId t,
       api_keys (fst (validate key options clk db))
       = api_keys (fst (updateWhereId keyId (setLastUsed t) db)).
Proof.
  unfold validate, validateHashed.
  destruct (selectByHash _ _) as [row|]; [|by left].
  destruct (negb _); [by left|]. destruct (isExpired _ _); [by left|].
  destruct (_ && _).
  - unfold checkRateLimit. destruct (overLimit _ _); simpl; [by left|].
    destruct (default true _); simpl; [right; eauto | by left].
  - destruct (default true _); simpl; [right; eauto | by left].
Qed.

Lemma selectByHash_same_rows (keyHash : string) (db db' : Database) :
  api_keys db' = api_keys db -> selectByHash keyHash db' = selectByHash keyHash db.
Proof. unfold selectByHash. by intros ->. Qed.

Lemma sameIdentity_refl (r : ApiKeyRow.t) : sameIdentity r r.
Proof. by repeat split. Qed.

Lemma sameIdentity_trans (r1 r2 r3 : ApiKeyRow.t) :
  sameIdentity r1 r2 -> sameIdentity r2 r3 -> sameIdentity r1 r3.
Proof. unfold sameIdentity. intuition congruence. Qed.

(** A validation, of this key or of another, keeps the row found for a hash
    with its identity and its flag. *)
Lemma validate_keeps_row (keyHash key : string) (options : ValidateOptions.t)
    (clk : ValidateClock) (db : Database) (row : ApiKeyRow.t) :
  selectByHash keyHash db = Some row ->
  exists row',
    selectByHash keyHash (fst (validate key options clk db)) = Some row'
    /\ sameIdentity row row'
    /\ ApiKeyRow.is_active row' = ApiKeyRow.is_active row.
Proof.
  intros Hsel.
  destruct (validate_rows_cases key options clk db) as [Hrows|(keyId & t & Hrows)].
  - exists row. rewrite (selectByHash_same_rows _ _ _ Hrows).
    split; [done|]. split; [apply sameIdentity_refl | done].
  - rewrite (selectByHash_same_rows _ _ _ Hrows), selectByHash_updateWhereId, Hsel.
    simpl. eexists. split; [done|].
    destruct (bool_decide _); split; (apply sameIdentity_refl || done).
Qed.

(** X5. A key without a rate limit ([null] or 0), or validated with
    [checkRateLimit: false], never touches the counters; and an active key
    that has no expiry and no rate limit is answered valid by every one of
    any number of successive validations. *)
Theorem validate_unlimited (key : string) (options : ValidateOptions.t)
    (db : Database) (row : ApiKeyRow.t) :
  selectByHash (hashKey key) db = Some row ->
  (truthy (ApiKeyRow.rate_limit row) = false
   \/ ValidateOptions.checkRateLimit options = Some false) ->
  (forall clk,
     rate_limit_records (fst (validate key options clk db)) = rate_limit_records db)
  /\ (ApiKeyRow.is_active row = 1 ->
      ApiKeyRow.expires_at row = None ->
      forall clks,
        Forall (fun res => ApiKeyValidationResult.valid res = true)
               (snd (validateAll key options clks db))
        /\ rate_limit_records (fst (validateAll key options clks db))
           = rate_limit_records db).
Proof.
  intros Hsel Hunl.
  assert (forall d r clk,
            selectByHash (hashKey key) d = Some r ->
            ApiKeyRow.rate_limit r = ApiKeyRow.rate_limit row ->
            rate_limit_records (fst (validate key options clk d))
            = rate_limit_records d) as Hstep.
  { intros d r clk Hd Hrl. unfold validate, validateHashed. rewrite Hd.
    destruct (negb _); [done|]. destruct (isExpired _ _); [done|].
    change (ApiKey.rateLimit (rowToApiKey r)) with (ApiKeyRow.rate_limit r).
    rewrite Hrl.
    assert (default true (ValidateOptions.checkRateLimit options)
            && truthy (ApiKeyRow.rate_limit row) = false) as ->.
    { destruct Hunl as [->| ->]; [apply andb_false_r | done]. }
    by destruct (default true _). }
  split; [intros clk; by eapply Hstep|].
  intros Hact Hexp clks. revert db row Hsel Hunl Hstep Hact Hexp.
  induction clks as [|clk clks IH]; intros db row Hsel Hunl Hstep Hact Hexp;
    [split; [apply Forall_nil_2 | done]|].
  cbn [validateAll].
  destruct (validate_found key options clk db row Hsel) as (_ & _ & _ & Hok).
  destruct (validate_keeps_row (hashKey key) key options clk db row Hsel)
    as (row' & Hsel' & Hsame & Hact').
  pose proof (Hstep db row clk Hsel eq_refl) as Hrl.
  destruct (validate key options clk db) as [db1 r]. simpl in *.
  destruct Hsame as (_ & _ & _ & _ & _ & Hexp' & Hrl').
  destruct (IH db1 row') as [IHv IHr].
  - done.
  - by rewrite Hrl'.
  - intros d r0 clk0 Hd Hr0. apply (Hstep d r0 clk0 Hd). congruence.
  - congruence.
  - congruence.
  - destruct (validateAll key options clks db1) as [db2 rs]. simpl in *.
    split; [|congruence]. apply Forall_cons_2; [|done].
    assert (isExpired (rowToApiKey row) (clk_expiry clk) = false) as Hne
      by (unfold isExpired; simpl; by rewrite Hexp).
    assert (rateLimited row options (clk_rate clk) db = false) as Hnl.
    { unfold rateLimited.
      destruct Hunl as [->| ->]; [by rewrite andb_false_r | done]. }
    by rewrite (Hok Hact Hne Hnl).
Qed.



(** ** Windows of the rate limiter *)

Lemma windowStartOf_mono (t1 t2 : Z) :
  t1 <= t2 -> windowStartOf t1 <= windowStartOf t2.
Proof.
  intros H. unfold windowStartOf.
  apply Z.mul_le_mono_nonneg_r; [lia|]. by apply Z.div_le_mono.
Qed.

Lemma windowStartOf_aligned (t : Z) : windowStartOf t mod 60000 = 0.
Proof. unfold windowStartOf. apply Z_mod_mult. Qed.

Lemma checkRateLimit_lookup (keyId : string) (limit now : Z) (db : Database)
    (k : string) (w : Z) :
  rate_limit_records (fst (checkRateLimit keyId limit now db)) !! (k, w)
  = if decide (w < windowStartOf now - 60000) then None
    else if decide ((k, w) = (keyId, windowStartOf now))
         then rate_limit_records (fst (checkRateLimit keyId limit now db))
                !! (keyId, windowStartOf now)
         else rate_limit_records db !! (k, w).
Proof.
  destruct (decide ((k, w) = (keyId, windowStartOf now))) as [[= -> ->]|Hne].
  - case_decide; [lia | done].
  - unfold checkRateLimit. destruct (overLimit _ _); simpl.
    + apply purgeBefore_lookup.
    + rewrite upsertIncrement_lookup_ne by done. apply purgeBefore_lookup.
Qed.

(** X8. When the counters in the store belong to windows that start on a
    minute, none after the current one, and the clock has not gone back, a
    call of [checkRateLimit] keeps that so and leaves only counters of the
    current and of the previous window; the counters of the other keys in
    those two windows are not touched. *)
Theorem checkRateLimit_windows (keyId : string) (limit now0 now : Z)
    (db : Database) :
  windows_ok now0 (rate_limit_records db) ->
  now0 <= now ->
  let ws := windowStartOf now in
  let rl' := rate_limit_records (fst (checkRateLimit keyId limit now db)) in
  windows_ok now rl'
  /\ (forall k w c, rl' !! (k, w) = Some c -> w = ws \/ w = ws - 60000)
  /\ (forall k w, k <> keyId -> w = ws \/ w = ws - 60000 ->
        rl' !! (k, w) = rate_limit_records db !! (k, w)).
Proof.
  intros Hok Hmono ws rl'. subst rl'.
  pose proof (windowStartOf_mono _ _ Hmono) as Hws. fold ws in Hws.
  pose proof (windowStartOf_aligned now) as Hal. fold ws in Hal.
  assert (forall k w c,
            rate_limit_records (fst (checkRateLimit keyId limit now db)) !! (k, w)
            = Some c ->
            w mod 60000 = 0 /\ ws - 60000 <= w <= ws) as Hin.
  { intros k w c. rewrite checkRateLimit_lookup. fold ws.
    case_decide; [done|]. case_decide as Heq.
    - injection Heq as -> ->. intros _. lia.
    - intros Hlk. destruct (Hok k w c Hlk) as [Hm Hle]. lia. }
  split; [|split].
  - intros k w c Hlk. destruct (Hin k w c Hlk). split; [done | fold ws; lia].
  - intros k w c Hlk. destruct (Hin k w c Hlk) as [Hm Hr].
    apply Z.mod_divide in Hm as [q Hq]; [|lia].
    apply Z.mod_divide in Hal as [q' Hq']; [|lia]. lia.
  - intros k w Hne Hw. rewrite checkRateLimit_lookup. fold ws.
    case_decide; [lia|]. case_decide as Heq; [|done].
    by injection Heq as -> ->.
Qed.

(** X9. The windows are independent: under the same conditions, the first
    call that falls in a later window than every counter of the store is
    permitted whatever the limit and whatever was counted before, and starts
    the counter of its window at 1. *)
Theorem checkRateLimit_new_window (keyId : string) (limit now0 now : Z)
    (db : Database) :
  windows_ok now0 (rate_limit_records db) ->
  windowStartOf now0 < windowStartOf now ->
  snd (checkRateLimit keyId limit now db) = false
  /\ rate_limit_records (fst (checkRateLimit keyId limit now db))
       !! (keyId, windowStartOf now) = Some 1.
Proof.
  intros Hok Hlt.
  assert (rate_limit_records db !! (keyId, windowStartOf now) = None) as Hnone.
  { destruct (rate_limit_records db !! _) as [c|] eqn:E; [|done].
    destruct (Hok _ _ _ E) as [_ Hle]. lia. }
  destruct (checkRateLimit_counter keyId limit now db) as (Hans & Hcnt & _).
  simpl in Hans, Hcnt. rewrite Hnone in Hans, Hcnt. done.
Qed.

(** X10. A limit that is zero or negative does not close a key: with no
    counter yet for the window, the first call of the window is permitted and
    every later one of that window is rejected, the counter staying at 1. *)
Theorem checkRateLimit_nonpositive_limit (keyId : string) (limit w : Z)
    (nows : list Z) (db : Database) :
  limit <= 0 ->
  Forall (fun t => windowStartOf t = w) nows ->
  rate_limit_records db !! (keyId, w) = None ->
  snd (checkRateLimitAll keyId limit nows db)
  = (fun i => negb (Nat.eqb i 0)) <$> seq 0 (length nows)
  /\ (nows <> [] ->
      rate_limit_records (fst (checkRateLimitAll keyId limit nows db))
        !! (keyId, w) = Some 1).
Proof.
  intros Hlimit Hw Hnone.
  assert (forall l d,
            Forall (fun t => windowStartOf t = w) l ->
            rate_limit_records d !! (keyId, w) = Some 1 ->
            snd (checkRateLimitAll keyId limit l d) = replicate (length l) true
            /\ rate_limit_records (fst (checkRateLimitAll keyId limit l d))
                 !! (keyId, w) = Some 1) as Hrest.
  { induction l as [|t l IH]; intros d Hl Hd; [done|].
    apply Forall_cons in Hl as [Ht Hl]. cbn [checkRateLimitAll].
    destruct (checkRateLimit_counter keyId limit t d) as (Hans & Hcnt & _).
    simpl in Hans, Hcnt. rewrite Ht, Hd in Hans, Hcnt. simpl in Hans, Hcnt.
    replace (limit <=? 1) with true in * by (symmetry; apply Z.leb_le; lia).
    destruct (checkRateLimit keyId limit t d) as [d1 b]. simpl in *. subst b.
    destruct (IH d1 Hl Hcnt) as [IHa IHc].
    destruct (checkRateLimitAll keyId limit l d1) as [d2 bs]. simpl in *.
    by rewrite IHa. }
  destruct nows as [|t nows]; [done|].
  apply Forall_cons in Hw as [Ht Hw]. cbn [checkRateLimitAll].
  destruct (checkRateLimit_counter keyId limit t db) as (Hans & Hcnt & _).
  simpl in Hans, Hcnt. rewrite Ht, Hnone in Hans, Hcnt. simpl in Hans, Hcnt.
  destruct (checkRateLimit keyId limit t db) as [d1 b]. simpl in *. subst b.
  destruct (Hrest nows d1 Hw Hcnt) as [Ha Hc].
  destruct (checkRateLimitAll keyId limit nows d1) as [d2 bs]. simpl in *.
  split; [|done]. rewrite Ha. f_equal.
  rewrite <- fmap_S_seq, <- list_fmap_compose.
  assert (forall n s, replicate n true
                      = (fun i => negb (Nat.eqb i 0)) ∘ S <$> seq s n) as Hrep.
  { induction n as [|n IH]; intros s; [done|]. simpl. f_equal. apply IH. }
  apply Hrep.
Qed.

(** ** Life cycle of a key *)

Lemma find_app_fresh {A : Type} (p : A -> bool) (l : list A) (x : A) :
  (forall y, y ∈ l -> p y = false) ->
  List.find p (l ++ [x]) = if p x then Some x else None.
Proof.
  induction l as [|y l IH]; intros H; simpl; [done|].
  rewrite (H y) by left. apply IH. intros z Hz. apply H. by right.
Qed.

Lemma find_app_old {A : Type} (p : A -> bool) (l : list A) (x : A) :
  p x = false -> List.find p (l ++ [x]) = List.find p l.
Proof.
  intros Hx. induction l as [|y l IH]; simpl; [by rewrite Hx|].
  by destruct (p y).
Qed.

Lemma find_filter {A : Type} (p q : A -> bool) (l : list A) :
  (forall x, p x = true -> q x = true) ->
  List.find p (List.filter q l) = List.find p l.
Proof.
  intros Hpq. induction l as [|x l IH]; simpl; [done|].
  destruct (q x) eqn:Hq; simpl.
  - by destruct (p x).
  - destruct (p x) eqn:Hp; [|done]. rewrite (Hpq x Hp) in Hq. done.
Qed.

(** X11. After a successful [create], [getById] with the identifier of the
    returned record returns that very record, and answers for every other
    identifier as before. *)
Theorem create_then_getById (config : ApiKeyConfig.t) (env : CreateEnv)
    (db db' : Database) (res : ApiKeyCreateResult.t) :
  create config env db = (db', Ok res) ->
  getById (ApiKey.id (ApiKeyCreateResult.record res)) db'
  = Some (ApiKeyCreateResult.record res)
  /\ (forall keyId, keyId <> ApiKey.id (ApiKeyCreateResult.record res) ->
        getById keyId db' = getById keyId db).
Proof.
  intros Hc.
  destruct (create_Ok_inv _ _ _ _ _ Hc)
    as (row & _ & _ & Hfresh & Hrows & _ & Hrec & Hrow).
  assert (ApiKeyRow.id row = env_uuid env) as Hid by (by subst row).
  rewrite Hrec. change (ApiKey.id (rowToApiKey row)) with (ApiKeyRow.id row).
  unfold getById, selectById. rewrite Hrows. split.
  - rewrite find_app_fresh.
    + by rewrite bool_decide_eq_true_2.
    + intros r Hr. apply bool_decide_eq_false_2. rewrite Hid.
      by apply Hfresh.
  - intros keyId Hne. rewrite find_app_old; [done|].
    apply bool_decide_eq_false_2. congruence.
Qed.

Lemma updateWhereId_columns (keyId : string) (f : ApiKeyRow.t -> ApiKeyRow.t)
    (db : Database) :
  (forall r, sameIdentity r (f r)) ->
  ApiKeyRow.id <$> api_keys (fst (updateWhereId keyId f db))
  = ApiKeyRow.id <$> api_keys db
  /\ ApiKeyRow.key_hash <$> api_keys (fst (updateWhereId keyId f db))
     = ApiKeyRow.key_hash <$> api_keys db.
Proof.
  intros Hf. unfold updateWhereId. simpl. rewrite <- !list_fmap_compose.
  split; apply list_fmap_ext; intros i r _; simpl;
    destruct (bool_decide _); try done; by destruct (Hf r) as (? & ? & _).
Qed.

Lemma keys_unique_updateWhereId (keyId : string)
    (f : ApiKeyRow.t -> ApiKeyRow.t) (db : Database) :
  (forall r, sameIdentity r (f r)) ->
  keys_unique db -> keys_unique (fst (updateWhereId keyId f db)).
Proof.
  intros Hf [H1 H2]. unfold keys_unique.
  destruct (updateWhereId_columns keyId f db Hf) as [-> ->]. done.
Qed.

Lemma NoDup_fmap_filter {A B : Type} (g : A -> B) (p : A -> bool) (l : list A) :
  NoDup (g <$> l) -> NoDup (g <$> List.filter p l).
Proof.
  induction l as [|x l IH]; simpl; [done|].
  rewrite NoDup_cons. intros [Hx Hl]. destruct (p x); simpl; [|by apply IH].
  apply NoDup_cons. split; [|by apply IH].
  intros Hin. apply Hx. apply list_elem_of_fmap in Hin as (y & -> & Hy).
  apply list_elem_of_fmap. exists y. split; [done|].
  apply list_elem_of_In in Hy. apply List.filter_In in Hy as [Hy _].
  by apply list_elem_of_In.
Qed.

Lemma keys_unique_validate (key : string) (options : ValidateOptions.t)
    (clk : ValidateClock) (db : Database) :
  keys_unique db -> keys_unique (fst (validate key options clk db)).
Proof.
  intros Hu. unfold keys_unique.
  destruct (validate_rows_cases key options clk db) as [->|(keyId & t & ->)];
    [done|].
  by apply keys_unique_updateWhereId.
Qed.

Lemma create_Err_inv (config : ApiKeyConfig.t) (env : CreateEnv)
    (db db' : Database) (e : Error) :
  create config env db = (db', Err e) -> db' = db.
Proof.
  unfold create, bind, lift, ret, generateRandomString.
  destruct (MergedConfig.length (mergeConfig config) <? 0);
    [by intros [= <- _]|].
  cbv beta iota zeta. unfold insertApiKey.
  cbn [ApiKeyRow.id ApiKeyRow.key_hash].
  destruct (existsb _ (api_keys db)); [by intros [= <- _] | done].
Qed.

Lemma keys_unique_create (config : ApiKeyConfig.t) (env : CreateEnv)
    (db : Database) :
  keys_unique db -> keys_unique (fst (create config env db)).
Proof.
  intros [H1 H2].
  destruct (create config env db) as [db' [res|e]] eqn:Hc.
  - destruct (create_Ok_inv _ _ _ _ _ Hc)
      as (row & _ & _ & Hfresh & Hrows & _ & _ & Hrow).
    unfold keys_unique. simpl. rewrite Hrows, !fmap_app. simpl.
    assert (ApiKeyRow.id row = env_uuid env) as Hid by (by subst row).
    assert (ApiKeyRow.key_hash row = hashKey (ApiKeyCreateResult.key res))
      as Hh by (by subst row).
    split; apply NoDup_app; (split; [done|]);
      (split; [|apply NoDup_singleton]);
      intros x Hx Hx'; apply list_elem_of_singleton in Hx'; subst x;
      apply list_elem_of_fmap in Hx as (r & Heq & Hr);
      destruct (Hfresh r Hr) as [Hn1 Hn2]; congruence.
  - by rewrite (create_Err_inv _ _ _ _ _ Hc).
Qed.

Lemma selectByHash_updateWhereId_any (keyHash keyId : string)
    (f : ApiKeyRow.t -> ApiKeyRow.t) (db : Database) :
  (forall r, ApiKeyRow.key_hash (f r) = ApiKeyRow.key_hash r) ->
  selectByHash keyHash (fst (updateWhereId keyId f db))
  = (fun r => if bool_decide (ApiKeyRow.id r = keyId) then f r else r)
      <$> selectByHash keyHash db.
Proof.
  intros Hf. unfold selectByHash, updateWhereId. simpl.
  apply find_fmap_key. intros r.
  destruct (bool_decide (ApiKeyRow.id r = keyId)); [by rewrite Hf | done].
Qed.

Lemma sameIdentity_setters (r : ApiKeyRow.t) :
  sameIdentity r (setInactive r)
  /\ (forall t, sameIdentity r (setLastUsed t r))
  /\ (forall name, sameIdentity r (setName name r))
  /\ (forall metadata, sameIdentity r (setMetadata metadata r))
  /\ (forall scopes, sameIdentity r (setScopes scopes r)).
Proof. by repeat split. Qed.

Lemma keys_unique_applyOp (cascade : bool) (db : Database) (op : Op) :
  keys_unique db -> keys_unique (applyOp cascade db op).
Proof.
  intros Hu. destruct op as [config env|key options clk|keyId|keyId|keyId name
                            |keyId metadata|keyId scopes]; simpl.
  - by apply keys_unique_create.
  - by apply keys_unique_validate.
  - unfold revoke.
    pose proof (keys_unique_updateWhereId keyId setInactive db
                  (fun r => proj1 (sameIdentity_setters r)) Hu) as H.
    exact H.
  - destruct Hu as [H1 H2]. unfold keys_unique, deleteApiKey. simpl.
    split; by apply NoDup_fmap_filter.
  - unfold rename.
    pose proof (keys_unique_updateWhereId keyId (setName name) db
                  (fun r => sameIdentity_refl r) Hu) as H.
    exact H.
  - unfold updateMetadata.
    pose proof (keys_unique_updateWhereId keyId (setMetadata metadata) db
                  (fun r => sameIdentity_refl r) Hu) as H.
    exact H.
  - unfold updateScopes.
    pose proof (keys_unique_updateWhereId keyId (setScopes scopes) db
                  (fun r => sameIdentity_refl r) Hu) as H.
    exact H.
Qed.

(** X12. The identifiers and the key hashes of the stored keys stay pairwise
    distinct under every sequence of [create], [validate], [revoke],
    [delete], [rename], [updateMetadata] and [updateScopes]. *)
Theorem keys_unique_applyOps (cascade : bool) (ops : list Op) (db : Database) :
  keys_unique db -> keys_unique (applyOps cascade ops db).
Proof.
  unfold applyOps. revert db.
  induction ops as [|op ops IH]; intros db Hu; [done|].
  simpl. apply IH. by apply keys_unique_applyOp.
Qed.

Lemma updateWhereId_keeps (keyId : string) (f : ApiKeyRow.t -> ApiKeyRow.t)
    (db : Database) (r : ApiKeyRow.t) :
  (forall x, sameIdentity x (f x)) ->
  (forall x, ApiKeyRow.is_active x = 0 -> ApiKeyRow.is_active (f x) = 0) ->
  r ∈ api_keys db ->
  exists r', r' ∈ api_keys (fst (updateWhereId keyId f db))
             /\ sameIdentity r r'
             /\ (ApiKeyRow.is_active r = 0 -> ApiKeyRow.is_active r' = 0).
Proof.
  intros Hf Hflag Hr. unfold updateWhereId. simpl.
  exists (if bool_decide (ApiKeyRow.id r = keyId) then f r else r).
  split; [apply list_elem_of_fmap; by exists r|].
  destruct (bool_decide _); [by split; [apply Hf | apply Hflag]|].
  split; [apply sameIdentity_refl | done].
Qed.

Lemma applyOp_keeps (cascade : bool) (db : Database) (op : Op)
    (r : ApiKeyRow.t) :
  r ∈ api_keys db ->
  ~ deletes (ApiKeyRow.id r) op ->
  exists r', r' ∈ api_keys (applyOp cascade db op)
             /\ sameIdentity r r'
             /\ (ApiKeyRow.is_active r = 0 -> ApiKeyRow.is_active r' = 0).
Proof.
  intros Hr Hnd.
  destruct op as [config env|key options clk|keyId|keyId|keyId name
                 |keyId metadata|keyId scopes]; simpl.
  - exists r. split; [|split; [apply sameIdentity_refl | done]].
    destruct (create config env db) as [db' [res|e]] eqn:Hc; simpl.
    + destruct (create_Ok_inv _ _ _ _ _ Hc) as (row & _ & _ & _ & -> & _).
      apply elem_of_app. by left.
    + by rewrite (create_Err_inv _ _ _ _ _ Hc).
  - destruct (validate_rows_cases key options clk db) as [->|(keyId & t & ->)].
    + exists r. split; [done|]. split; [apply sameIdentity_refl | done].
    + apply updateWhereId_keeps; [|done..].
      intros x. apply sameIdentity_setters.
  - unfold revoke.
    pose proof (updateWhereId_keeps keyId setInactive db r
                  (fun x => proj1 (sameIdentity_setters x))
                  (fun x _ => eq_refl) Hr) as H.
    exact H.
  - exists r. split; [|split; [apply sameIdentity_refl | done]].
    unfold deleteApiKey. simpl. apply list_elem_of_In, List.filter_In.
    split; [by apply list_elem_of_In|].
    apply negb_true_iff, bool_decide_eq_false_2. simpl in Hnd. congruence.
  - unfold rename.
    pose proof (updateWhereId_keeps keyId (setName name) db r
                  (fun x => sameIdentity_refl x) (fun x Hx => Hx) Hr) as H.
    exact H.
  - unfold updateMetadata.
    pose proof (updateWhereId_keeps keyId (setMetadata metadata) db r
                  (fun x => sameIdentity_refl x) (fun x Hx => Hx) Hr) as H.
    exact H.
  - unfold updateScopes.
    pose proof (updateWhereId_keeps keyId (setScopes scopes) db r
                  (fun x => sameIdentity_refl x) (fun x Hx => Hx) Hr) as H.
    exact H.
Qed.

(** X13. Until it is deleted a key stays in the store with the same [id],
    [key_hash], [prefix], [suffix], [created_at], [expires_at] and
    [rate_limit], whatever operations are run; and once revoked it stays
    revoked: no operation sets [is_active] back. *)
Theorem key_persists_and_stays_revoked (cascade : bool) (ops : list Op)
    (db : Database) (r : ApiKeyRow.t) :
  r ∈ api_keys db ->
  Forall (fun op => ~ deletes (ApiKeyRow.id r) op) ops ->
  exists r', r' ∈ api_keys (applyOps cascade ops db)
             /\ sameIdentity r r'
             /\ (ApiKeyRow.is_active r = 0 -> ApiKeyRow.is_active r' = 0).
Proof.
  unfold applyOps. revert db r.
  induction ops as [|op ops IH]; intros db r Hr Hops.
  - exists r. split; [done|]. split; [apply sameIdentity_refl | done].
  - apply Forall_cons in Hops as [Hop Hops]. simpl.
    destruct (applyOp_keeps cascade db op r Hr Hop) as (r1 & Hr1 & Hs1 & Ha1).
    destruct (IH (applyOp cascade db op) r1 Hr1) as (r2 & Hr2 & Hs2 & Ha2).
    + destruct Hs1 as [Hid _]. by rewrite Hid.
    + exists r2. split; [done|].
      split; [by eapply sameIdentity_trans | auto].
Qed.

(** X14. Revoking the key that a raw key designates makes every later
    validation of that raw key answer [revoked], with the key shown as
    inactive, whatever its expiry and its counters; and that validation
    leaves the store as it is. *)
Theorem revoke_then_validate (key : string) (options : ValidateOptions.t)
    (clk : ValidateClock) (db : Database) (row : ApiKeyRow.t) :
  selectByHash (hashKey key) db = Some row ->
  let db1 := fst (revoke (ApiKeyRow.id row) db) in
  snd (revoke (ApiKeyRow.id row) db) = true
  /\ exists k,
       validate key options clk db1 = (db1, invalid revoked (Some k))
       /\ ApiKey.id k = ApiKeyRow.id row
       /\ ApiKey.isActive k = false.
Proof.
  intros Hsel db1. split.
  - unfold revoke, updateWhereId. simpl. apply Z.ltb_lt, filter_length_pos.
    exists row. apply selectByHash_Some in Hsel as [Hin _].
    split; [done | by apply bool_decide_eq_true_2].
  - assert (selectByHash (hashKey key) db1 = Some (setInactive row)) as Hsel1.
    { subst db1. unfold revoke.
      pose proof (selectByHash_updateWhereId_any (hashKey key) (ApiKeyRow.id row)
                    setInactive db (fun r => eq_refl)) as Hfind.
      destruct (updateWhereId (ApiKeyRow.id row) setInactive db) as [d n].
      simpl in *. rewrite Hfind, Hsel. simpl.
      by rewrite bool_decide_eq_true_2. }
    exists (rowToApiKey (setInactive row)).
    unfold validate, validateHashed. rewrite Hsel1. done.
Qed.

Lemma filter_all {A : Type} (p : A -> bool) (l : list A) :
  (forall x, x ∈ l -> p x = true) -> List.filter p l = l.
Proof.
  induction l as [|x l IH]; intros H; simpl; [done|].
  rewrite (H x) by left. f_equal. apply IH. intros y Hy. apply H. by right.
Qed.

(** X15. [delete] answers [true] exactly when a key with the identifier
    exists.  Afterwards [getById] finds nothing for it and answers for the
    other identifiers as before; when the key hashes are distinct, the raw
    key of a deleted key is answered [not_found]; the counters of the other
    keys are kept, and those of the deleted key are gone when the store
    cascades.  When no key has the identifier the store is left as it was. *)
Theorem deleteApiKey_effects (cascade : bool) (keyId : string) (db : Database) :
  let db' := fst (deleteApiKey cascade keyId db) in
  (snd (deleteApiKey cascade keyId db) = true
   <-> exists r, r ∈ api_keys db /\ ApiKeyRow.id r = keyId)
  /\ getById keyId db' = None
  /\ (forall keyId', keyId' <> keyId -> getById keyId' db' = getById keyId' db)
  /\ (keys_unique db ->
      forall key options clk row,
        selectByHash (hashKey key) db = Some row ->
        ApiKeyRow.id row = keyId ->
        validate key options clk db' = (db', invalid not_found None))
  /\ (forall k w, k <> keyId ->
        rate_limit_records db' !! (k, w) = rate_limit_records db !! (k, w))
  /\ (cascade = true -> snd (deleteApiKey cascade keyId db) = true ->
      forall w, rate_limit_records db' !! (keyId, w) = None)
  /\ (snd (deleteApiKey cascade keyId db) = false -> db' = db).
Proof.
  intros db'.
  assert (snd (deleteApiKey cascade keyId db) = true
          <-> exists r, r ∈ api_keys db /\ ApiKeyRow.id r = keyId) as Hiff.
  { unfold deleteApiKey. simpl. rewrite Z.ltb_lt, filter_length_pos.
    split; intros (r & Hr & Hid); exists r; split; try done.
    - by apply bool_decide_eq_true in Hid.
    - by apply bool_decide_eq_true_2. }
  split; [done|]. split; [|split; [|split; [|split; [|split]]]].
  - unfold getById, selectById. subst db'. unfold deleteApiKey. simpl.
    destruct (List.find _ _) as [r|] eqn:Hf; [|done].
    apply find_Some_elem in Hf as [Hin Hp].
    apply list_elem_of_In, List.filter_In in Hin as [_ Hq].
    rewrite Hp in Hq. done.
  - intros keyId' Hne. unfold getById, selectById. subst db'.
    unfold deleteApiKey. simpl. rewrite find_filter; [done|].
    intros r Hp. apply bool_decide_eq_true in Hp.
    apply negb_true_iff, bool_decide_eq_false_2. congruence.
  - intros [_ Huniq] key options clk row Hsel Hid.
    assert (selectByHash (hashKey key) db' = None) as Hnone.
    { apply selectByHash_None. intros r Hr Hh. subst db'.
      unfold deleteApiKey in Hr. simpl in Hr.
      apply list_elem_of_In, List.filter_In in Hr as [Hr Hq].
      apply list_elem_of_In in Hr.
      apply selectByHash_Some in Hsel as [Hrow Hhrow].
      apply negb_true_iff, bool_decide_eq_false in Hq.
      apply Hq. rewrite <- Hid. f_equal.
      apply list_elem_of_lookup in Hr as [i Hi].
      apply list_elem_of_lookup in Hrow as [j Hj].
      assert (i = j) as ->; [|congruence].
      eapply NoDup_lookup; [exact Huniq|..];
        rewrite list_lookup_fmap; [by rewrite Hi | rewrite Hj; simpl; congruence]. }
    unfold validate, validateHashed. by rewrite Hnone.
  - intros k w Hne. subst db'. unfold deleteApiKey. simpl.
    destruct (_ && _); [|done].
    rewrite map_lookup_filter.
    destruct (rate_limit_records db !! (k, w)) as [c|]; [|done]. simpl.
    by rewrite option_guard_True.
  - intros -> Htrue w. subst db'. unfold deleteApiKey in *. simpl in *.
    rewrite Htrue. rewrite map_lookup_filter.
    destruct (rate_limit_records db !! (keyId, w)) as [c|]; [|done]. simpl.
    by rewrite option_guard_False by (simpl; intros H; by apply H).
  - intros Hfalse. subst db'. unfold deleteApiKey in *. simpl in *.
    rewrite Hfalse, andb_false_r.
    destruct db as [rows rl]. simpl in *. f_equal.
    apply filter_all. intros r Hr. apply negb_true_iff.
    destruct (bool_decide (ApiKeyRow.id r = keyId)) eqn:Hb; [|done].
    apply Z.ltb_ge in Hfalse.
    assert (0 < Z.of_nat
                  (List.length
                     (List.filter (fun r => bool_decide (ApiKeyRow.id r = keyId))
                        rows))); [|lia].
    apply filter_length_pos. by exists r.
Qed.

Lemma getById_updateWhereId (keyId keyId' : string)
    (f : ApiKeyRow.t -> ApiKeyRow.t) (db : Database) :
  (forall r, ApiKeyRow.id (f r) = ApiKeyRow.id r) ->
  getById keyId' (fst (updateWhereId keyId f db))
  = (if bool_decide (keyId' = keyId)
     then (fun r => rowToApiKey (f r)) <$> selectById keyId' db
     else getById keyId' db).
Proof.
  intros Hf. unfold getById. rewrite selectById_updateWhereId by done.
  destruct (selectById keyId' db) as [r|] eqn:Hsel; simpl;
    [|by destruct (bool_decide _)].
  apply find_Some_elem in Hsel as [_ Hp]. apply bool_decide_eq_true in Hp.
  rewrite Hp. by destruct (bool_decide (keyId' = keyId)).
Qed.

(** X16. [rename], [updateMetadata] and [updateScopes] answer [true] exactly
    when a key with the identifier exists; [getById] then shows that key with
    the new value in place of the old one and every other field as before,
    and shows the keys with another identifier unchanged. *)
Theorem mutators_replace (keyId : string) (db : Database) :
  (forall name,
     (snd (rename keyId name db) = true <-> is_Some (getById keyId db))
     /\ (forall k, getById keyId db = Some k ->
           getById keyId (fst (rename keyId name db))
           = Some {| ApiKey.id := ApiKey.id k;
                     ApiKey.keyHash := ApiKey.keyHash k;
                     ApiKey.prefix := ApiKey.prefix k;
                     ApiKey.suffix := ApiKey.suffix k;
                     ApiKey.name := Some name;
                     ApiKey.createdAt := ApiKey.createdAt k;
                     ApiKey.expiresAt := ApiKey.expiresAt k;
                     ApiKey.lastUsedAt := ApiKey.lastUsedAt k;
                     ApiKey.isActive := ApiKey.isActive k;
                     ApiKey.metadata := ApiKey.metadata k;
                     ApiKey.scopes := ApiKey.scopes k;
                     ApiKey.rateLimit := ApiKey.rateLimit k |})
     /\ (forall keyId', keyId' <> keyId ->
           getById keyId' (fst (rename keyId name db)) = getById keyId' db))
  /\ (forall metadata,
        (snd (updateMetadata keyId metadata db) = true
         <-> is_Some (getById keyId db))
        /\ (forall k, getById keyId db = Some k ->
              getById keyId (fst (updateMetadata keyId metadata db))
              = Some {| ApiKey.id := ApiKey.id k;
                        ApiKey.keyHash := ApiKey.keyHash k;
                        ApiKey.prefix := ApiKey.prefix k;
                        ApiKey.suffix := ApiKey.suffix k;
                        ApiKey.name := ApiKey.name k;
                        ApiKey.createdAt := ApiKey.createdAt k;
                        ApiKey.expiresAt := ApiKey.expiresAt k;
                        ApiKey.lastUsedAt := ApiKey.lastUsedAt k;
                        ApiKey.isActive := ApiKey.isActive k;
                        ApiKey.metadata := metadata;
                        ApiKey.scopes := ApiKey.scopes k;
                        ApiKey.rateLimit := ApiKey.rateLimit k |})
        /\ (forall keyId', keyId' <> keyId ->
              getById keyId' (fst (updateMetadata keyId metadata db))
              = getById keyId' db))
  /\ (forall scopes,
        (snd (updateScopes keyId scopes db) = true
         <-> is_Some (getById keyId db))
        /\ (forall k, getById keyId db = Some k ->
              getById keyId (fst (updateScopes keyId scopes db))
              = Some {| ApiKey.id := ApiKey.id k;
                        ApiKey.keyHash := ApiKey.keyHash k;
                        ApiKey.prefix := ApiKey.prefix k;
                        ApiKey.suffix := ApiKey.suffix k;
                        ApiKey.name := ApiKey.name k;
                        ApiKey.createdAt := ApiKey.createdAt k;
                        ApiKey.expiresAt := ApiKey.expiresAt k;
                        ApiKey.lastUsedAt := ApiKey.lastUsedAt k;
                        ApiKey.isActive := ApiKey.isActive k;
                        ApiKey.metadata := ApiKey.metadata k;
                        ApiKey.scopes := scopes;
                        ApiKey.rateLimit := ApiKey.rateLimit k |})
        /\ (forall keyId', keyId' <> keyId ->
              getById keyId' (fst (updateScopes keyId scopes db))
              = getById keyId' db)).
Proof.
  assert (forall f : ApiKeyRow.t -> ApiKeyRow.t,
            (0 <? snd (updateWhereId keyId f db)) = true
            <-> is_Some (getById keyId db)) as Hiff.
  { intros f. unfold updateWhereId. simpl. rewrite Z.ltb_lt, filter_length_pos.
    unfold getById, selectById. split.
    - intros (r & Hr & Hp).
      destruct (List.find _ (api_keys db)) as [r'|] eqn:Hf; [by eexists|].
      rewrite find_None_elem in Hf. rewrite (Hf r Hr) in Hp. done.
    - intros [k Hk].
      destruct (List.find _ (api_keys db)) as [r'|] eqn:Hf; [|done].
      apply find_Some_elem in Hf. by exists r'. }
  assert (forall (f : ApiKeyRow.t -> ApiKeyRow.t) keyId',
            (forall r, ApiKeyRow.id (f r) = ApiKeyRow.id r) ->
            keyId' <> keyId ->
            getById keyId' (fst (updateWhereId keyId f db)) = getById keyId' db)
    as Hother.
  { intros f keyId' Hf Hne. rewrite getById_updateWhereId by done.
    by rewrite bool_decide_eq_false_2. }
  assert (forall (f : ApiKeyRow.t -> ApiKeyRow.t) k,
            (forall r, ApiKeyRow.id (f r) = ApiKeyRow.id r) ->
            getById keyId db = Some k ->
            exists r, k = rowToApiKey r
                      /\ getById keyId (fst (updateWhereId keyId f db))
                         = Some (rowToApiKey (f r))) as Hself.
  { intros f k Hf Hk. rewrite getById_updateWhereId by done.
    rewrite bool_decide_eq_true_2 by done. unfold getById in Hk.
    destruct (selectById keyId db) as [r|]; [|done].
    injection Hk as <-. by exists r. }
  split; [|split].
  - intros name. unfold rename.
    specialize (Hiff (setName name)).
    pose proof (Hself (setName name)) as Hs.
    pose proof (Hother (setName name)) as Ho.
    destruct (updateWhereId keyId (setName name) db) as [d n]. simpl in *.
    split; [done|]. split; [|intros k' Hne; by apply Ho].
    intros k Hk. destruct (Hs k (fun r => eq_refl) Hk) as (r & -> & ->). done.
  - intros metadata. unfold updateMetadata.
    specialize (Hiff (setMetadata metadata)).
    pose proof (Hself (setMetadata metadata)) as Hs.
    pose proof (Hother (setMetadata metadata)) as Ho.
    destruct (updateWhereId keyId (setMetadata metadata) db) as [d n]. simpl in *.
    split; [done|]. split; [|intros k' Hne; by apply Ho].
    intros k Hk. destruct (Hs k (fun r => eq_refl) Hk) as (r & -> & ->). done.
  - intros scopes. unfold updateScopes.
    specialize (Hiff (setScopes scopes)).
    pose proof (Hself (setScopes scopes)) as Hs.
    pose proof (Hother (setScopes scopes)) as Ho.
    destruct (updateWhereId keyId (setScopes scopes) db) as [d n]. simpl in *.
    split; [done|]. split; [|intros k' Hne; by apply Ho].
    intros k Hk. destruct (Hs k (fun r => eq_refl) Hk) as (r & -> & ->). done.
Qed.

(** ** Listing *)

Section ListingProperties.

Variable orderByCreatedAtDesc : list ApiKeyRow.t -> list ApiKeyRow.t.

Lemma sqlLimitOffset_elem {A : Type} (limit offset : Z) (rows : list A) (x : A) :
  x ∈ sqlLimitOffset limit offset rows -> x ∈ rows.
Proof.
  assert (forall n (l : list A), x ∈ drop n l -> x ∈ l) as Hdrop.
  { intros n l H. rewrite <- (take_drop n l). apply elem_of_app. by right. }
  assert (forall n (l : list A), x ∈ take n l -> x ∈ l) as Htake.
  { intros n l H. rewrite <- (take_drop n l). apply elem_of_app. by left. }
  unfold sqlLimitOffset. destruct (limit <? 0); eauto.
Qed.

(** X17. Every key that [list] returns is a stored key that passes the
    filters asked for: its active flag is the one asked for, its prefix is
    exactly the non-empty prefix asked for, and, unless expired keys are
    included, it has no expiry or one that is after [now].  This needs only
    that the ordering returns rows of the list it is given. *)
Theorem listApiKeys_sound (options : ApiKeyListOptions.t) (now : Z)
    (db : Database) (k : ApiKey.t) :
  (forall rows r, r ∈ orderByCreatedAtDesc rows -> r ∈ rows) ->
  k ∈ listApiKeys orderByCreatedAtDesc options now db ->
  exists r,
    r ∈ api_keys db /\ k = rowToApiKey r
    /\ (forall isActive, ApiKeyListOptions.isActive options = Some isActive ->
          ApiKeyRow.is_active r = if isActive then 1 else 0)
    /\ (forall prefix, ApiKeyListOptions.prefix options = Some prefix ->
          prefix <> EmptyString -> ApiKey.prefix k = prefix)
    /\ (default false (ApiKeyListOptions.includeExpired options) = false ->
        forall e, ApiKeyRow.expires_at r = Some e -> now < e).
Proof.
  intros Hsub Hk. unfold listApiKeys in Hk.
  apply list_elem_of_fmap in Hk as (r & -> & Hr).
  apply sqlLimitOffset_elem, Hsub in Hr.
  apply list_elem_of_In, List.filter_In in Hr as [Hin Hw].
  apply list_elem_of_In in Hin.
  exists r. split; [done|]. split; [done|].
  unfold listWhere in Hw.
  apply andb_true_iff in Hw as [Hw Hexp]. apply andb_true_iff in Hw as [Hact Hpre].
  split; [|split].
  - intros isActive Hopt. rewrite Hopt in Hact. by apply Z.eqb_eq in Hact.
  - intros prefix Hopt Hne. rewrite Hopt in Hpre.
    destruct prefix; [done|]. by apply bool_decide_eq_true in Hpre.
  - intros Hinc e He. rewrite Hinc, He in Hexp. by apply Z.ltb_lt in Hexp.
Qed.

(** X18. Pages follow one another without overlap and without omission: for
    the same filters and the same instant, the page of [limit] keys at
    [offset] followed by the page of [limit'] keys at [offset + limit] is the
    page of [limit + limit'] keys at [offset]. *)
Theorem listApiKeys_pages (options : ApiKeyListOptions.t) (now : Z)
    (db : Database) (offset limit limit' : Z) :
  0 <= offset -> 0 <= limit -> 0 <= limit' ->
  listApiKeys orderByCreatedAtDesc (withPage options offset limit) now db
  ++ listApiKeys orderByCreatedAtDesc (withPage options (offset + limit) limit') now db
  = listApiKeys orderByCreatedAtDesc (withPage options offset (limit + limit')) now db.
Proof.
  intros Ho Hl Hl'. unfold listApiKeys, withPage. simpl.
  change (listWhere {| ApiKeyListOptions.isActive := ?a;
                       ApiKeyListOptions.prefix := ?p;
                       ApiKeyListOptions.includeExpired := ?i;
                       ApiKeyListOptions.offset := _;
                       ApiKeyListOptions.limit := _ |} now)
    with (listWhere options now).
  generalize (orderByCreatedAtDesc (List.filter (listWhere options now) (api_keys db))).
  intros rows. rewrite <- fmap_app. f_equal. unfold sqlLimitOffset.
  replace (limit <? 0) with false by (symmetry; apply Z.ltb_ge; lia).
  replace (limit' <? 0) with false by (symmetry; apply Z.ltb_ge; lia).
  replace (limit + limit' <? 0) with false by (symmetry; apply Z.ltb_ge; lia).
  rewrite !Z2Nat.inj_add by lia. rewrite <- drop_drop.
  apply take_take_drop.
Qed.

(** X19. [list] returns at most [limit] keys, and exactly as many as the
    store holds matching keys beyond [offset], up to [limit]; a negative
    limit is no limit.  In particular, when the ordering keeps the number of
    rows, listing the active keys from the start with a limit that is not
    below their number returns as many keys as [getStats] counts active at
    the same instant. *)
Theorem listApiKeys_length (options : ApiKeyListOptions.t) (now : Z)
    (db : Database) :
  (forall rows, length (orderByCreatedAtDesc rows) = length rows) ->
  let matching := countWhere (listWhere options now) db in
  let offset := Z.max 0 (default 0 (ApiKeyListOptions.offset options)) in
  let limit := default 50 (ApiKeyListOptions.limit options) in
  Z.of_nat (length (listApiKeys orderByCreatedAtDesc options now db))
  = (if limit <? 0 then Z.max 0 (matching - offset)
     else Z.min limit (Z.max 0 (matching - offset)))
  /\ (ApiKeyListOptions.isActive options = Some true ->
      ApiKeyListOptions.prefix options = None ->
      default false (ApiKeyListOptions.includeExpired options) = false ->
      matching = Stats.active (getStats now db)).
Proof.
  intros Hlen matching offset limit. subst matching offset limit. split.
  - unfold listApiKeys, sqlLimitOffset, countWhere.
    rewrite length_fmap.
    destruct (default 50 (ApiKeyListOptions.limit options) <? 0) eqn:Hl.
    + rewrite length_drop, Hlen. lia.
    + apply Z.ltb_ge in Hl. rewrite length_take, length_drop, Hlen. lia.
  - intros Hact Hpre Hinc. unfold getStats. simpl. apply countWhere_ext.
    intros r _. unfold listWhere. rewrite Hact, Hpre, Hinc.
    by rewrite andb_true_r.
Qed.

End ListingProperties.

(** ** Authentication of requests *)

Lemma afterLiteral_app (p s t : string) :
  afterLiteral p s = Some EmptyString -> afterLiteral p (s +:+ t) = Some t.
Proof.
  revert s. induction p as [|a p IH]; intros s; simpl.
  - by intros [= ->].
  - destruct s as [|b s]; [done|]. rewrite append_cons.
    destruct (Ascii.eqb _ _); [apply IH | done].
Qed.

Lemma afterLiteral_split (p s t : string) :
  afterLiteral p s = Some t ->
  exists pre, s = pre +:+ t /\ String.length pre = String.length p.
Proof.
  revert s. induction p as [|a p IH]; intros s; simpl.
  - intros [= ->]. by exists EmptyString.
  - destruct s as [|b s]; [done|].
    destruct (Ascii.eqb _ _); [|done]. intros H.
    destruct (IH s H) as (pre & -> & Hlen).
    exists (String b pre). split; [done | simpl; by rewrite Hlen].
Qed.

Lemma spanWhitespace_split (s ws rest : string) :
  spanWhitespace s = (ws, rest) -> s = ws +:+ rest.
Proof.
  revert ws rest. induction s as [|c s IH]; intros ws rest; simpl.
  - by intros [= <- <-].
  - destruct (isWhitespace c); [|by intros [= <- <-]].
    destruct (spanWhitespace s) as [ws' rest'].
    intros [= <- <-]. rewrite append_cons. f_equal. by apply IH.
Qed.

Lemma spanWhitespace_app (ws rest : string) :
  allWhitespace ws = true ->
  startsWithWhitespace rest = false ->
  spanWhitespace (ws +:+ rest) = (ws, rest).
Proof.
  intros Hws Hrest. induction ws as [|c ws IH].
  - destruct rest as [|c rest]; [done|]. simpl in *. by rewrite Hrest.
  - rewrite append_cons. simpl in *. apply andb_true_iff in Hws as [-> Hws].
    by rewrite IH.
Qed.

Lemma lastChar_split (ws : string) (c : ascii) :
  lastChar ws = Some c -> exists ws', ws = ws' +:+ String c EmptyString.
Proof.
  induction ws as [|a ws IH]; [done|]. simpl.
  destruct ws as [|b ws].
  - intros [= ->]. by exists EmptyString.
  - intros H. destruct (IH H) as [ws' Hws']. exists (String a ws').
    rewrite append_cons. by rewrite <- Hws'.
Qed.

Lemma captureKey_spec (afterScheme key : string) :
  captureKey afterScheme = Some key ->
  key <> EmptyString /\ hasLineTerminator key = false
  /\ exists ws, ws <> EmptyString /\ allWhitespace ws = true
                /\ afterScheme = ws +:+ key.
Proof.
  unfold captureKey.
  destruct (spanWhitespace afterScheme) as [ws rest] eqn:Hspan.
  assert (forall s ws' rest', spanWhitespace s = (ws', rest') ->
            allWhitespace ws' = true) as Hall.
  { induction s as [|c s IH]; intros ws' rest'; simpl; [by intros [= <- <-]|].
    destruct (isWhitespace c) eqn:Hc; [|by intros [= <- <-]].
    destruct (spanWhitespace s) as [w r]. intros [= <- <-]. simpl.
    rewrite Hc. by eapply IH. }
  pose proof (Hall _ _ _ Hspan) as Hws.
  apply spanWhitespace_split in Hspan. subst afterScheme.
  destruct ws as [|c ws]; [done|].
  destruct rest as [|r rest].
  - destruct ws as [|c' ws]; [done|].
    destruct (lastChar (String c (String c' ws))) as [l|] eqn:Hlast; [|done].
    destruct (isLineTerminator l) eqn:Hl; [done|]. intros [= <-].
    split; [done|]. split; [simpl; by rewrite Hl|].
    destruct (lastChar_split _ _ Hlast) as [ws' Hws'].
    exists ws'. rewrite append_empty_r, <- Hws'.
    split; [|split; [|done]].
    + intros ->. destruct ws; discriminate Hws'.
    + clear -Hws Hws'. revert Hws. rewrite Hws'. clear.
      induction ws' as [|a ws' IH]; [done|]. rewrite append_cons. simpl.
      intros H. apply andb_true_iff in H as [-> H]. by apply IH.
  - cbv beta iota.
    destruct (hasLineTerminator (String r rest)) eqn:Hlt; [by destruct ws|].
    intros Hkey. assert (key = String r rest) as -> by (destruct ws; congruence).
    split; [done|]. split; [done|]. by exists (String c ws).
Qed.

(** X20. Whatever [extractApiKey] returns is a non-empty end of the header
    value without line terminator, preceded by [Bearer] or [ApiKey] in any
    letter case and at least one white-space character; a missing or empty
    header gives nothing. *)
Theorem extractApiKey_result (auth : option string) (key : string) :
  extractApiKey auth = Some key ->
  key <> EmptyString /\ hasLineTerminator key = false
  /\ exists header scheme ws,
       auth = Some header
       /\ header = scheme +:+ ws +:+ key
       /\ (afterLiteral "Bearer" scheme = Some EmptyString
           \/ afterLiteral "ApiKey" scheme = Some EmptyString)
       /\ ws <> EmptyString /\ allWhitespace ws = true.
Proof.
  assert (forall p s t, afterLiteral p s = Some t ->
            exists scheme, s = scheme +:+ t
                           /\ afterLiteral p scheme = Some EmptyString) as Hlit.
  { induction p as [|a p IH]; intros s t; simpl.
    - intros [= ->]. by exists EmptyString.
    - destruct s as [|b s]; [done|].
      destruct (Ascii.eqb (toLower a) (toLower b)) eqn:Hab; [|done]. intros H.
      destruct (IH s t H) as (scheme & -> & Hs).
      exists (String b scheme). split; [done|]. simpl. by rewrite Hab. }
  unfold extractApiKey. destruct auth as [header|]; [|done].
  destruct header as [|c0 header0]; [done|].
  set (header := String c0 header0).
  destruct (afterLiteral "Bearer" header) as [rest|] eqn:Hb.
  - intros Hcap. destruct (captureKey_spec _ _ Hcap) as (H1 & H2 & ws & Hw1 & Hw2 & ->).
    split; [done|]. split; [done|].
    destruct (Hlit _ _ _ Hb) as (scheme & Hh & Hs).
    exists header, scheme, ws. repeat split; try done. by left.
  - destruct (afterLiteral "ApiKey" header) as [rest|] eqn:Ha; [|done].
    intros Hcap. destruct (captureKey_spec _ _ Hcap) as (H1 & H2 & ws & Hw1 & Hw2 & ->).
    split; [done|]. split; [done|].
    destruct (Hlit _ _ _ Ha) as (scheme & Hh & Hs).
    exists header, scheme, ws. repeat split; try done. by right.
Qed.

(** X21. A key that is not empty, does not start with white space and holds
    no line terminator is recovered from the header made of [Bearer] or
    [ApiKey] in any letter case, some white space and the key. *)
Theorem extractApiKey_roundtrip (scheme ws key : string) :
  afterLiteral "Bearer" scheme = Some EmptyString
  \/ afterLiteral "ApiKey" scheme = Some EmptyString ->
  ws <> EmptyString -> allWhitespace ws = true ->
  key <> EmptyString -> startsWithWhitespace key = false ->
  hasLineTerminator key = false ->
  extractApiKey (Some (scheme +:+ ws +:+ key)) = Some key.
Proof.
  intros Hscheme Hws1 Hws2 Hk1 Hk2 Hk3.
  assert (captureKey (ws +:+ key) = Some key) as Hcap.
  { unfold captureKey. rewrite spanWhitespace_app by done.
    destruct ws as [|c ws]; [done|]. destruct key as [|k key]; [done|].
    cbv beta iota. rewrite Hk3. by destruct ws. }
  unfold extractApiKey.
  destruct (scheme +:+ ws +:+ key) as [|c0 h0] eqn:Hheader.
  { destruct scheme; [|discriminate Hheader]. destruct ws; [done|].
    discriminate Hheader. }
  rewrite <- Hheader. clear Hheader.
  destruct Hscheme as [Hb|Ha].
  - by rewrite (afterLiteral_app _ _ _ Hb).
  - assert (afterLiteral "Bearer" (scheme +:+ ws +:+ key) = None) as ->.
    { destruct scheme as [|s0 scheme]; [done|]. rewrite append_cons.
      cbn [afterLiteral] in *.
      destruct (Ascii.eqb (toLower "A") (toLower s0)) eqn:H0; [|done].
      apply Ascii.eqb_eq in H0. rewrite <- H0. done. }
    by rewrite (afterLiteral_app _ _ _ Ha).
Qed.

Lemma extractApiKey_nonempty (auth : option string) (key : string) :
  extractApiKey auth = Some key -> exists c key', key = String c key'.
Proof.
  unfold extractApiKey. destruct auth as [[|c0 header]|]; [done| |done].
  intros Hcap.
  assert (exists s, captureKey s = Some key) as [s Hs].
  { destruct (afterLiteral "Bearer" _); [by eexists|].
    destruct (afterLiteral "ApiKey" _); [by eexists|done]. }
  destruct (captureKey_spec _ _ Hs) as (Hne & _).
  destruct key as [|c key']; [done|]. by exists c, key'.
Qed.

Lemma validate_shapes (key : string) (options : ValidateOptions.t)
    (clk : ValidateClock) (db : Database) :
  let db' := fst (validate key options clk db) in
  let res := snd (validate key options clk db) in
  (res = invalid not_found None /\ db' = db)
  \/ (exists k, res = invalid revoked (Some k) /\ db' = db)
  \/ (exists k, res = invalid expired (Some k) /\ db' = db)
  \/ (exists k, res = invalid rate_limited (Some k)
                /\ api_keys db' = api_keys db)
  \/ (exists k, res = success k).
Proof.
  unfold validate, validateHashed.
  destruct (selectByHash _ _) as [row|]; [|by left].
  destruct (negb _); [right; left; eauto|].
  destruct (isExpired _ _); [right; right; left; eauto|].
  destruct (_ && _).
  - unfold checkRateLimit. destruct (overLimit _ _); simpl.
    + right; right; right; left. eauto.
    + destruct (default true _); simpl; repeat right; eauto.
  - destruct (default true _); simpl; repeat right; eauto.
Qed.

(** X22. [requireAuth] lets a request through exactly when the header
    carries a key that [validate] accepts.  Otherwise it answers 429 exactly
    when [validate] says [rate_limited], and 401 in every other case (no
    usable header, or a key that is unknown, revoked or expired); an answer
    401 leaves the store as it was. *)
Theorem requireAuth_status (auth : option string) (clk : ValidateClock)
    (db : Database) :
  let db' := fst (requireAuth auth clk db) in
  let answer := snd (requireAuth auth clk db) in
  (answer = None
   <-> exists key, extractApiKey auth = Some key
                   /\ ApiKeyValidationResult.valid
                        (snd (validate key noOptions clk db)) = true)
  /\ (forall r, answer = Some r ->
        (status r = 429
         /\ exists key, extractApiKey auth = Some key
                        /\ ApiKeyValidationResult.reason
                             (snd (validate key noOptions clk db))
                           = Some rate_limited)
        \/ (status r = 401 /\ db' = db
            /\ forall key, extractApiKey auth = Some key ->
                  ApiKeyValidationResult.reason
                    (snd (validate key noOptions clk db))
                  <> Some rate_limited)).
Proof.
  unfold requireAuth.
  destruct (extractApiKey auth) as [key|] eqn:Hex.
  - destruct (extractApiKey_nonempty _ _ Hex) as (c & key' & ->).
    pose proof (validate_shapes (String c key') noOptions clk db) as Hshape.
    destruct (validate (String c key') noOptions clk db) as [db1 res] eqn:Hv.
    simpl in Hshape.
    assert (forall P : string -> Prop,
              (exists key, Some (String c key') = Some key /\ P key)
              <-> P (String c key')) as Hex1.
    { intros P. split; [by intros (? & [= <-] & ?) | by eexists]. }
    assert (forall P : string -> Prop,
              (forall key, Some (String c key') = Some key -> P key)
              <-> P (String c key')) as Hall1.
    { intros P. split; [by auto | by intros ? ? [= <-]]. }
    rewrite Hex1. setoid_rewrite Hex1. setoid_rewrite Hall1. rewrite Hv.
    destruct Hshape as [[-> ->]|[(k & -> & ->)|[(k & -> & ->)|[(k & -> & Hrows)
                       |(k & ->)]]]]; simpl.
    + split; [done|]. intros r [= <-]. by right.
    + split; [done|]. intros r [= <-]. by right.
    + split; [done|]. intros r [= <-]. by right.
    + split; [done|]. intros r [= <-]. by left.
    + split; [done|]. intros r Hr. discriminate Hr.
  - simpl. split; [split; [done | by intros (? & ? & ?)]|].
    intros r [= <-]. right. split; [done|]. split; [done|]. by intros ? ?.
Qed.

(** ** The side tables *)

Section SideTableProperties.

Variable toISOString : Z -> string.

(** X23. [createRues] is an upsert: whatever the table held, [getRues] of the
    same [app_id] then returns exactly the record [createRues] returned, and
    every other entry reads as before. *)
Theorem createRues_getRues (appId publicKey : string) (now : Z)
    (rues : gmap string (string * Z)) :
  let rues' := fst (createRues toISOString appId publicKey now rues) in
  getRues toISOString appId rues'
  = Some (snd (createRues toISOString appId publicKey now rues))
  /\ forall other, other <> appId ->
       getRues toISOString other rues' = getRues toISOString other rues.
Proof.
  unfold createRues, getRues. simpl. split.
  - by rewrite lookup_insert_eq.
  - intros other Hother. by rewrite lookup_insert_ne.
Qed.

(** X24. [deleteRues] answers [true] exactly when [getRues] found an entry;
    afterwards [getRues] of that [app_id] finds none, a second [deleteRues]
    answers [false], and every other entry reads as before. *)
Theorem deleteRues_effects (appId : string) (rues : gmap string (string * Z)) :
  let rues' := fst (deleteRues appId rues) in
  (snd (deleteRues appId rues) = true <-> getRues toISOString appId rues <> None)
  /\ getRues toISOString appId rues' = None
  /\ snd (deleteRues appId rues') = false
  /\ forall other, other <> appId ->
       getRues toISOString other rues' = getRues toISOString other rues.
Proof.
  unfold deleteRues, getRues. simpl. repeat split.
  - intros Hb. apply bool_decide_eq_true_1 in Hb as [[p c] ->]. done.
  - intros Hget. apply bool_decide_eq_true_2.
    destruct (rues !! appId) as [[p c]|]; [by eexists | done].
  - by rewrite lookup_delete_eq.
  - apply bool_decide_eq_false_2. rewrite lookup_delete_eq. by intros [? ?].
  - intros other Hother. by rewrite lookup_delete_ne.
Qed.

(** X25. Shared secrets behave the same way under their [private_key]:
    [createSharedSecret] overwrites, [getSharedSecret] then returns the record
    that was returned, and [deleteSharedSecret] answers [true] exactly when
    there was a secret and leaves none behind. *)
Theorem sharedSecret_roundtrip (privateKey publicKey : string) (now : Z)
    (secrets : gmap string (string * Z)) :
  let created := createSharedSecret toISOString privateKey publicKey now secrets in
  getSharedSecret toISOString privateKey (fst created) = Some (snd created)
  /\ (forall other, other <> privateKey ->
        getSharedSecret toISOString other (fst created)
        = getSharedSecret toISOString other secrets)
  /\ (snd (deleteSharedSecret privateKey secrets) = true
      <-> getSharedSecret toISOString privateKey secrets <> None)
  /\ getSharedSecret toISOString privateKey
       (fst (deleteSharedSecret privateKey (fst created))) = None.
Proof.
  unfold createSharedSecret, getSharedSecret, deleteSharedSecret. simpl.
  repeat split.
  - by rewrite lookup_insert_eq.
  - intros other Hother. by rewrite lookup_insert_ne.
  - intros Hb. apply bool_decide_eq_true_1 in Hb as [[p c] ->]. done.
  - intros Hget. apply bool_decide_eq_true_2.
    destruct (secrets !! privateKey) as [[p c]|]; [by eexists | done].
  - by rewrite lookup_delete_eq.
Qed.

(** X26. Unlike [createRues], [createApp] never overwrites: it throws
    exactly when the [app_id] (the given one, else the fresh UUID) is already
    in the table, and then the table is unchanged; otherwise [getApp] of that
    id returns the record [createApp] returned, which carries the three input
    fields, and the other apps read as before. *)
Theorem createApp_effects (input : AppInput.t) (now : Z) (uuid : string)
    (apps : gmap string AppRow.t) :
  let appId := default uuid (AppInput.app_id input) in
  let apps' := fst (createApp toISOString input now uuid apps) in
  let res := snd (createApp toISOString input now uuid apps) in
  (getApp toISOString appId apps <> None ->
     res = Err ConstraintError /\ apps' = apps)
  /\ (getApp toISOString appId apps = None ->
        exists app, res = Ok app
          /\ getApp toISOString appId apps' = Some app
          /\ App.app_id app = appId
          /\ App.name app = AppInput.name input
          /\ App.public_key app = AppInput.public_key input
          /\ App.private_key app = AppInput.private_key input
          /\ App.created_at app = toISOString now
          /\ forall other, other <> appId ->
               getApp toISOString other apps' = getApp toISOString other apps).
Proof.
  unfold createApp, getApp. simpl.
  destruct (apps !! default uuid (AppInput.app_id input)) as [row|] eqn:Hrow;
    simpl; split; try done.
  intros _. eexists. split; [done|]. rewrite lookup_insert_eq. simpl.
  repeat split. intros other Hother. by rewrite lookup_insert_ne.
Qed.

(** X27. [updateApp] returns [null] exactly when the app is missing, and
    then changes nothing.  Otherwise each of [name], [public_key] and
    [private_key] of the returned app is the input's when given and the old
    one when absent, [app_id] and [created_at] stay (an [app_id] in the input
    is ignored), a later [getApp] returns the same app, and the other apps
    read as before. *)
Theorem updateApp_effects (appId : string) (input : PartialAppInput.t)
    (apps : gmap string AppRow.t) :
  let apps' := fst (updateApp toISOString appId input apps) in
  let res := snd (updateApp toISOString appId input apps) in
  (getApp toISOString appId apps = None -> res = None /\ apps' = apps)
  /\ (forall old, getApp toISOString appId apps = Some old ->
        exists app, res = Some app
          /\ getApp toISOString appId apps' = Some app
          /\ App.app_id app = appId
          /\ App.name app = default (App.name old) (PartialAppInput.name input)
          /\ App.public_key app
             = default (App.public_key old) (PartialAppInput.public_key input)
          /\ App.private_key app
             = default (App.private_key old) (PartialAppInput.private_key input)
          /\ App.created_at app = App.created_at old)
  /\ forall other, other <> appId ->
       getApp toISOString other apps' = getApp toISOString other apps.
Proof.
  unfold updateApp.
  destruct (getApp toISOString appId apps) as [old|] eqn:Hold; simpl.
  - split; [done|].
    unfold getApp in Hold.
    destruct (apps !! appId) as [row|] eqn:Hrow; [|done].
    simpl in Hold. injection Hold as <-.
    assert (forall other, other <> appId ->
              getApp toISOString other (alter (patchRow input) appId apps)
              = getApp toISOString other apps) as Hothers.
    { intros other Hother. unfold getApp. by rewrite lookup_alter_ne. }
    assert (getApp toISOString appId (alter (patchRow input) appId apps)
            = Some (appOfRow toISOString appId (patchRow input row))) as Hnew.
    { unfold getApp. rewrite lookup_alter_eq, Hrow. done. }
    destruct input as [i [n|] [p|] [q|]]; simpl in *;
      (split; [intros ? [= <-]; eexists; split; [first [exact Hnew | done]|];
               first [rewrite Hnew | unfold getApp; rewrite Hrow]; done
              | done || exact Hothers]).
  - split; [done|]. split; [done|]. done.
Qed.

(** X28. [deleteApp] answers [true] exactly when the app existed, and frees
    its [app_id]: [getApp] then finds nothing and a [createApp] with that id
    succeeds. *)
Theorem deleteApp_frees_id (appId : string) (input : AppInput.t) (now : Z)
    (uuid : string) (apps : gmap string AppRow.t) :
  let apps' := fst (deleteApp appId apps) in
  (snd (deleteApp appId apps) = true <-> getApp toISOString appId apps <> None)
  /\ getApp toISOString appId apps' = None
  /\ (AppInput.app_id input = Some appId ->
        exists app, snd (createApp toISOString input now uuid apps') = Ok app
                    /\ App.app_id app = appId)
  /\ forall other, other <> appId ->
       getApp toISOString other apps' = getApp toISOString other apps.
Proof.
  unfold deleteApp, getApp. simpl. repeat split.
  - intros Hb. apply bool_decide_eq_true_1 in Hb as [row ->]. done.
  - intros Hget. apply bool_decide_eq_true_2.
    destruct (apps !! appId) as [row|]; [by eexists | done].
  - by rewrite lookup_delete_eq.
  - intros Hid. unfold createApp. rewrite Hid. simpl.
    rewrite lookup_delete_eq. by eexists.
  - intros other Hother. by rewrite lookup_delete_ne.
Qed.

End SideTableProperties.

(** ** Updating a key over HTTP *)

Lemma updateWhereId_missing (keyId : string) (f : ApiKeyRow.t -> ApiKeyRow.t)
    (db : Database) :
  selectById keyId db = None -> updateWhereId keyId f db = (db, 0).
Proof.
  unfold selectById, updateWhereId. intros Hnone.
  rewrite find_None_elem in Hnone. destruct db as [rows rl]. simpl in *.
  f_equal; [f_equal|].
  - induction rows as [|r rows IH]; [done|]. simpl.
    rewrite (Hnone r) by left. f_equal. apply IH.
    intros x Hx. apply Hnone. by right.
  - induction rows as [|r rows IH]; [done|]. simpl.
    rewrite (Hnone r) by left. apply IH. intros x Hx. apply Hnone. by right.
Qed.

Lemma updateWhereId_present (keyId : string) (f : ApiKeyRow.t -> ApiKeyRow.t)
    (db : Database) (r : ApiKeyRow.t) :
  (forall r, ApiKeyRow.id (f r) = ApiKeyRow.id r) ->
  selectById keyId db = Some r ->
  (0 <? snd (updateWhereId keyId f db)) = true
  /\ selectById keyId (fst (updateWhereId keyId f db)) = Some (f r).
Proof.
  intros Hf Hsel. split.
  - unfold updateWhereId. simpl. apply Z.ltb_lt, filter_length_pos.
    apply find_Some_elem in Hsel. by exists r.
  - rewrite selectById_updateWhereId by done. rewrite Hsel. simpl.
    apply find_Some_elem in Hsel as [_ Hp]. by rewrite Hp.
Qed.

Lemma patchKeyApply_rows (keyId : string) (body : PatchBody.t) (db : Database) :
  (forall r, selectById keyId db = Some r ->
     hasFields body = true ->
     exists db',
       patchKeyApply keyId (Some body) db
       = (db', inr (Some (patchedKeyOf (rowToApiKey (patchRowWith body r)))))
       /\ selectById keyId db' = Some (patchRowWith body r))
  /\ (selectById keyId db = None ->
      patchKeyApply keyId (Some body) db
      = (db, inl (errorResponse "No fields to update")))
  /\ (hasFields body = false ->
      patchKeyApply keyId (Some body) db
      = (db, inl (errorResponse "No fields to update")))
  /\ forall keyId', keyId' <> keyId ->
       selectById keyId' (fst (patchKeyApply keyId (Some body) db))
       = selectById keyId' db.
Proof.
  assert (forall (f : ApiKeyRow.t -> ApiKeyRow.t) d keyId',
            (forall r, ApiKeyRow.id (f r) = ApiKeyRow.id r) ->
            keyId' <> keyId ->
            selectById keyId' (fst (updateWhereId keyId f d)) = selectById keyId' d)
    as Hother.
  { intros f d keyId' Hf Hne. rewrite selectById_updateWhereId by done.
    destruct (selectById keyId' d) as [r|] eqn:Hsel; [|done]. simpl.
    apply find_Some_elem in Hsel as [_ Hp]. apply bool_decide_eq_true in Hp.
    rewrite bool_decide_eq_false_2; [done | congruence]. }
  destruct body as [n s m]. unfold patchKeyApply, patchRowWith, hasFields.
  unfold rename, updateScopes, updateMetadata.
  cbn [PatchBody.name PatchBody.scopes PatchBody.metadata].
  split; [|split; [|split]].
  - intros r Hsel Hfields.
    destruct n as [n|].
    + destruct (updateWhereId_present keyId (setName n) db r (fun _ => eq_refl) Hsel)
        as [Hc1 Hs1].
      destruct (updateWhereId keyId (setName n) db) as [db1 c1]. cbn [fst snd] in *.
      rewrite Hc1. cbn [orb negb]. clear Hsel Hc1.
      destruct s as [s|].
      * destruct (updateWhereId_present keyId (setScopes s) db1 _
                    (fun _ => eq_refl) Hs1) as [Hc2 Hs2].
        destruct (updateWhereId keyId (setScopes s) db1) as [db2 c2]. cbn [fst snd] in *.
        rewrite Hc2. cbn [orb negb]. clear Hs1 Hc2.
        destruct m as [m|].
        -- destruct (updateWhereId_present keyId (setMetadata m) db2 _
                       (fun _ => eq_refl) Hs2) as [Hc3 Hs3].
           destruct (updateWhereId keyId (setMetadata m) db2) as [db3 c3].
           cbn [fst snd] in *. rewrite Hc3. cbn [orb negb]. exists db3. unfold getById.
           by rewrite Hs3.
        -- cbn [orb negb]. exists db2. unfold getById. by rewrite Hs2.
      * destruct m as [m|].
        -- destruct (updateWhereId_present keyId (setMetadata m) db1 _
                       (fun _ => eq_refl) Hs1) as [Hc3 Hs3].
           destruct (updateWhereId keyId (setMetadata m) db1) as [db3 c3].
           cbn [fst snd] in *. rewrite Hc3. cbn [orb negb]. exists db3. unfold getById.
           by rewrite Hs3.
        -- cbn [orb negb]. exists db1. unfold getById. by rewrite Hs1.
    + destruct s as [s|].
      * destruct (updateWhereId_present keyId (setScopes s) db _
                    (fun _ => eq_refl) Hsel) as [Hc2 Hs2].
        destruct (updateWhereId keyId (setScopes s) db) as [db2 c2]. cbn [fst snd] in *.
        rewrite Hc2. cbn [orb negb]. clear Hsel Hc2.
        destruct m as [m|].
        -- destruct (updateWhereId_present keyId (setMetadata m) db2 _
                       (fun _ => eq_refl) Hs2) as [Hc3 Hs3].
           destruct (updateWhereId keyId (setMetadata m) db2) as [db3 c3].
           cbn [fst snd] in *. rewrite Hc3. cbn [orb negb]. exists db3. unfold getById.
           by rewrite Hs3.
        -- cbn [orb negb]. exists db2. unfold getById. by rewrite Hs2.
      * destruct m as [m|]; [|done].
        destruct (updateWhereId_present keyId (setMetadata m) db _
                    (fun _ => eq_refl) Hsel) as [Hc3 Hs3].
        destruct (updateWhereId keyId (setMetadata m) db) as [db3 c3].
        cbn [fst snd] in *. rewrite Hc3. cbn [orb negb]. exists db3. unfold getById.
        by rewrite Hs3.
  - intros Hnone.
    destruct n as [n|]; [rewrite (updateWhereId_missing _ _ _ Hnone)|];
      (destruct s as [s|]; [rewrite (updateWhereId_missing _ _ _ Hnone)|]);
      (destruct m as [m|]; [rewrite (updateWhereId_missing _ _ _ Hnone)|]);
      done.
  - by destruct n, s, m.
  - intros keyId' Hne.
    destruct n as [n|].
    + pose proof (Hother (setName n) db keyId' (fun _ => eq_refl) Hne) as H1.
      destruct (updateWhereId keyId (setName n) db) as [db1 c1]. cbn [fst snd] in *.
      destruct s as [s|].
      * pose proof (Hother (setScopes s) db1 keyId' (fun _ => eq_refl) Hne) as H2.
        destruct (updateWhereId keyId (setScopes s) db1) as [db2 c2]. cbn [fst snd] in *.
        destruct m as [m|].
        -- pose proof (Hother (setMetadata m) db2 keyId' (fun _ => eq_refl) Hne)
             as H3.
           destruct (updateWhereId keyId (setMetadata m) db2) as [db3 c3].
           cbn [fst snd] in *. destruct (negb _); cbn [fst]; congruence.
        -- destruct (negb _); cbn [fst]; congruence.
      * destruct m as [m|].
        -- pose proof (Hother (setMetadata m) db1 keyId' (fun _ => eq_refl) Hne)
             as H3.
           destruct (updateWhereId keyId (setMetadata m) db1) as [db3 c3].
           cbn [fst snd] in *. destruct (negb _); cbn [fst]; congruence.
        -- destruct (negb _); cbn [fst]; congruence.
    + destruct s as [s|].
      * pose proof (Hother (setScopes s) db keyId' (fun _ => eq_refl) Hne) as H2.
        destruct (updateWhereId keyId (setScopes s) db) as [db2 c2]. cbn [fst snd] in *.
        destruct m as [m|].
        -- pose proof (Hother (setMetadata m) db2 keyId' (fun _ => eq_refl) Hne)
             as H3.
           destruct (updateWhereId keyId (setMetadata m) db2) as [db3 c3].
           cbn [fst snd] in *. destruct (negb _); cbn [fst]; congruence.
        -- destruct (negb _); cbn [fst]; congruence.
      * destruct m as [m|]; [|done].
        pose proof (Hother (setMetadata m) db keyId' (fun _ => eq_refl) Hne)
          as H3.
        destruct (updateWhereId keyId (setMetadata m) db) as [db3 c3].
        cbn [fst snd] in *. destruct (negb _); cbn [fst]; congruence.
Qed.

(** X29. [PATCH /v1/keys/:id], run without interruption, answers 404 for an
    unknown identifier, 400 for a missing body and 400 for a body with none
    of [name], [scopes], [metadata]; in these cases nothing is stored.
    Otherwise it answers 200 with the key, where each given field has
    replaced the old value and each absent field is as before, and
    [getById] then shows the same values with every other field unchanged.
    Keys with another identifier are never touched. *)
Theorem patchKey_effects (keyId : string) (body : option PatchBody.t)
    (db : Database) :
  let db' := fst (patchKey keyId body db) in
  let answer := snd (patchKey keyId body db) in
  (getById keyId db = None ->
     answer = inl {| status := 404; error := "API key not found" |} /\ db' = db)
  /\ (forall k, getById keyId db = Some k ->
        (body = None ->
           answer = inl (errorResponse "Invalid request body") /\ db' = db)
        /\ (forall b, body = Some b -> hasFields b = false ->
              answer = inl (errorResponse "No fields to update") /\ db' = db)
        /\ (forall b, body = Some b -> hasFields b = true ->
              let name' :=
                match PatchBody.name b with
                | Some n => Some n
                | None => ApiKey.name k
                end in
              let scopes' := default (ApiKey.scopes k) (PatchBody.scopes b) in
              let metadata' := default (ApiKey.metadata k) (PatchBody.metadata b) in
              answer = inr (Some {| PatchedKey.id := keyId;
                                    PatchedKey.name := name';
                                    PatchedKey.scopes := scopes';
                                    PatchedKey.metadata := metadata' |})
              /\ getById keyId db'
                 = Some {| ApiKey.id := ApiKey.id k;
                           ApiKey.keyHash := ApiKey.keyHash k;
                           ApiKey.prefix := ApiKey.prefix k;
                           ApiKey.suffix := ApiKey.suffix k;
                           ApiKey.name := name';
                           ApiKey.createdAt := ApiKey.createdAt k;
                           ApiKey.expiresAt := ApiKey.expiresAt k;
                           ApiKey.lastUsedAt := ApiKey.lastUsedAt k;
                           ApiKey.isActive := ApiKey.isActive k;
                           ApiKey.metadata := metadata';
                           ApiKey.scopes := scopes';
                           ApiKey.rateLimit := ApiKey.rateLimit k |}))
  /\ forall keyId', keyId' <> keyId -> getById keyId' db' = getById keyId' db.
Proof.
  unfold patchKey, patchKeyLookup.
  destruct (getById keyId db) as [k|] eqn:Hk; simpl; [|done].
  split; [done|]. split.
  - intros k' [= <-]. split; [by intros ->|].
    unfold getById in Hk.
    destruct (selectById keyId db) as [r|] eqn:Hsel; [|done].
    injection Hk as <-.
    assert (ApiKeyRow.id r = keyId) as Hid.
    { apply find_Some_elem in Hsel as [_ Hp]. by apply bool_decide_eq_true in Hp. }
    split.
    + intros b -> Hb.
      by rewrite (proj1 (proj2 (proj2 (patchKeyApply_rows keyId b db))) Hb).
    + intros b -> Hb.
      destruct (proj1 (patchKeyApply_rows keyId b db) r Hsel Hb)
        as (db' & -> & Hsel').
      simpl. unfold getById. rewrite Hsel'. simpl.
      destruct b as [[n|] [s|] [m|]]; try done; simpl;
        unfold patchedKeyOf, rowToApiKey, patchRowWith; simpl;
        by rewrite Hid.
  - intros keyId' Hne. destruct body as [b|]; [|done].
    unfold getById.
    by rewrite (proj2 (proj2 (proj2 (patchKeyApply_rows keyId b db))) keyId' Hne).
Qed.

(** X30. When the key is no longer there once the body has been read (it was
    deleted while the handler awaited it), the handler stores nothing and
    answers 400 [No fields to update], whatever fields the body gives. *)
Theorem patchKeyApply_key_gone (keyId : string) (body : PatchBody.t)
    (db : Database) :
  getById keyId db = None ->
  patchKeyApply keyId (Some body) db
  = (db, inl (errorResponse "No fields to update")).
Proof.
  intros Hnone. apply (proj1 (proj2 (patchKeyApply_rows keyId body db))).
  unfold getById in Hnone. by destruct (selectById keyId db).
Qed.

(** ** The properties at work on sample data *)

Lemma latestFirst_elem (rows : list ApiKeyRow.t) (r : ApiKeyRow.t) :
  r ∈ latestFirst rows -> r ∈ rows.
Proof. unfold latestFirst. by rewrite merge_sort_Permutation. Qed.

Lemma latestFirst_length (rows : list ApiKeyRow.t) :
  length (latestFirst rows) = length rows.
Proof. apply Permutation_length, merge_sort_Permutation. Qed.

Lemma create_key_shape_witness :
  exists db' res body,
    create Sample.shortKey Sample.env emptyDb = (db', Ok res)
    /\ ApiKeyCreateResult.key res = "k" +:+ body
    /\ Z.of_nat (String.length body) = 3.
Proof.
  destruct (create Sample.shortKey Sample.env emptyDb) as [db' [res|e]] eqn:Hcreate.
  - pose proof (create_key_shape Sample.shortKey Sample.env emptyDb db' res
                  Hcreate) as Hshape.
    cbv zeta in Hshape. destruct Hshape as (body & Hkey & Hlen & _).
    exists db', res, body. split; [reflexivity|]. split; [exact Hkey | exact Hlen].
  - vm_compute in Hcreate. discriminate Hcreate.
Defined.

Lemma validate_unlimited_witness :
  Forall (fun res => ApiKeyValidationResult.valid res = true)
    (snd (validateAll "rapids_a" noOptions [clockAt 5000; clockAt 6000]
            Sample.fourKeys))
  /\ rate_limit_records
       (fst (validateAll "rapids_a" noOptions [clockAt 5000; clockAt 6000]
               Sample.fourKeys))
     = rate_limit_records Sample.fourKeys.
Proof.
  destruct (validate_unlimited "rapids_a" noOptions Sample.fourKeys Fixture.keyA)
    as [_ Hall].
  - vm_compute. reflexivity.
  - left. reflexivity.
  - exact (Hall eq_refl eq_refl [clockAt 5000; clockAt 6000]).
Defined.


Lemma checkRateLimit_windows_witness :
  windows_ok 65000
    (rate_limit_records (fst (checkRateLimit "a" 3 65000 Fixture.staleCounter)))
  /\ forall k w c,
       rate_limit_records (fst (checkRateLimit "a" 3 65000 Fixture.staleCounter))
         !! (k, w) = Some c ->
       w = 60000 \/ w = 0.
Proof.
  pose proof (checkRateLimit_windows "a" 3 5000 65000 Fixture.staleCounter)
    as Hwin.
  cbv zeta in Hwin. destruct Hwin as (Hok & Hrange & _).
  - intros k w c Hc. simpl in Hc.
    apply lookup_singleton_Some in Hc as [Hkw _].
    injection Hkw as <- <-. split; [reflexivity | vm_compute; discriminate].
  - lia.
  - split; [exact Hok | exact Hrange].
Defined.

Lemma checkRateLimit_new_window_witness :
  snd (checkRateLimit "a" 3 65000 Fixture.staleCounter) = false
  /\ rate_limit_records (fst (checkRateLimit "a" 3 65000 Fixture.staleCounter))
       !! ("a", windowStartOf 65000) = Some 1.
Proof.
  apply (checkRateLimit_new_window "a" 3 5000 65000 Fixture.staleCounter).
  - intros k w c Hc. simpl in Hc.
    apply lookup_singleton_Some in Hc as [Hkw _].
    injection Hkw as <- <-. split; [reflexivity | vm_compute; discriminate].
  - vm_compute. reflexivity.
Defined.

Lemma checkRateLimit_nonpositive_limit_witness :
  snd (checkRateLimitAll "a" 0 [1; 2; 3] emptyDb) = [false; true; true]
  /\ rate_limit_records (fst (checkRateLimitAll "a" 0 [1; 2; 3] emptyDb))
       !! ("a", 0) = Some 1.
Proof.
  destruct (checkRateLimit_nonpositive_limit "a" 0 0 [1; 2; 3] emptyDb)
    as [Hanswers Hcounter].
  - lia.
  - repeat constructor.
  - reflexivity.
  - split; [exact Hanswers|]. apply Hcounter. discriminate.
Defined.

Lemma create_then_getById_witness :
  exists db' res,
    create noConfig Sample.env Sample.fourKeys = (db', Ok res)
    /\ getById (ApiKey.id (ApiKeyCreateResult.record res)) db'
       = Some (ApiKeyCreateResult.record res).
Proof.
  destruct (create noConfig Sample.env Sample.fourKeys)
    as [db' [res|e]] eqn:Hcreate.
  - exists db', res. split; [reflexivity|].
    exact (proj1 (create_then_getById noConfig Sample.env Sample.fourKeys db'
                    res Hcreate)).
  - vm_compute in Hcreate. discriminate Hcreate.
Defined.

Lemma keys_unique_applyOps_witness :
  keys_unique (applyOps true Fixture.busyDay Sample.fourKeys).
Proof.
  apply (keys_unique_applyOps true Fixture.busyDay Sample.fourKeys).
  split;
    match goal with
    | |- ?P => apply (bool_decide_unpack P); vm_compute; exact I
    end.
Defined.

Lemma key_persists_and_stays_revoked_witness :
  exists r',
    r' ∈ api_keys (applyOps true Fixture.busyDay Sample.fourKeys)
    /\ sameIdentity Fixture.keyC r'
    /\ ApiKeyRow.is_active r' = 0.
Proof.
  destruct (key_persists_and_stays_revoked true Fixture.busyDay Sample.fourKeys
              Fixture.keyC) as (r' & Hin & Hsame & Hrevoked).
  - unfold Sample.fourKeys, Fixture.keyC. simpl. repeat constructor.
  - unfold Fixture.busyDay.
    repeat (apply Forall_cons_2 || apply Forall_nil_2); simpl;
      first [tauto | discriminate].
  - exists r'. split; [exact Hin|]. split; [exact Hsame|].
    apply Hrevoked. reflexivity.
Defined.

Lemma revoke_then_validate_witness :
  snd (revoke "a" Sample.fourKeys) = true
  /\ exists k,
       validate "rapids_a" noOptions (clockAt 5000)
         (fst (revoke "a" Sample.fourKeys))
       = (fst (revoke "a" Sample.fourKeys), invalid revoked (Some k))
       /\ ApiKey.id k = "a"
       /\ ApiKey.isActive k = false.
Proof.
  apply (revoke_then_validate "rapids_a" noOptions (clockAt 5000)
           Sample.fourKeys Fixture.keyA).
  vm_compute. reflexivity.
Defined.

Lemma listApiKeys_sound_witness :
  exists r,
    r ∈ api_keys Sample.fourKeys
    /\ rowToApiKey Fixture.keyA = rowToApiKey r
    /\ ApiKeyRow.is_active r = 1.
Proof.
  destruct (listApiKeys_sound latestFirst Fixture.activeOnly 5000
              Sample.fourKeys (rowToApiKey Fixture.keyA))
    as (r & Hin & Hkey & Hactive & _).
  - exact latestFirst_elem.
  - vm_compute. repeat constructor.
  - exists r. split; [exact Hin|]. split; [exact Hkey|].
    exact (Hactive true eq_refl).
Defined.

Lemma listApiKeys_pages_witness :
  listApiKeys latestFirst (withPage Fixture.activeOnly 0 1) 5000 Sample.fourKeys
  ++ listApiKeys latestFirst (withPage Fixture.activeOnly (0 + 1) 1) 5000
       Sample.fourKeys
  = listApiKeys latestFirst (withPage Fixture.activeOnly 0 (1 + 1)) 5000
      Sample.fourKeys.
Proof.
  apply (listApiKeys_pages latestFirst Fixture.activeOnly 5000 Sample.fourKeys
           0 1 1); lia.
Defined.

Lemma listApiKeys_length_witness :
  Z.of_nat (length (listApiKeys latestFirst Fixture.activeOnly 5000
                      Sample.fourKeys)) = 2
  /\ Stats.active (getStats 5000 Sample.fourKeys) = 2.
Proof.
  pose proof (listApiKeys_length latestFirst Fixture.activeOnly 5000
                Sample.fourKeys latestFirst_length) as Hlength.
  cbv zeta in Hlength. destruct Hlength as [Hlen Hstats].
  split.
  - rewrite Hlen. reflexivity.
  - rewrite <- Hstats by reflexivity. reflexivity.
Defined.

Lemma extractApiKey_result_witness :
  "rapids_a" <> EmptyString
  /\ hasLineTerminator "rapids_a" = false
  /\ exists header scheme ws,
       Some "Bearer rapids_a" = Some header
       /\ header = scheme +:+ ws +:+ "rapids_a"
       /\ (afterLiteral "Bearer" scheme = Some EmptyString
           \/ afterLiteral "ApiKey" scheme = Some EmptyString)
       /\ ws <> EmptyString /\ allWhitespace ws = true.
Proof.
  apply (extractApiKey_result (Some "Bearer rapids_a") "rapids_a").
  reflexivity.
Defined.

Lemma extractApiKey_roundtrip_witness :
  extractApiKey (Some ("apikey" +:+ "  " +:+ "rapids_a")) = Some "rapids_a".
Proof.
  apply (extractApiKey_roundtrip "apikey" "  " "rapids_a").
  - right. reflexivity.
  - discriminate.
  - reflexivity.
  - discriminate.
  - reflexivity.
  - reflexivity.
Defined.

Lemma patchKeyApply_key_gone_witness :
  patchKeyApply "z" (Some Fixture.renameOnly) Sample.fourKeys
  = (Sample.fourKeys, inl (errorResponse "No fields to update")).
Proof.
  apply (patchKeyApply_key_gone "z" Fixture.renameOnly Sample.fourKeys).
  vm_compute. reflexivity.
Defined.
